(** * A tree over a flat key-value store, and its path codec

    Shallow embedding of [src/pathparser.js] (class [PathParser]) and of
    [src/cfkvtree.js] (class [KVTreeStorage]), with the properties of the
    specification that were checked against them.

    JavaScript strings are sequences of UTF-16 code units: a [jsstring] is a
    list of code units, each a number below 65536. *)

From Stdlib Require Import NArith ZArith Ascii String Lia.
From Stdlib Require Strings.Byte.
From stdpp Require Import base list gmap sorting.

Local Open Scope N_scope.

(** ** JavaScript strings *)

Definition jsstring := list N.

(** A code unit is a 16-bit number. *)
Definition code_unit (c : N) : Prop := c < 65536.

Definition wf_string (s : jsstring) : Prop := Forall code_unit s.

(** An ASCII literal as a [jsstring]. *)
Definition str (s : string) : jsstring :=
  List.map N_of_ascii (list_ascii_of_string s).

Definition ch (a : ascii) : N := N_of_ascii a.

(** [s1 === s2] on strings. *)
Fixpoint str_eqb (s1 s2 : jsstring) : bool :=
  match s1, s2 with
  | [], [] => true
  | c1 :: t1, c2 :: t2 => (c1 =? c2) && str_eqb t1 t2
  | _, _ => false
  end.

(** [parts.join(sep)]. *)
Fixpoint join (sep : jsstring) (parts : list jsstring) : jsstring :=
  match parts with
  | [] => []
  | [p] => p
  | p :: ps => p ++ sep ++ join sep ps
  end.

(** [s.padStart(n, c)] for a one-character pad. *)
Definition padStart (n : nat) (c : N) (s : jsstring) : jsstring :=
  repeat c (n - length s) ++ s.

(** *** Digits *)

Definition is_digit (c : N) : bool := (48 <=? c) && (c <=? 57).
Definition is_upper_hex (c : N) : bool := (65 <=? c) && (c <=? 70).
Definition is_lower_hex (c : N) : bool := (97 <=? c) && (c <=? 102).
Definition is_hex_digit (c : N) : bool :=
  is_digit c || is_upper_hex c || is_lower_hex c.
Definition is_alpha (c : N) : bool :=
  ((65 <=? c) && (c <=? 90)) || ((97 <=? c) && (c <=? 122)).
Definition is_alnum (c : N) : bool := is_alpha c || is_digit c.

(** The value of a digit character, in any radix up to 16. *)
Definition digit_val (c : N) : N :=
  if is_digit c then c - 48
  else if is_upper_hex c then c - 55
  else c - 87.

(** [parseInt(s, radix)] on a string of digits of that radix. *)
Definition parseInt (radix : N) (s : jsstring) : N :=
  fold_left (fun acc c => acc * radix + digit_val c) s 0.

(** The digit for a value below 16, upper or lower case. *)
Definition digit_char (upper : bool) (d : N) : N :=
  if d <? 10 then 48 + d else if upper then 55 + d else 87 + d.

Fixpoint digits_acc (fuel : nat) (radix n : N) (acc : list N) : list N :=
  match fuel with
  | O => acc
  | S f =>
      if n <? radix then n :: acc
      else digits_acc f radix (n / radix) (n mod radix :: acc)
  end.

(** [n.toString(radix)], in lower case as JavaScript prints it, or already
    upper-cased ([.toUpperCase()]). *)
Definition toString_radix (upper : bool) (radix n : N) : jsstring :=
  List.map (digit_char upper) (digits_acc (S (N.size_nat n)) radix n []).

(** [String.fromCodePoint(cp)]: [None] stands for the [RangeError] raised
    above U+10FFFF; a code point beyond the basic plane gives a surrogate
    pair. *)
Definition fromCodePoint (cp : N) : option jsstring :=
  if cp <? 65536 then Some [cp]
  else if cp <=? 1114111 then
    Some [55296 + (cp - 65536) / 1024; 56320 + (cp - 65536) mod 1024]
  else None.

(** [new TextEncoder().encode(c)] for a string of one code unit: a lone
    surrogate is encoded as U+FFFD. *)
Definition stringToUtf8Bytes (c : N) : list N :=
  if c <? 128 then [c]
  else if c <? 2048 then [192 + c / 64; 128 + c mod 64]
  else if (55296 <=? c) && (c <=? 57343) then [239; 191; 189]
  else [224 + c / 4096; 128 + (c / 64) mod 64; 128 + c mod 64].

(** *** Printing a number and reading it back *)

Section Digits.

Variable radix : N.
Hypothesis radix_ge_2 : 2 <= radix.

Let step (acc d : N) : N := acc * radix + d.

Lemma size_nat_bound (n : N) : n < 2 ^ N.of_nat (N.size_nat n).
Proof.
  destruct n as [|p]; [reflexivity|].
  induction p as [p IH|p IH|]; cbn [N.size_nat Pos.size_nat] in *;
    try rewrite Nat2N.inj_succ, N.pow_succ_r'; lia.
Qed.

Lemma fuel_enough (n : N) : n < radix ^ N.of_nat (S (N.size_nat n)).
Proof.
  rewrite Nat2N.inj_succ, N.pow_succ_r'.
  pose proof (size_nat_bound n) as Hn.
  assert (2 ^ N.of_nat (N.size_nat n) <= radix ^ N.of_nat (N.size_nat n))
    by (apply N.pow_le_mono_l; lia).
  assert (0 < radix ^ N.of_nat (N.size_nat n)) by lia.
  nia.
Qed.

Lemma digits_acc_value (fuel : nat) : forall n acc,
  n < radix ^ N.of_nat fuel ->
  fold_left step (digits_acc fuel radix n acc) 0 = fold_left step acc n.
Proof.
  induction fuel as [|f IH]; intros n acc Hn.
  - cbn in Hn. assert (n = 0) by lia. now subst.
  - cbn [digits_acc]. destruct (N.ltb_spec n radix) as [Hlt|Hge].
    + reflexivity.
    + rewrite IH.
      * cbn [fold_left]. unfold step at 2.
        rewrite (N.mul_comm (n / radix)), <- N.div_mod'. reflexivity.
      * rewrite Nat2N.inj_succ, N.pow_succ_r' in Hn.
        apply N.Div0.div_lt_upper_bound. lia.
Qed.

Lemma digits_acc_below (fuel : nat) : forall n acc,
  List.Forall (fun d => d < radix) acc ->
  List.Forall (fun d => d < radix) (digits_acc fuel radix n acc).
Proof.
  induction fuel as [|f IH]; intros n acc Hacc; cbn [digits_acc]; [assumption|].
  destruct (N.ltb_spec n radix) as [Hlt|Hge].
  - now constructor.
  - apply IH. constructor; [|assumption]. apply N.mod_lt. lia.
Qed.

Lemma digits_acc_length_le (fuel : nat) : forall (k : nat) n acc,
  (1 <= k)%nat -> n < radix ^ N.of_nat k ->
  (length (digits_acc fuel radix n acc) <= k + length acc)%nat.
Proof.
  induction fuel as [|f IH]; intros k n acc Hk Hn; cbn [digits_acc]; [lia|].
  destruct (N.ltb_spec n radix) as [Hlt|Hge].
  - cbn [length]. lia.
  - destruct k as [|[|k]]; [lia| |].
    + cbn in Hn. rewrite N.pow_1_r in Hn. lia.
    + specialize (IH (S k) (n / radix) (n mod radix :: acc)).
      cbn [length] in IH. etransitivity; [apply IH|]; [lia| |lia].
      rewrite (Nat2N.inj_succ (S k)), N.pow_succ_r' in Hn.
      apply N.Div0.div_lt_upper_bound. lia.
Qed.

Lemma digits_acc_length_ge (fuel : nat) : forall n acc,
  (length acc <= length (digits_acc fuel radix n acc))%nat.
Proof.
  induction fuel as [|f IH]; intros n acc; cbn [digits_acc]; [lia|].
  destruct (n <? radix); cbn [length]; [lia|].
  etransitivity; [|apply IH]. cbn [length]. lia.
Qed.

Lemma digits_acc_nonempty (fuel : nat) n acc :
  digits_acc (S fuel) radix n acc <> [].
Proof.
  cbn [digits_acc]. destruct (n <? radix); [discriminate|].
  pose proof (digits_acc_length_ge fuel (n / radix) (n mod radix :: acc)) as H.
  intros E. rewrite E in H. cbn in H. lia.
Qed.

End Digits.

Lemma below_16_cases (d : N) : d < 16 ->
  List.In d [0;1;2;3;4;5;6;7;8;9;10;11;12;13;14;15].
Proof. intros H. cbn [List.In]. lia. Qed.

Lemma digit_val_char (upper : bool) (d : N) :
  d < 16 -> digit_val (digit_char upper d) = d.
Proof.
  intros H. apply below_16_cases in H. cbn [List.In] in H.
  destruct upper; intuition (subst; reflexivity).
Qed.

Lemma digit_char_hex (upper : bool) (d : N) :
  d < 16 -> is_hex_digit (digit_char upper d) = true.
Proof.
  intros H. apply below_16_cases in H. cbn [List.In] in H.
  destruct upper; intuition (subst; reflexivity).
Qed.

Lemma digit_char_decimal (upper : bool) (d : N) :
  d < 10 -> is_digit (digit_char upper d) = true.
Proof.
  intros H. unfold digit_char. destruct (N.ltb_spec d 10); [|lia].
  unfold is_digit. apply andb_true_intro. split; apply N.leb_le; lia.
Qed.

Lemma parseInt_digit_chars (upper : bool) (radix : N) (ds : list N) :
  List.Forall (fun d => d < 16) ds ->
  parseInt radix (List.map (digit_char upper) ds)
  = fold_left (fun acc d => acc * radix + d) ds 0.
Proof.
  unfold parseInt. generalize 0.
  induction ds as [|d ds IH]; intros a Hds; [reflexivity|].
  inversion_clear Hds. cbn [List.map fold_left].
  rewrite digit_val_char by assumption. now apply IH.
Qed.

Lemma parseInt_toString (upper : bool) (radix n : N) :
  2 <= radix <= 16 -> parseInt radix (toString_radix upper radix n) = n.
Proof.
  intros Hr. unfold toString_radix. rewrite parseInt_digit_chars.
  - rewrite digits_acc_value; [reflexivity|lia|apply fuel_enough; lia].
  - eapply List.Forall_impl; [|apply digits_acc_below; [lia|constructor]].
    cbn. lia.
Qed.

Lemma toString_hex_digits (upper : bool) (n : N) :
  List.Forall (fun c => is_hex_digit c = true) (toString_radix upper 16 n).
Proof.
  unfold toString_radix. apply List.Forall_map.
  eapply List.Forall_impl; [|apply (digits_acc_below 16); [lia|constructor]].
  intros d. apply digit_char_hex.
Qed.

Lemma toString_decimal_digits (upper : bool) (n : N) :
  List.Forall (fun c => is_digit c = true) (toString_radix upper 10 n).
Proof.
  unfold toString_radix. apply List.Forall_map.
  eapply List.Forall_impl; [|apply (digits_acc_below 10); [lia|constructor]].
  intros d. apply digit_char_decimal.
Qed.

Lemma toString_nonempty (upper : bool) (radix n : N) :
  2 <= radix -> toString_radix upper radix n <> [].
Proof.
  intros Hr E. unfold toString_radix in E. apply List.map_eq_nil in E.
  now apply digits_acc_nonempty in E.
Qed.

Lemma toString_length_le (upper : bool) (radix n : N) (k : nat) :
  2 <= radix -> (1 <= k)%nat -> n < radix ^ N.of_nat k ->
  (length (toString_radix upper radix n) <= k)%nat.
Proof.
  intros Hr Hk Hn. unfold toString_radix. rewrite length_map.
  etransitivity; [apply (digits_acc_length_le radix Hr _ k)|]; cbn; lia.
Qed.

(** ** The path codec ([src/pathparser.js]) *)

Module PathParser.

(** The set [this.enabledMethods], by membership of each of the five
    [EscapeMethod] constants. *)
Record enabledMethods := {
  BACKSLASH_ESCAPES : bool;
  HTML_NAMED_ENTITIES : bool;
  HTML_NUMERIC_ENTITIES : bool;
  CUSTOM_UNICODE_ENTITIES : bool;
  URL_ENCODING : bool
}.

(** The constructor's default: [Object.values(EscapeMethod)]. *)
Definition all_methods : enabledMethods :=
  {| BACKSLASH_ESCAPES := true; HTML_NAMED_ENTITIES := true;
     HTML_NUMERIC_ENTITIES := true; CUSTOM_UNICODE_ENTITIES := true;
     URL_ENCODING := true |}.

(** The own properties of [this.htmlEntities]. *)
Definition htmlEntities : list (jsstring * jsstring) :=
  [ (str "amp", str "&"); (str "lt", str "<"); (str "gt", str ">");
    (str "quot", [34]); (str "apos", str "'"); (str "nbsp", [160]);
    (str "copy", [169]); (str "reg", [174]); (str "trade", [8482]);
    (str "hellip", [8230]); (str "mdash", [8212]); (str "ndash", [8211]);
    (str "lsquo", str "'"); (str "rsquo", str "'"); (str "ldquo", [34]);
    (str "rdquo", [34]); (str "bull", [8226]); (str "deg", [176]);
    (str "plusmn", [177]); (str "times", [215]); (str "divide", [247]) ].

(** The members of [Object.prototype] whose names the entity pattern can
    match, each with the name its function prints. [this.htmlEntities] is an
    object literal, so [this.htmlEntities[name]] finds them too. *)
Definition inherited_members : list (jsstring * jsstring) :=
  [ (str "constructor", str "Object");
    (str "hasOwnProperty", str "hasOwnProperty");
    (str "isPrototypeOf", str "isPrototypeOf");
    (str "propertyIsEnumerable", str "propertyIsEnumerable");
    (str "toLocaleString", str "toLocaleString");
    (str "toString", str "toString");
    (str "valueOf", str "valueOf") ].

Fixpoint assoc (name : jsstring) (table : list (jsstring * jsstring))
  : option jsstring :=
  match table with
  | [] => None
  | (k, v) :: rest => if str_eqb name k then Some v else assoc name rest
  end.

(** [this.htmlEntities[name]] when it is truthy, as the text that [+=]
    appends: the entity's character, or the source text of an inherited
    native function as V8 prints it. *)
Definition htmlEntities_get (name : jsstring) : option jsstring :=
  match assoc name htmlEntities with
  | Some v => Some v
  | None =>
      match assoc name inherited_members with
      | Some f => Some (str "function " ++ f ++ str "() { [native code] }")
      | None => None
      end
  end.

(** The longest prefix of characters of a class, and what follows it. *)
Fixpoint span (p : N -> bool) (s : jsstring) : jsstring * jsstring :=
  match s with
  | c :: rest =>
      if p c then let '(run, after) := span p rest in (c :: run, after)
      else ([], s)
  | [] => ([], [])
  end.

(** The backslash branch of [parsePath], on the text after the backslash:
    the text appended to the current component and the advance of [i]. *)
Definition backslash_escape (rest : jsstring) : jsstring * nat :=
  match rest with
  | [] => (str "\", 1%nat)
  | nextChar :: after =>
      if nextChar =? ch "n" then ([10], 2%nat)
      else if nextChar =? ch "t" then ([9], 2%nat)
      else if nextChar =? ch "r" then ([13], 2%nat)
      else if nextChar =? ch "\" then (str "\", 2%nat)
      else if nextChar =? ch "/" then (str "/", 2%nat)
      else if nextChar =? ch "x" then
        match after with
        | h1 :: h2 :: _ =>
            if is_hex_digit h1 && is_hex_digit h2
            then ([parseInt 16 [h1; h2]], 4%nat)
            else ([nextChar], 2%nat)
        | _ => ([nextChar], 2%nat)
        end
      else ([nextChar], 2%nat)
  end.

(** The match of the named-entity pattern (an ampersand, a letter, any run
    of letters and digits, a semicolon) on the text after the ampersand: the
    captured name. *)
Definition match_named (rest : jsstring) : option jsstring :=
  match rest with
  | c :: after =>
      if is_alpha c then
        let '(run, tail) := span is_alnum after in
        match tail with
        | t :: _ => if t =? ch ";" then Some (c :: run) else None
        | [] => None
        end
      else None
  | [] => None
  end.

(** A pattern [prefix digits+ ;] on the text after the ampersand: the
    captured digits. *)
Definition match_digits (p : N -> bool) (after_prefix : jsstring)
  : option jsstring :=
  let '(run, tail) := span p after_prefix in
  match run, tail with
  | _ :: _, t :: _ => if t =? ch ";" then Some run else None
  | _, _ => None
  end.

(** The pattern of a hexadecimal entity: [&#x], hex digits, [;]. *)
Definition match_hex_entity (rest : jsstring) : option jsstring :=
  match rest with
  | c1 :: c2 :: after =>
      if (c1 =? ch "#") && (c2 =? ch "x") then match_digits is_hex_digit after
      else None
  | _ => None
  end.

(** The pattern of a decimal entity: [&#], decimal digits, [;]. *)
Definition match_decimal_entity (rest : jsstring) : option jsstring :=
  match rest with
  | c1 :: after =>
      if c1 =? ch "#" then match_digits is_digit after else None
  | _ => None
  end.

(** The pattern of a custom entity: [&u], two to eight hex digits, [;]. *)
Definition match_custom_entity (rest : jsstring) : option jsstring :=
  match rest with
  | c1 :: after =>
      if c1 =? ch "u" then
        match match_digits is_hex_digit after with
        | Some run =>
            if (2 <=? length run)%nat && (length run <=? 8)%nat
            then Some run else None
        | None => None
        end
      else None
  | _ => None
  end.

(** The named-entity attempt: the appended text and the advance. *)
Definition named_entity (rest : jsstring) : option (jsstring * nat) :=
  match match_named rest with
  | Some name =>
      match htmlEntities_get name with
      | Some text => Some (text, (length name + 2)%nat)
      | None => None
      end
  | None => None
  end.

(** The numeric-entity attempt: the hexadecimal form, then the decimal
    one; a code point that [String.fromCodePoint] refuses matches
    nothing. *)
Definition numeric_entity (rest : jsstring) : option (jsstring * nat) :=
  let hex :=
    match match_hex_entity rest with
    | Some digits =>
        match fromCodePoint (parseInt 16 digits) with
        | Some text => Some (text, (length digits + 4)%nat)
        | None => None
        end
    | None => None
    end in
  match hex with
  | Some r => Some r
  | None =>
      match match_decimal_entity rest with
      | Some digits =>
          match fromCodePoint (parseInt 10 digits) with
          | Some text => Some (text, (length digits + 3)%nat)
          | None => None
          end
      | None => None
      end
  end.

(** The custom [&uHHHH;] attempt. *)
Definition custom_entity (rest : jsstring) : option (jsstring * nat) :=
  match match_custom_entity rest with
  | Some digits =>
      match fromCodePoint (parseInt 16 digits) with
      | Some text => Some (text, (length digits + 3)%nat)
      | None => None
      end
  | None => None
  end.

(** The ampersand branch of [parsePath], on the text after the ampersand. *)
Definition entity_escape (m : enabledMethods) (rest : jsstring)
  : jsstring * nat :=
  let matched :=
    if HTML_NAMED_ENTITIES m then named_entity rest else None in
  let matched :=
    match matched with
    | None => if HTML_NUMERIC_ENTITIES m then numeric_entity rest else None
    | some => some
    end in
  let matched :=
    match matched with
    | None => if CUSTOM_UNICODE_ENTITIES m then custom_entity rest else None
    | some => some
    end in
  match matched with
  | Some r => r
  | None => (str "&", 1%nat)
  end.

(** The percent branch of [parsePath], on the text after the percent
    sign. *)
Definition percent_escape (rest : jsstring) : jsstring * nat :=
  match rest with
  | h1 :: h2 :: _ =>
      if is_hex_digit h1 && is_hex_digit h2
      then ([parseInt 16 [h1; h2]], 3%nat)
      else (str "%", 1%nat)
  | _ => (str "%", 1%nat)
  end.

(** The [while (i < pathString.length)] loop of [parsePath]. The index [i]
    is held as the text from [i] on; an advance of [i] by [k] consumes the
    character at [i] and skips the [k - 1] that follow it. *)
Fixpoint parse_loop (m : enabledMethods) (components : list jsstring)
    (currentComponent : jsstring) (skip : nat) (pathString : jsstring)
  : list jsstring :=
  match pathString with
  | [] => components ++ [currentComponent]
  | char :: rest =>
      match skip with
      | S k => parse_loop m components currentComponent k rest
      | O =>
          if (char =? ch "\") && BACKSLASH_ESCAPES m then
            let '(text, adv) := backslash_escape rest in
            parse_loop m components (currentComponent ++ text) (adv - 1) rest
          else if (char =? ch "&") &&
                  (HTML_NAMED_ENTITIES m || HTML_NUMERIC_ENTITIES m ||
                   CUSTOM_UNICODE_ENTITIES m) then
            let '(text, adv) := entity_escape m rest in
            parse_loop m components (currentComponent ++ text) (adv - 1) rest
          else if (char =? ch "%") && URL_ENCODING m then
            let '(text, adv) := percent_escape rest in
            parse_loop m components (currentComponent ++ text) (adv - 1) rest
          else if char =? ch "/" then
            parse_loop m (components ++ [currentComponent]) [] 0 rest
          else
            parse_loop m components (currentComponent ++ [char]) 0 rest
      end
  end.

Definition is_empty (s : jsstring) : bool :=
  match s with [] => true | _ => false end.

(** [parsePath(pathString)]. *)
Definition parsePath (m : enabledMethods) (pathString : jsstring)
  : list jsstring :=
  let components := parse_loop m [] [] 0 pathString in
  List.filter
    (fun component =>
       if is_empty component then (length components =? 1)%nat else true)
    components.

(** The first enabled scheme of a priority list, or the literal. *)
Fixpoint first_enabled (choices : list (bool * jsstring)) (literal : jsstring)
  : jsstring :=
  match choices with
  | [] => literal
  | (enabled, text) :: rest =>
      if enabled then text else first_enabled rest literal
  end.

Definition hex2 (charCode : N) : jsstring :=
  padStart 2 (ch "0") (toString_radix true 16 charCode).

(** One iteration of the loop of [encodePathComponent]: the text appended
    for [char]. *)
Definition encode_char (m : enabledMethods) (char : N) : jsstring :=
  let bs := BACKSLASH_ESCAPES m in
  let named := HTML_NAMED_ENTITIES m in
  let num := HTML_NUMERIC_ENTITIES m in
  let cust := CUSTOM_UNICODE_ENTITIES m in
  let url := URL_ENCODING m in
  let charCode := char in
  if char =? ch "/" then
    first_enabled [(bs, str "\/"); (url, str "%2F"); (num, str "&#47;")] [char]
  else if char =? ch "\" then
    first_enabled [(bs, str "\\"); (url, str "%5C"); (num, str "&#92;")] [char]
  else if char =? 10 then
    first_enabled [(bs, str "\n"); (url, str "%0A"); (num, str "&#10;")] [char]
  else if char =? 9 then
    first_enabled [(bs, str "\t"); (url, str "%09"); (num, str "&#9;")] [char]
  else if char =? 13 then
    first_enabled [(bs, str "\r"); (url, str "%0D"); (num, str "&#13;")] [char]
  else if char =? ch "%" then
    first_enabled [(url, str "%25"); (num, str "&#37;"); (bs, str "\%")] [char]
  else if char =? ch "&" then
    first_enabled
      [(named, str "&amp;"); (url, str "%26"); (num, str "&#38;");
       (bs, str "\&")] [char]
  else if (charCode <? 32) || (126 <? charCode) then
    if charCode <=? 255 then
      first_enabled
        [(url, str "%" ++ hex2 charCode);
         (bs, str "\x" ++ hex2 charCode);
         (num, str "&#" ++ toString_radix false 10 charCode ++ str ";");
         (cust, str "&u" ++ hex2 charCode ++ str ";")] [char]
    else
      first_enabled
        [(num, str "&#x" ++ toString_radix true 16 charCode ++ str ";");
         (cust,
          str "&u" ++ padStart 4 (ch "0") (toString_radix true 16 charCode)
            ++ str ";");
         (url,
          List.concat
            (List.map (fun byte => str "%" ++ hex2 byte)
               (stringToUtf8Bytes char)))] [char]
  else [char].

(** [encodePathComponent(component)]. *)
Definition encodePathComponent (m : enabledMethods) (component : jsstring)
  : jsstring :=
  List.concat (List.map (encode_char m) component).

(** [createPath(components)]. *)
Definition createPath (m : enabledMethods) (components : list jsstring)
  : jsstring :=
  let filteredComponents :=
    List.filter (fun component => negb (is_empty component)) components in
  match filteredComponents with
  | [] => []
  | _ => join (str "/") (List.map (encodePathComponent m) filteredComponents)
  end.


(** Whether [char] needs no escape scheme that is disabled. A separator
    must be escaped, by a backslash, a percent or a numeric entity. An
    ampersand must be escaped once custom entities are read. A character
    above 255 needs a numeric or a custom entity once percent escapes are
    written: the percent form writes its UTF-8 bytes, and [parsePath] reads
    one character per byte. Every other character is either escaped by an
    enabled scheme or left as it is and read as it is. *)
Definition scheme_available (m : enabledMethods) (char : N) : bool :=
  if char =? ch "/" then
    BACKSLASH_ESCAPES m || URL_ENCODING m || HTML_NUMERIC_ENTITIES m
  else if char =? ch "&" then
    HTML_NAMED_ENTITIES m || URL_ENCODING m || HTML_NUMERIC_ENTITIES m ||
    BACKSLASH_ESCAPES m || negb (CUSTOM_UNICODE_ENTITIES m)
  else if 255 <? char then
    HTML_NUMERIC_ENTITIES m || CUSTOM_UNICODE_ENTITIES m ||
    negb (URL_ENCODING m)
  else true.

(** A segment of code units, each with its scheme available. *)
Definition reversible_string (m : enabledMethods) (s : jsstring) : Prop :=
  List.Forall (fun c => code_unit c /\ scheme_available m c = true) s.

(** The characters [encodePathComponent] tests for by name: the
    separator, the backslash, newline, tab, carriage return, percent and
    ampersand. *)
Definition special_chars : list N := [47; 92; 10; 9; 13; 37; 38].

(** A configuration with two of the five schemes, and a sequence that
    exercises every branch of [encode_char] under it. *)
Definition backslash_and_custom : enabledMethods :=
  {| BACKSLASH_ESCAPES := true; HTML_NAMED_ENTITIES := false;
     HTML_NUMERIC_ENTITIES := false; CUSTOM_UNICODE_ENTITIES := true;
     URL_ENCODING := false |}.

Definition sample_segments : list jsstring :=
  [str "a/b"; str "c&d%e\"; [233; 256; 10; 55357]].

(** The components [createPath] keeps: the non-empty ones. *)
Definition kept (components : list jsstring) : list jsstring :=
  List.filter (fun component => negb (is_empty component)) components.

(** A printable ASCII character. *)
Definition printable (c : N) : Prop := 32 <= c <= 126.

(** A configuration under which [encodePathComponent] has an escape for
    every character outside printable ASCII: percent escapes, or numeric
    entities, or backslash escapes together with custom entities. *)
Definition ascii_safe (m : enabledMethods) : bool :=
  URL_ENCODING m || HTML_NUMERIC_ENTITIES m ||
  (BACKSLASH_ESCAPES m && CUSTOM_UNICODE_ENTITIES m).

(** Segments with an empty one among them. *)
Definition gapped_segments : list jsstring :=
  [[]; str "a/b"; []; [233; 10; 8364]; []].

(** *** Reading back what was written *)

Lemma span_run (p : N -> bool) (run : jsstring) (t : N) (rest : jsstring) :
  List.Forall (fun c => p c = true) run -> p t = false ->
  span p (run ++ t :: rest) = (run, t :: rest).
Proof.
  intros Hrun Ht. induction Hrun as [|c run Hc _ IH]; cbn [span app].
  - now rewrite Ht.
  - now rewrite Hc, IH.
Qed.

Lemma parseInt_leading_zeros (radix : N) (k : nat) (s : jsstring) :
  parseInt radix (repeat (ch "0") k ++ s) = parseInt radix s.
Proof.
  unfold parseInt. induction k as [|k IH]; [reflexivity|].
  cbn [repeat app fold_left]. exact IH.
Qed.

Lemma padStart_hex_digits (k : nat) (s : jsstring) :
  List.Forall (fun c => is_hex_digit c = true) s ->
  List.Forall (fun c => is_hex_digit c = true) (padStart k (ch "0") s).
Proof.
  intros Hs. unfold padStart. apply List.Forall_app. split; [|assumption].
  induction (k - length s)%nat; cbn [repeat]; constructor; auto.
Qed.

Lemma padStart_length (k : nat) (c : N) (s : jsstring) :
  (length s <= k)%nat -> length (padStart k c s) = k.
Proof.
  intros H. unfold padStart. rewrite length_app, repeat_length. lia.
Qed.

(** The two hex digits of a byte. *)
Lemma hex2_byte (c : N) : c < 256 ->
  exists h1 h2, hex2 c = [h1; h2] /\ is_hex_digit h1 = true /\
    is_hex_digit h2 = true /\ parseInt 16 [h1; h2] = c.
Proof.
  intros Hc.
  assert (Hlen : length (hex2 c) = 2%nat).
  { apply padStart_length. apply toString_length_le; [lia|lia|exact Hc]. }
  assert (Hdig : List.Forall (fun c => is_hex_digit c = true) (hex2 c))
    by apply padStart_hex_digits, toString_hex_digits.
  assert (Hval : parseInt 16 (hex2 c) = c).
  { unfold hex2, padStart. rewrite parseInt_leading_zeros.
    apply parseInt_toString. lia. }
  destruct (hex2 c) as [|h1 [|h2 [|h3 t]]]; try discriminate.
  inversion_clear Hdig as [|? ? H1 Hdig']. inversion_clear Hdig' as [|? ? H2 _].
  now exists h1, h2.
Qed.

(** The four hex digits of a code unit, zero-padded. *)
Lemma hex4_code_unit (c : N) : code_unit c ->
  let s := padStart 4 (ch "0") (toString_radix true 16 c) in
  length s = 4%nat /\ List.Forall (fun c => is_hex_digit c = true) s /\
  parseInt 16 s = c.
Proof.
  intros Hc s. subst s. split; [|split].
  - apply padStart_length. apply toString_length_le; [lia|lia|exact Hc].
  - apply padStart_hex_digits, toString_hex_digits.
  - unfold padStart. rewrite parseInt_leading_zeros.
    apply parseInt_toString. lia.
Qed.

Lemma parse_loop_skip (m : enabledMethods) (skipped : jsstring) :
  forall components currentComponent rest,
  parse_loop m components currentComponent (length skipped) (skipped ++ rest)
  = parse_loop m components currentComponent 0 rest.
Proof.
  induction skipped as [|c skipped IH]; intros; [reflexivity|].
  cbn [length app parse_loop]. apply IH.
Qed.

(** A character that starts no escape and is no separator is appended. *)
Lemma parse_loop_literal (m : enabledMethods) (c : N) components cur rest :
  (c =? ch "\") && BACKSLASH_ESCAPES m = false ->
  (c =? ch "&") && (HTML_NAMED_ENTITIES m || HTML_NUMERIC_ENTITIES m ||
                    CUSTOM_UNICODE_ENTITIES m) = false ->
  (c =? ch "%") && URL_ENCODING m = false ->
  (c =? ch "/") = false ->
  parse_loop m components cur 0 (c :: rest)
  = parse_loop m components (cur ++ [c]) 0 rest.
Proof.
  intros H1 H2 H3 H4. cbn [parse_loop]. now rewrite H1, H2, H3, H4.
Qed.



Lemma parse_encoded_special (m : enabledMethods) (c : N) :
  List.In c special_chars -> scheme_available m c = true ->
  forall components cur rest,
  parse_loop m components cur 0 (encode_char m c ++ rest)
  = parse_loop m components (cur ++ [c]) 0 rest.
Proof.
  intros Hc Havail components cur rest. cbn [List.In special_chars] in Hc.
  destruct m as [[] [] [] [] []];
    repeat (destruct Hc as [<-|Hc]; [first [discriminate Havail|reflexivity]|]);
    contradiction.
Qed.

Lemma not_special (c : N) : ~ List.In c special_chars ->
  (c =? 47) = false /\ (c =? 92) = false /\ (c =? 10) = false /\
  (c =? 9) = false /\ (c =? 13) = false /\ (c =? 37) = false /\
  (c =? 38) = false.
Proof.
  intros H. cbn [List.In special_chars] in H.
  repeat split; apply N.eqb_neq; intros ->; apply H; tauto.
Qed.

Lemma encode_char_other (m : enabledMethods) (c : N) :
  ~ List.In c special_chars ->
  encode_char m c =
  if (c <? 32) || (126 <? c) then
    if c <=? 255 then
      first_enabled
        [(URL_ENCODING m, str "%" ++ hex2 c);
         (BACKSLASH_ESCAPES m, str "\x" ++ hex2 c);
         (HTML_NUMERIC_ENTITIES m,
          str "&#" ++ toString_radix false 10 c ++ str ";");
         (CUSTOM_UNICODE_ENTITIES m, str "&u" ++ hex2 c ++ str ";")] [c]
    else
      first_enabled
        [(HTML_NUMERIC_ENTITIES m,
          str "&#x" ++ toString_radix true 16 c ++ str ";");
         (CUSTOM_UNICODE_ENTITIES m,
          str "&u" ++ padStart 4 (ch "0") (toString_radix true 16 c)
            ++ str ";");
         (URL_ENCODING m,
          List.concat
            (List.map (fun byte => str "%" ++ hex2 byte)
               (stringToUtf8Bytes c)))] [c]
  else [c].
Proof.
  intros H. apply not_special in H.
  destruct H as (H1 & H2 & H3 & H4 & H5 & H6 & H7).
  unfold encode_char.
  change (ch "/") with 47. change (ch "\") with 92.
  change (ch "%") with 37. change (ch "&") with 38.
  now rewrite H1, H2, H3, H4, H5, H6, H7.
Qed.

Lemma parse_other_literal (m : enabledMethods) (c : N) components cur rest :
  ~ List.In c special_chars ->
  parse_loop m components cur 0 (c :: rest)
  = parse_loop m components (cur ++ [c]) 0 rest.
Proof.
  intros H. apply not_special in H.
  destruct H as (H1 & H2 & H3 & H4 & H5 & H6 & H7).
  apply parse_loop_literal.
  - change (ch "\") with 92. now rewrite H2.
  - change (ch "&") with 38. now rewrite H7.
  - change (ch "%") with 37. now rewrite H6.
  - exact H1.
Qed.

(** No entity name starts with [u]. *)
Lemma htmlEntities_get_u (name : jsstring) :
  htmlEntities_get (ch "u" :: name) = None.
Proof. reflexivity. Qed.

Lemma hex_digit_alnum (c : N) : is_hex_digit c = true -> is_alnum c = true.
Proof.
  unfold is_hex_digit, is_alnum, is_alpha, is_upper_hex, is_lower_hex, is_digit.
  intros H.
  repeat match goal with
  | |- context [?a <=? ?b] => destruct (N.leb_spec a b)
  | H : context [?a <=? ?b] |- _ => destruct (N.leb_spec a b)
  end; cbn in *; try reflexivity; try discriminate; lia.
Qed.

Lemma hex_digit_not_semicolon (c : N) :
  is_hex_digit c = true -> (c =? ch ";") = false.
Proof.
  intros H. apply N.eqb_neq. intros ->. discriminate H.
Qed.

Section Steps.

Variable m : enabledMethods.
Variables (components : list jsstring) (cur rest : jsstring).

Lemma parse_percent (h1 h2 : N) :
  URL_ENCODING m = true ->
  is_hex_digit h1 = true -> is_hex_digit h2 = true ->
  parse_loop m components cur 0 (ch "%" :: h1 :: h2 :: rest)
  = parse_loop m components (cur ++ [parseInt 16 [h1; h2]]) 0 rest.
Proof.
  intros Hu H1 H2. cbn [parse_loop].
  change (ch "%" =? ch "\") with false. change (ch "%" =? ch "&") with false.
  change (ch "%" =? ch "%") with true. rewrite Hu. cbn [andb].
  unfold percent_escape. rewrite H1, H2. reflexivity.
Qed.

Lemma parse_backslash_x (h1 h2 : N) :
  BACKSLASH_ESCAPES m = true ->
  is_hex_digit h1 = true -> is_hex_digit h2 = true ->
  parse_loop m components cur 0 (ch "\" :: ch "x" :: h1 :: h2 :: rest)
  = parse_loop m components (cur ++ [parseInt 16 [h1; h2]]) 0 rest.
Proof.
  intros Hb H1 H2. cbn [parse_loop].
  change (ch "\" =? ch "\") with true. rewrite Hb. cbn [andb].
  unfold backslash_escape.
  change (ch "x" =? ch "n") with false. change (ch "x" =? ch "t") with false.
  change (ch "x" =? ch "r") with false. change (ch "x" =? ch "\") with false.
  change (ch "x" =? ch "/") with false. change (ch "x" =? ch "x") with true.
  cbv iota. rewrite H1, H2. reflexivity.
Qed.

(** An ampersand is read as an entity when backslash escapes do not take
    it first, which they never do. *)
Lemma parse_ampersand (after : jsstring) :
  HTML_NAMED_ENTITIES m || HTML_NUMERIC_ENTITIES m ||
  CUSTOM_UNICODE_ENTITIES m = true ->
  parse_loop m components cur 0 (ch "&" :: after)
  = let '(text, adv) := entity_escape m after in
    parse_loop m components (cur ++ text) (adv - 1) after.
Proof.
  intros He. cbn [parse_loop].
  change (ch "&" =? ch "\") with false. change (ch "&" =? ch "&") with true.
  rewrite He. reflexivity.
Qed.

Lemma match_digits_run (p : N -> bool) (run : jsstring) (tail : jsstring) :
  List.Forall (fun c => p c = true) run -> run <> [] -> p (ch ";") = false ->
  match_digits p (run ++ ch ";" :: tail) = Some run.
Proof.
  intros Hrun Hne Hsemi. unfold match_digits.
  rewrite span_run by assumption.
  destruct run; [contradiction|]. reflexivity.
Qed.

End Steps.

Lemma fromCodePoint_code_unit (c : N) :
  code_unit c -> fromCodePoint c = Some [c].
Proof.
  unfold code_unit, fromCodePoint. intros H.
  now destruct (N.ltb_spec c 65536); [|lia].
Qed.

Lemma digit_not_x (c : N) : is_digit c = true -> (c =? ch "x") = false.
Proof. intros H. apply N.eqb_neq. intros ->. discriminate H. Qed.

Lemma digit_not_semicolon (c : N) : is_digit c = true -> (c =? ch ";") = false.
Proof. intros H. apply N.eqb_neq. intros ->. discriminate H. Qed.

Section Entities.

Variable m : enabledMethods.
Variables (digits rest : jsstring) (c : N).
Hypothesis c_unit : code_unit c.
Hypothesis digits_nonempty : digits <> [].

Lemma entity_decimal :
  HTML_NUMERIC_ENTITIES m = true ->
  List.Forall (fun d => is_digit d = true) digits ->
  parseInt 10 digits = c ->
  entity_escape m (ch "#" :: digits ++ ch ";" :: rest)
  = ([c], (length digits + 3)%nat).
Proof.
  intros Hn Hd Hv. unfold entity_escape.
  replace (named_entity _) with (@None (jsstring * nat)) by reflexivity.
  rewrite Hn. replace (if HTML_NAMED_ENTITIES m then None else None)
    with (@None (jsstring * nat)) by now destruct (HTML_NAMED_ENTITIES m).
  unfold numeric_entity.
  assert (Hhex : match_hex_entity (ch "#" :: digits ++ ch ";" :: rest) = None).
  { destruct digits as [|d ds]; [contradiction|]. inversion_clear Hd.
    unfold match_hex_entity. cbn [app].
    now rewrite digit_not_x, andb_false_r by assumption. }
  rewrite Hhex. unfold match_decimal_entity.
  change (ch "#" =? ch "#") with true. cbv iota.
  rewrite match_digits_run by (assumption || reflexivity).
  now rewrite Hv, fromCodePoint_code_unit.
Qed.

Lemma entity_hex :
  HTML_NUMERIC_ENTITIES m = true ->
  List.Forall (fun d => is_hex_digit d = true) digits ->
  parseInt 16 digits = c ->
  entity_escape m (ch "#" :: ch "x" :: digits ++ ch ";" :: rest)
  = ([c], (length digits + 4)%nat).
Proof.
  intros Hn Hd Hv. unfold entity_escape.
  replace (named_entity _) with (@None (jsstring * nat)) by reflexivity.
  rewrite Hn. replace (if HTML_NAMED_ENTITIES m then None else None)
    with (@None (jsstring * nat)) by now destruct (HTML_NAMED_ENTITIES m).
  unfold numeric_entity, match_hex_entity.
  change ((ch "#" =? ch "#") && (ch "x" =? ch "x")) with true. cbv iota.
  rewrite match_digits_run by (assumption || reflexivity).
  now rewrite Hv, fromCodePoint_code_unit.
Qed.

Lemma entity_custom :
  HTML_NUMERIC_ENTITIES m = false -> CUSTOM_UNICODE_ENTITIES m = true ->
  List.Forall (fun d => is_hex_digit d = true) digits ->
  (2 <= length digits <= 8)%nat ->
  parseInt 16 digits = c ->
  entity_escape m (ch "u" :: digits ++ ch ";" :: rest)
  = ([c], (length digits + 3)%nat).
Proof.
  intros Hn Hc Hd Hlen Hv. unfold entity_escape.
  assert (Hnamed : named_entity (ch "u" :: digits ++ ch ";" :: rest) = None).
  { unfold named_entity, match_named.
    change (is_alpha (ch "u")) with true. cbv iota.
    rewrite span_run; [|eapply List.Forall_impl; [|exact Hd]|reflexivity].
    - change (ch ";" =? ch ";") with true. cbv iota.
      now rewrite htmlEntities_get_u.
    - apply hex_digit_alnum. }
  rewrite Hnamed, Hn, Hc.
  replace (if HTML_NAMED_ENTITIES m then None else None)
    with (@None (jsstring * nat)) by now destruct (HTML_NAMED_ENTITIES m).
  unfold custom_entity, match_custom_entity.
  change (ch "u" =? ch "u") with true. cbv iota.
  rewrite match_digits_run by (assumption || reflexivity).
  destruct (Nat.leb_spec 2 (length digits)); [|lia].
  destruct (Nat.leb_spec (length digits) 8); [|lia].
  cbn [andb]. now rewrite Hv, fromCodePoint_code_unit.
Qed.

End Entities.

Lemma parse_entity (m : enabledMethods) components cur
    (skipped rest text : jsstring) :
  HTML_NAMED_ENTITIES m || HTML_NUMERIC_ENTITIES m ||
  CUSTOM_UNICODE_ENTITIES m = true ->
  entity_escape m (skipped ++ rest) = (text, S (length skipped)) ->
  parse_loop m components cur 0 (ch "&" :: skipped ++ rest)
  = parse_loop m components (cur ++ text) 0 rest.
Proof.
  intros He Hesc. rewrite parse_ampersand by assumption. rewrite Hesc.
  cbn [Nat.sub]. rewrite Nat.sub_0_r. apply parse_loop_skip.
Qed.

Lemma parse_encoded_other (m : enabledMethods) (c : N) :
  code_unit c -> ~ List.In c special_chars -> scheme_available m c = true ->
  forall components cur rest,
  parse_loop m components cur 0 (encode_char m c ++ rest)
  = parse_loop m components (cur ++ [c]) 0 rest.
Proof.
  intros Hunit Hc Havail components cur rest.
  rewrite encode_char_other by assumption.
  assert (Hlit : parse_loop m components cur 0 ([c] ++ rest)
                 = parse_loop m components (cur ++ [c]) 0 rest)
    by now apply parse_other_literal.
  destruct ((c <? 32) || (126 <? c)); [|exact Hlit].
  destruct (N.leb_spec c 255) as [Hbyte|Hwide].
  - (* one byte *)
    destruct (hex2_byte c) as (h1 & h2 & Hhex & H1 & H2 & Hval); [lia|].
    cbn [first_enabled].
    destruct (URL_ENCODING m) eqn:Hurl.
    { rewrite Hhex. cbn [str app List.map list_ascii_of_string].
      fold (ch "%"). rewrite parse_percent by assumption. now rewrite Hval. }
    destruct (BACKSLASH_ESCAPES m) eqn:Hbs.
    { rewrite Hhex. cbn [str app List.map list_ascii_of_string].
      fold (ch "\") (ch "x"). rewrite parse_backslash_x by assumption.
      now rewrite Hval. }
    destruct (HTML_NUMERIC_ENTITIES m) eqn:Hnum.
    { set (digits := toString_radix false 10 c).
      change (parse_loop m components cur 0
                (ch "&" :: (ch "#" :: digits ++ [ch ";"]) ++ rest)
              = parse_loop m components (cur ++ [c]) 0 rest).
      apply parse_entity; [now rewrite Hnum, orb_true_r|].
      cbn [app]. rewrite <- app_assoc. cbn [app].
      rewrite (entity_decimal m digits rest c); try assumption.
      - f_equal. cbn [length]. rewrite length_app. cbn [length]. lia.
      - now apply toString_nonempty.
      - apply toString_decimal_digits.
      - apply parseInt_toString. lia. }
    destruct (CUSTOM_UNICODE_ENTITIES m) eqn:Hcust; [|exact Hlit].
    rewrite Hhex.
    change (parse_loop m components cur 0
              (ch "&" :: (ch "u" :: [h1; h2] ++ [ch ";"]) ++ rest)
            = parse_loop m components (cur ++ [c]) 0 rest).
    apply parse_entity; [now rewrite Hcust, orb_true_r|].
    change ((ch "u" :: [h1; h2] ++ [ch ";"]) ++ rest)
      with (ch "u" :: [h1; h2] ++ ch ";" :: rest).
    rewrite (entity_custom m [h1; h2] rest c); try assumption;
      [reflexivity|discriminate|now repeat constructor|cbn; lia].
  - (* beyond one byte *)
    assert (Hr : HTML_NUMERIC_ENTITIES m || CUSTOM_UNICODE_ENTITIES m ||
                 negb (URL_ENCODING m) = true).
    { unfold scheme_available in Havail. apply not_special in Hc.
      destruct Hc as (H47 & _ & _ & _ & _ & _ & H38).
      change (ch "/") with 47 in Havail. change (ch "&") with 38 in Havail.
      rewrite H47, H38 in Havail.
      now destruct (N.ltb_spec 255 c); [|lia]. }
    cbn [first_enabled].
    destruct (HTML_NUMERIC_ENTITIES m) eqn:Hnum.
    { set (digits := toString_radix true 16 c).
      change (parse_loop m components cur 0
                (ch "&" :: (ch "#" :: ch "x" :: digits ++ [ch ";"]) ++ rest)
              = parse_loop m components (cur ++ [c]) 0 rest).
      apply parse_entity; [now rewrite Hnum, orb_true_r|].
      cbn [app]. rewrite <- app_assoc. cbn [app].
      rewrite (entity_hex m digits rest c); try assumption.
      - f_equal. cbn [length]. rewrite length_app. cbn [length]. lia.
      - now apply toString_nonempty.
      - apply toString_hex_digits.
      - apply parseInt_toString. lia. }
    destruct (CUSTOM_UNICODE_ENTITIES m) eqn:Hcust.
    { destruct (hex4_code_unit c Hunit) as (Hlen & Hdig & Hval).
      set (digits := padStart 4 (ch "0") (toString_radix true 16 c)) in *.
      change (parse_loop m components cur 0
                (ch "&" :: (ch "u" :: digits ++ [ch ";"]) ++ rest)
              = parse_loop m components (cur ++ [c]) 0 rest).
      apply parse_entity; [now rewrite Hcust, orb_true_r|].
      cbn [app]. rewrite <- app_assoc. cbn [app].
      rewrite (entity_custom m digits rest c); try assumption; try lia.
      - f_equal. cbn [length]. rewrite length_app. cbn [length]. lia.
      - intros E. now rewrite E in Hlen. }
    cbn [orb negb] in Hr. destruct (URL_ENCODING m); [discriminate|exact Hlit].
Qed.

(** The text written for a character is read back as that character,
    whatever follows it. *)
Lemma parse_encoded_char (m : enabledMethods) (c : N) :
  code_unit c -> scheme_available m c = true ->
  forall components cur rest,
  parse_loop m components cur 0 (encode_char m c ++ rest)
  = parse_loop m components (cur ++ [c]) 0 rest.
Proof.
  intros Hunit Havail.
  destruct (List.in_dec N.eq_dec c special_chars).
  - now apply parse_encoded_special.
  - now apply parse_encoded_other.
Qed.


Lemma parse_encoded_component (m : enabledMethods) (s : jsstring) :
  reversible_string m s ->
  forall components cur rest,
  parse_loop m components cur 0 (encodePathComponent m s ++ rest)
  = parse_loop m components (cur ++ s) 0 rest.
Proof.
  unfold encodePathComponent.
  induction 1 as [|c s [Hunit Havail] _ IH]; intros components cur rest.
  - now rewrite app_nil_r.
  - cbn [List.map List.concat]. rewrite <- app_assoc.
    rewrite parse_encoded_char by assumption.
    rewrite IH. now rewrite <- app_assoc.
Qed.

Lemma parse_joined_components (m : enabledMethods) (ts : list jsstring) :
  List.Forall (reversible_string m) ts ->
  forall t components cur, reversible_string m t ->
  parse_loop m components cur 0
    (join (str "/") (List.map (encodePathComponent m) (t :: ts)))
  = components ++ (cur ++ t) :: ts.
Proof.
  induction 1 as [|t' ts Ht' _ IH]; intros t components cur Ht.
  - cbn [List.map join].
    rewrite <- (app_nil_r (encodePathComponent m t)).
    now rewrite parse_encoded_component.
  - change (join (str "/") (List.map (encodePathComponent m) (t :: t' :: ts)))
      with (encodePathComponent m t ++ ch "/" ::
            join (str "/") (List.map (encodePathComponent m) (t' :: ts))).
    rewrite parse_encoded_component by assumption.
    cbn [parse_loop].
    change (ch "/" =? ch "\") with false. change (ch "/" =? ch "&") with false.
    change (ch "/" =? ch "%") with false. change (ch "/" =? ch "/") with true.
    cbn [andb]. rewrite IH by assumption. now rewrite <- app_assoc.
Qed.

Lemma filter_nonempty_id (ts : list jsstring) :
  List.Forall (fun t => t <> []) ts ->
  List.filter (fun t => negb (is_empty t)) ts = ts.
Proof.
  induction 1 as [|t ts Ht _ IH]; [reflexivity|].
  cbn [List.filter]. destruct t; [contradiction|]. cbn. now rewrite IH.
Qed.

Lemma filter_components_id (n : nat) (ts : list jsstring) :
  List.Forall (fun t => t <> []) ts ->
  List.filter (fun t => if is_empty t then (n =? 1)%nat else true) ts = ts.
Proof.
  induction 1 as [|t ts Ht _ IH]; [reflexivity|].
  cbn [List.filter]. destruct t; [contradiction|]. cbn. now rewrite IH.
Qed.

Lemma filter_nonempty_Forall (ts : list jsstring) :
  List.Forall (fun t => t <> []) (List.filter (fun t => negb (is_empty t)) ts).
Proof.
  induction ts as [|t ts IH]; [constructor|].
  cbn [List.filter]. destruct t; cbn; [assumption|].
  now constructor.
Qed.

(** What [parsePath] returns on the text of [createPath]: the components
    with the empty ones dropped, or the single empty component when nothing
    is left. *)
Lemma parsePath_createPath_filtered (m : enabledMethods) (S : list jsstring) :
  List.Forall (reversible_string m) S ->
  parsePath m (createPath m S) =
  match List.filter (fun t => negb (is_empty t)) S with
  | [] => [[]]
  | kept => kept
  end.
Proof.
  intros HS. unfold createPath.
  assert (Hk : List.Forall (reversible_string m)
                 (List.filter (fun t => negb (is_empty t)) S)).
  { apply List.Forall_forall. intros t Ht. apply List.filter_In in Ht.
    rewrite List.Forall_forall in HS. now apply HS. }
  pose proof (filter_nonempty_Forall S) as Hne.
  destruct (List.filter (fun t => negb (is_empty t)) S) as [|t ts];
    [reflexivity|].
  unfold parsePath. inversion_clear Hk.
  rewrite parse_joined_components by assumption.
  cbn [app]. now apply filter_components_id.
Qed.

Lemma all_methods_available (c : N) : scheme_available all_methods c = true.
Proof.
  unfold scheme_available.
  destruct (c =? ch "/"), (c =? ch "&"), (255 <? c); reflexivity.
Qed.

(** With only custom entities enabled an ampersand is written as it is,
    and read as the start of an entity. *)
Example custom_only_ampersand :
  let m := {| BACKSLASH_ESCAPES := false; HTML_NAMED_ENTITIES := false;
              HTML_NUMERIC_ENTITIES := false; CUSTOM_UNICODE_ENTITIES := true;
              URL_ENCODING := false |} in
  parsePath m (createPath m [str "&uAB;"]) = [[171]].
Proof. reflexivity. Qed.

(** With only percent escapes enabled a character above 255 is written as
    its UTF-8 bytes and read as one character per byte. *)
Example url_only_wide_character :
  let m := {| BACKSLASH_ESCAPES := false; HTML_NAMED_ENTITIES := false;
              HTML_NUMERIC_ENTITIES := false; CUSTOM_UNICODE_ENTITIES := false;
              URL_ENCODING := true |} in
  createPath m [[256]] = str "%C4%80" /\
  parsePath m (createPath m [[256]]) = [[196; 128]].
Proof. split; reflexivity. Qed.

(** With named entities alone a separator inside a segment is written as
    it is, and splits the segment. *)
Example named_only_separator :
  let m := {| BACKSLASH_ESCAPES := false; HTML_NAMED_ENTITIES := true;
              HTML_NUMERIC_ENTITIES := false; CUSTOM_UNICODE_ENTITIES := false;
              URL_ENCODING := false |} in
  parsePath m (createPath m [str "a/b"]) = [str "a"; str "b"].
Proof. reflexivity. Qed.

(** C1, as stated, fails: with all five schemes enabled the empty segment
    sequence is written as the empty text, which is read as the sequence
    of one empty segment; and an empty segment is dropped by [createPath],
    so a sequence that holds one does not come back either. *)
Lemma createPath_empty_not_restored :
  parsePath all_methods (createPath all_methods []) = [[]] /\
  parsePath all_methods (createPath all_methods []) <> [] /\
  parsePath all_methods (createPath all_methods [str "a"; []]) = [str "a"] /\
  parsePath all_methods (createPath all_methods [str "a"; []])
  <> [str "a"; []].
Proof. repeat split; (reflexivity || discriminate). Qed.

(** C1, amended: for every non-empty sequence [S] of non-empty segments
    (of code units), [parsePath (createPath S) = S] whenever no character
    of [S] requires an escape scheme that is disabled; and with all five
    schemes enabled this holds for every such [S]. *)
Theorem parsePath_createPath (m : enabledMethods) (S : list jsstring) :
  List.Forall wf_string S ->
  S <> [] -> List.Forall (fun s => s <> []) S ->
  (List.Forall (List.Forall (fun c => scheme_available m c = true)) S ->
   parsePath m (createPath m S) = S) /\
  parsePath all_methods (createPath all_methods S) = S.
Proof.
  intros Hwf Hne Hs.
  assert (Hgen : forall m',
    List.Forall (List.Forall (fun c => scheme_available m' c = true)) S ->
    parsePath m' (createPath m' S) = S).
  { intros m' Havail.
    rewrite parsePath_createPath_filtered.
    - rewrite filter_nonempty_id by assumption. now destruct S.
    - rewrite List.Forall_forall in *. intros s Hin.
      specialize (Hwf s Hin). specialize (Havail s Hin).
      unfold reversible_string, wf_string in *.
      rewrite List.Forall_forall in *. auto. }
  split; [apply Hgen|]. apply Hgen.
  apply List.Forall_forall. intros s _. apply List.Forall_forall.
  intros c _. apply all_methods_available.
Qed.

Lemma parsePath_createPath_witness :
  parsePath backslash_and_custom
    (createPath backslash_and_custom sample_segments) = sample_segments /\
  parsePath all_methods (createPath all_methods sample_segments)
  = sample_segments.
Proof.
  assert (Hwf : List.Forall wf_string sample_segments)
    by (repeat constructor; reflexivity).
  assert (Hne : sample_segments <> []) by discriminate.
  assert (Hs : List.Forall (fun s => s <> []) sample_segments)
    by (repeat constructor; discriminate).
  destruct (parsePath_createPath backslash_and_custom _ Hwf Hne Hs)
    as [Hm Hall].
  split; [|exact Hall]. apply Hm. repeat constructor.
Defined.


(** *** More on the codec *)

Lemma createPath_kept (m : enabledMethods) (S : list jsstring) :
  createPath m (kept S) = createPath m S.
Proof.
  unfold createPath, kept.
  now rewrite (filter_nonempty_id _ (filter_nonempty_Forall S)).
Qed.

(** X1: writing a path, reading it and writing it again gives the text
    of the first writing, for every sequence of segments, the empty
    sequence and sequences with empty segments included: [createPath]
    after [parsePath] is the identity on what [createPath] writes. *)
Theorem createPath_normal_form (m : enabledMethods) (S : list jsstring) :
  List.Forall (reversible_string m) S ->
  createPath m (parsePath m (createPath m S)) = createPath m S.
Proof.
  intros HS. rewrite parsePath_createPath_filtered by assumption.
  fold (kept S). destruct (kept S) as [|t ts] eqn:E.
  - unfold createPath. fold (kept S). now rewrite E.
  - rewrite <- E. apply createPath_kept.
Qed.

Lemma parse_loop_separators (m : enabledMethods) (k : nat) :
  forall components,
  parse_loop m components [] 0 (repeat (ch "/") k)
  = components ++ repeat [] (S k).
Proof.
  induction k as [|k IH]; intros components; [reflexivity|].
  cbn [repeat parse_loop].
  change (ch "/" =? ch "\") with false. change (ch "/" =? ch "&") with false.
  change (ch "/" =? ch "%") with false. change (ch "/" =? ch "/") with true.
  cbn [andb]. rewrite IH, <- app_assoc. reflexivity.
Qed.

(** X2: [parsePath] never returns an empty component among others: its
    result is the single empty component or holds no empty component at
    all. The empty text is read as the single empty component, and a text
    of separators alone as no component. *)
Theorem parsePath_no_empty_component (m : enabledMethods) :
  (forall pathString,
     parsePath m pathString = [[]] \/
     List.Forall (fun component => component <> []) (parsePath m pathString)) /\
  parsePath m [] = [[]] /\
  (forall k, parsePath m (repeat (ch "/") (S k)) = []).
Proof.
  split; [|split].
  - intros pathString. unfold parsePath.
    set (components := parse_loop m [] [] 0 pathString).
    destruct components as [|c [|c' rest]].
    + right. constructor.
    + destruct c; [now left|right]. cbn. now repeat constructor.
    + right. apply List.Forall_forall. intros t Ht.
      apply List.filter_In in Ht. destruct Ht as [_ Ht].
      destruct t; [discriminate Ht|discriminate].
  - reflexivity.
  - intros k. unfold parsePath. rewrite parse_loop_separators.
    cbn [app]. rewrite repeat_length.
    generalize (S (S k)) at 2. intros n.
    assert (H : (S (S k) =? 1)%nat = false) by reflexivity.
    rewrite H. clear H.
    induction n as [|n IH]; [reflexivity|exact IH].
Qed.

Lemma printable_text (s : jsstring) :
  forallb (fun c => (32 <=? c) && (c <=? 126)) s = true ->
  List.Forall printable s.
Proof.
  rewrite forallb_forall, List.Forall_forall. intros H c Hc.
  specialize (H c Hc). apply andb_true_iff in H. unfold printable.
  rewrite !N.leb_le in H. exact H.
Qed.

Ltac printable_text := apply printable_text; reflexivity.

Lemma hex_digit_printable (c : N) : is_hex_digit c = true -> printable c.
Proof.
  unfold is_hex_digit, is_digit, is_upper_hex, is_lower_hex, printable.
  rewrite !orb_true_iff, !andb_true_iff, !N.leb_le. lia.
Qed.

Lemma digit_printable (c : N) : is_digit c = true -> printable c.
Proof.
  unfold is_digit, printable. rewrite !andb_true_iff, !N.leb_le. lia.
Qed.

Lemma hex_printable (s : jsstring) :
  List.Forall (fun c => is_hex_digit c = true) s -> List.Forall printable s.
Proof. apply List.Forall_impl, hex_digit_printable. Qed.

Lemma hex2_printable (c : N) : List.Forall printable (hex2 c).
Proof.
  apply hex_printable, padStart_hex_digits, toString_hex_digits.
Qed.

Lemma join_Forall (P : N -> Prop) (sep : jsstring) (parts : list jsstring) :
  List.Forall P sep -> List.Forall (List.Forall P) parts ->
  List.Forall P (join sep parts).
Proof.
  intros Hsep. induction 1 as [|s parts Hs Hparts IH]; [constructor|].
  destruct parts as [|s' parts]; [exact Hs|].
  change (join sep (s :: s' :: parts)) with (s ++ sep ++ join sep (s' :: parts)).
  apply List.Forall_app. split; [assumption|].
  apply List.Forall_app. now split.
Qed.

Lemma concat_Forall (P : N -> Prop) (parts : list jsstring) :
  List.Forall (List.Forall P) parts -> List.Forall P (List.concat parts).
Proof.
  induction 1 as [|s parts Hs _ IH]; [constructor|].
  cbn [List.concat]. apply List.Forall_app. now split.
Qed.

Lemma utf8_printable (c : N) :
  List.Forall printable
    (List.concat
       (List.map (fun byte => str "%" ++ hex2 byte) (stringToUtf8Bytes c))).
Proof.
  apply concat_Forall, List.Forall_map, List.Forall_forall. intros b _.
  apply List.Forall_app. split; [|apply hex2_printable].
  printable_text.
Qed.


Lemma encode_char_printable (m : enabledMethods) (c : N) :
  ascii_safe m = true -> List.Forall printable (encode_char m c).
Proof.
  unfold ascii_safe. intros Hsafe.
  destruct (List.in_dec N.eq_dec c special_chars) as [Hin|Hout].
  - destruct m as [bs named num cust url]. cbn in Hsafe.
    cbn [List.In special_chars] in Hin.
    destruct Hin as [<-|[<-|[<-|[<-|[<-|[<-|[<-|[]]]]]]]];
      destruct bs, named, num, cust, url; try discriminate Hsafe;
      printable_text.
  - rewrite encode_char_other by assumption.
    destruct ((c <? 32) || (126 <? c)) eqn:Hrange.
    + destruct (c <=? 255).
      * destruct m as [bs named num cust url]. cbn [URL_ENCODING BACKSLASH_ESCAPES HTML_NUMERIC_ENTITIES
             CUSTOM_UNICODE_ENTITIES HTML_NAMED_ENTITIES] in *.
        destruct url; [|destruct bs; [|destruct num; [|destruct cust]]];
          cbn [first_enabled]; try discriminate Hsafe.
        all: try (apply List.Forall_app; split;
                  [printable_text|apply hex2_printable]).
        apply List.Forall_app. split; [printable_text|].
        apply List.Forall_app. split; [|printable_text].
        eapply List.Forall_impl; [|apply toString_decimal_digits].
        apply digit_printable.
      * destruct m as [bs named num cust url]. cbn [URL_ENCODING BACKSLASH_ESCAPES HTML_NUMERIC_ENTITIES
             CUSTOM_UNICODE_ENTITIES HTML_NAMED_ENTITIES] in *.
        destruct num; [|destruct cust; [|destruct url]];
          cbn [first_enabled]; try (now destruct bs).
        -- apply List.Forall_app. split; [printable_text|].
           apply List.Forall_app. split; [|printable_text].
           apply hex_printable, toString_hex_digits.
        -- apply List.Forall_app. split; [printable_text|].
           apply List.Forall_app. split; [|printable_text].
           apply hex_printable, padStart_hex_digits, toString_hex_digits.
        -- apply utf8_printable.
    + apply orb_false_iff in Hrange. destruct Hrange as [H1 H2].
      apply N.ltb_ge in H1, H2. repeat constructor; assumption.
Qed.

(** X3: with percent escapes, or numeric entities, or backslash escapes
    and custom entities enabled, [createPath] writes printable ASCII
    only, whatever the characters of the segments. *)
Theorem createPath_printable (m : enabledMethods) (S : list jsstring) :
  ascii_safe m = true -> List.Forall printable (createPath m S).
Proof.
  intros Hsafe. unfold createPath.
  destruct (List.filter _ S) as [|t ts]; [constructor|].
  apply join_Forall; [printable_text|].
  apply List.Forall_map, List.Forall_forall. intros s _.
  unfold encodePathComponent. apply concat_Forall, List.Forall_map.
  apply List.Forall_forall. intros c _. now apply encode_char_printable.
Qed.

Lemma join_app (sep : jsstring) (xs ys : list jsstring) :
  xs <> [] -> ys <> [] ->
  join sep (xs ++ ys) = join sep xs ++ sep ++ join sep ys.
Proof.
  intros Hx Hy. induction xs as [|x xs IH]; [contradiction|].
  destruct xs as [|x' xs].
  - destruct ys; [contradiction|reflexivity].
  - change (join sep ((x :: x' :: xs) ++ ys))
      with (x ++ sep ++ join sep ((x' :: xs) ++ ys)).
    rewrite IH by discriminate.
    change (join sep (x :: x' :: xs)) with (x ++ sep ++ join sep (x' :: xs)).
    now rewrite <- !app_assoc.
Qed.

(** X4: the text of two sequences of segments one after the other is the
    two texts with a separator between them; when one of the sequences
    keeps no segment, it is the text of the other one. *)
Theorem createPath_app (m : enabledMethods) (S1 S2 : list jsstring) :
  createPath m (S1 ++ S2) =
  match kept S1, kept S2 with
  | [], _ => createPath m S2
  | _, [] => createPath m S1
  | _, _ => createPath m S1 ++ str "/" ++ createPath m S2
  end.
Proof.
  unfold createPath. rewrite List.filter_app. fold (kept S1) (kept S2).
  destruct (kept S1) as [|t1 k1] eqn:E1; [reflexivity|].
  destruct (kept S2) as [|t2 k2] eqn:E2; [now rewrite app_nil_r|].
  rewrite List.map_app, join_app by discriminate. reflexivity.
Qed.

Lemma parse_literal_run (m : enabledMethods) (run : jsstring) :
  List.Forall (fun c => ~ List.In c special_chars) run ->
  forall components cur rest,
  parse_loop m components cur 0 (run ++ rest)
  = parse_loop m components (cur ++ run) 0 rest.
Proof.
  induction 1 as [|c run Hc _ IH]; intros components cur rest.
  - now rewrite app_nil_r.
  - cbn [app]. rewrite parse_other_literal by assumption.
    rewrite IH, <- app_assoc. reflexivity.
Qed.

Lemma hex_digit_not_special (c : N) :
  is_hex_digit c = true -> ~ List.In c special_chars.
Proof.
  unfold is_hex_digit, is_digit, is_upper_hex, is_lower_hex.
  rewrite !orb_true_iff, !andb_true_iff, !N.leb_le.
  cbn [List.In special_chars]. lia.
Qed.

Lemma digit_hex_digit (c : N) : is_digit c = true -> is_hex_digit c = true.
Proof. unfold is_hex_digit. now intros ->. Qed.

(** A text that starts with an ampersand and is no entity is read as it
    is written, once the ampersand is. *)
Lemma parse_rejected_entity (m : enabledMethods) (after : jsstring) :
  entity_escape m after = (str "&", 1%nat) ->
  List.Forall (fun c => ~ List.In c special_chars) after ->
  parsePath m (ch "&" :: after) = [ch "&" :: after].
Proof.
  intros Hentity Hafter. unfold parsePath.
  assert (Hloop : parse_loop m [] [] 0 (ch "&" :: after) = [ch "&" :: after]).
  { destruct (HTML_NAMED_ENTITIES m || HTML_NUMERIC_ENTITIES m ||
              CUSTOM_UNICODE_ENTITIES m) eqn:Hm.
    - rewrite parse_ampersand by assumption. rewrite Hentity.
      cbn [Nat.sub app]. rewrite <- (app_nil_r after) at 1.
      now rewrite parse_literal_run.
    - rewrite parse_loop_literal;
        [|reflexivity|now rewrite Hm|reflexivity|reflexivity].
      rewrite <- (app_nil_r after) at 1.
      now rewrite parse_literal_run. }
  now rewrite Hloop.
Qed.

(** X5: a numeric entity, hexadecimal or decimal, whose code point is
    beyond U+10FFFF is not decoded and raises nothing: the text is read as
    it is written, under every configuration. *)
Theorem parsePath_code_point_out_of_range (m : enabledMethods)
    (digits : jsstring) :
  digits <> [] ->
  (List.Forall (fun d => is_hex_digit d = true) digits ->
   1114111 < parseInt 16 digits ->
   parsePath m (str "&#x" ++ digits ++ str ";")
   = [str "&#x" ++ digits ++ str ";"]) /\
  (List.Forall (fun d => is_digit d = true) digits ->
   1114111 < parseInt 10 digits ->
   parsePath m (str "&#" ++ digits ++ str ";")
   = [str "&#" ++ digits ++ str ";"]).
Proof.
  intros Hne. split; intros Hdigits Hbig.
  - apply parse_rejected_entity.
    + unfold entity_escape, named_entity, numeric_entity, custom_entity.
      cbn [app str List.map list_ascii_of_string match_named
           match_custom_entity match_hex_entity match_decimal_entity].
      change (is_alpha (N_of_ascii "#")) with false.
      change (N_of_ascii "#" =? ch "u") with false.
      change (N_of_ascii "#" =? ch "#") with true.
      change (N_of_ascii "x" =? ch "x") with true. cbn [andb].
      rewrite match_digits_run;
        [|assumption|assumption|reflexivity].
      unfold fromCodePoint.
      destruct (N.ltb_spec (parseInt 16 digits) 65536); [lia|].
      destruct (N.leb_spec (parseInt 16 digits) 1114111); [lia|].
      unfold match_digits. cbn [span].
      change (is_digit (N_of_ascii "x")) with false. cbn iota.
      now destruct (HTML_NAMED_ENTITIES m), (HTML_NUMERIC_ENTITIES m),
        (CUSTOM_UNICODE_ENTITIES m).
    + repeat (apply List.Forall_cons; [cbv; intuition discriminate|]).
      apply List.Forall_app. split.
      * eapply List.Forall_impl; [|exact Hdigits].
        apply hex_digit_not_special.
      * repeat constructor. cbv; intuition discriminate.
  - apply parse_rejected_entity.
    + destruct digits as [|d digits]; [contradiction|].
      assert (Hd : is_digit d = true) by now inversion Hdigits.
      unfold entity_escape, named_entity, numeric_entity, custom_entity.
      cbn [app str List.map list_ascii_of_string match_named
           match_custom_entity match_hex_entity match_decimal_entity].
      change (is_alpha (N_of_ascii "#")) with false.
      change (N_of_ascii "#" =? ch "u") with false.
      change (N_of_ascii "#" =? ch "#") with true.
      rewrite (digit_not_x d Hd). cbn [andb].
      rewrite (app_comm_cons digits _ d).
      rewrite (match_digits_run is_digit (d :: digits));
        [|assumption|discriminate|reflexivity].
      unfold fromCodePoint.
      destruct (N.ltb_spec (parseInt 10 (d :: digits)) 65536); [lia|].
      destruct (N.leb_spec (parseInt 10 (d :: digits)) 1114111); [lia|].
      now destruct (HTML_NAMED_ENTITIES m), (HTML_NUMERIC_ENTITIES m),
        (CUSTOM_UNICODE_ENTITIES m).
    + repeat (apply List.Forall_cons; [cbv; intuition discriminate|]).
      apply List.Forall_app. split.
      * eapply List.Forall_impl; [|exact Hdigits].
        intros c Hc. now apply hex_digit_not_special, digit_hex_digit.
      * repeat constructor. cbv; intuition discriminate.
Qed.

Lemma createPath_normal_form_witness :
  createPath all_methods
    (parsePath all_methods (createPath all_methods gapped_segments))
  = createPath all_methods gapped_segments.
Proof.
  apply createPath_normal_form.
  repeat (constructor; try reflexivity).
Defined.

Lemma createPath_printable_witness :
  List.Forall printable (createPath all_methods gapped_segments) /\
  List.Forall printable (createPath backslash_and_custom sample_segments).
Proof. split; apply createPath_printable; reflexivity. Defined.

Lemma parsePath_code_point_out_of_range_witness :
  parsePath all_methods (str "&#x110000;") = [str "&#x110000;"] /\
  parsePath all_methods (str "&#1114112;") = [str "&#1114112;"].
Proof.
  split.
  - apply (parsePath_code_point_out_of_range all_methods (str "110000"));
      [discriminate|repeat constructor|reflexivity].
  - apply (parsePath_code_point_out_of_range all_methods (str "1114112"));
      [discriminate|repeat constructor|reflexivity].
Defined.

End PathParser.
(** ** The tree store ([src/cfkvtree.js]) *)

Module KVTree.

(** *** Values, errors and the store *)

(** The JSON-like values of JavaScript: what a caller stores and what
    [JSON.parse] returns. [JNum] holds an integer-valued number; the
    properties of [JObj] are in enumeration order. *)
#[warnings="-register-all"]
Inductive jsval :=
  | JUndefined
  | JNull
  | JBool (b : bool)
  | JNum (n : Z)
  | JStr (s : jsstring)
  | JArr (items : list jsval)
  | JObj (props : list (jsstring * jsval)).

(** A thrown [Error] object: the fields the code reads. *)
Record error := {
  status : option Z;
  name : jsstring;
  message : jsstring
}.

(** [new Error(msg)]. *)
Definition Error (msg : jsstring) : error :=
  {| status := None; name := str "Error"; message := msg |}.

(** A [TypeError] raised by the runtime. *)
Definition TypeError (msg : jsstring) : error :=
  {| status := None; name := str "TypeError"; message := msg |}.

(** What [getNode] returns. *)
Record snapshot := {
  path : list jsstring;
  value : jsval;
  children : jsval;
  hasChildren : bool
}.

(** What the outside world sees of a run: the calls on the store, the
    pauses of the retry loop (by attempt number: the length of a pause has
    a random jitter), and the calls of a traversal's visitor, each with
    the visitor's answer. *)
Inductive event :=
  | KvGet (key : jsstring)
  | KvPut (key : jsstring) (v : option jsstring)
  | KvDelete (key : jsstring)
  | Sleep (attempt : nat)
  | Visited (node : snapshot) (depth : nat) (answer : jsval).

(** The store and its environment: the entries of the namespace, the
    faults still to come (each call on the store takes the next entry:
    [Some e] makes the call raise [e], [None] lets it through; when none
    is left every call goes through), and the events so far. *)
Record world := {
  kv : gmap jsstring jsstring;
  faults : list (option error);
  trace : list event
}.

(** How a call ends: with a value, with a thrown error, without an end
    within the fuel given to a loop, or by using a stored value in a way
    this model gives no meaning to. *)
Inductive outcome (A : Type) :=
  | Ret (a : A)
  | Throw (e : error)
  | OutOfFuel
  | Untyped.
Arguments Ret {A} a.
Arguments Throw {A} e.
Arguments OutOfFuel {A}.
Arguments Untyped {A}.

(** An asynchronous computation over the store. *)
Definition M (A : Type) : Type := world -> outcome A * world.

Definition ret {A} (a : A) : M A := fun w => (Ret a, w).
Definition throw {A} (e : error) : M A := fun w => (Throw e, w).

Definition bind {A B} (m : M A) (k : A -> M B) : M B :=
  fun w =>
    match m w with
    | (Ret a, w') => k a w'
    | (Throw e, w') => (Throw e, w')
    | (OutOfFuel, w') => (OutOfFuel, w')
    | (Untyped, w') => (Untyped, w')
    end.

(** [try { body } catch (error) { handler }]. *)
Definition try_catch {A} (body : M A) (handler : error -> M A) : M A :=
  fun w =>
    match body w with
    | (Throw e, w') => handler e w'
    | other => other
    end.

Declare Scope js_scope.
Delimit Scope js_scope with js.
Notation "x <- m ;; k" := (bind m (fun x => k))
  (at level 20, m at level 99, k at level 200) : js_scope.
Notation "m ;; k" := (bind m (fun _ => k))
  (at level 100, k at level 200, right associativity) : js_scope.
Local Open Scope js_scope.

(** [for (const x of xs) { await body(x) }]. *)
Fixpoint for_each {X} (xs : list X) (body : X -> M unit) : M unit :=
  match xs with
  | [] => ret tt
  | x :: rest => body x ;; for_each rest body
  end.

Definition log (ev : event) (w : world) : world :=
  {| kv := kv w; faults := faults w; trace := trace w ++ [ev] |}.

(** The next entry of the fault schedule, and the world without it. *)
Definition next_fault (w : world) : option error * world :=
  match faults w with
  | [] => (None, w)
  | f :: rest => (f, {| kv := kv w; faults := rest; trace := trace w |})
  end.

(** [await this.kv.get(key)]: the text stored under [key], or [null]. *)
Definition kv_get (key : jsstring) : M (option jsstring) :=
  fun w =>
    match next_fault (log (KvGet key) w) with
    | (Some e, w') => (Throw e, w')
    | (None, w') => (Ret (kv w' !! key), w')
    end.

(** [await this.kv.put(key, value)]. The binding stores text: a [null]
    value is stored as the text [null]. *)
Definition kv_put (key : jsstring) (v : option jsstring) : M unit :=
  fun w =>
    match next_fault (log (KvPut key v) w) with
    | (Some e, w') => (Throw e, w')
    | (None, w') =>
        (Ret tt,
         {| kv := <[key := default (str "null") v]> (kv w');
            faults := faults w'; trace := trace w' |})
    end.

(** [await this.kv.delete(key)]. *)
Definition kv_delete (key : jsstring) : M unit :=
  fun w =>
    match next_fault (log (KvDelete key) w) with
    | (Some e, w') => (Throw e, w')
    | (None, w') =>
        (Ret tt,
         {| kv := delete key (kv w'); faults := faults w';
            trace := trace w' |})
    end.

(** [await this.sleep(this.calculateBackoffDelay(attempt))]. *)
Definition sleep (attempt : nat) : M unit :=
  fun w => (Ret tt, log (Sleep attempt) w).

(** *** Strings of the runtime *)

(** [hay.includes(needle)]. *)
Fixpoint starts_with (needle hay : jsstring) : bool :=
  match needle, hay with
  | [], _ => true
  | n :: needle', h :: hay' => (n =? h) && starts_with needle' hay'
  | _ :: _, [] => false
  end.

Fixpoint includes (needle hay : jsstring) : bool :=
  starts_with needle hay ||
  match hay with
  | [] => false
  | _ :: hay' => includes needle hay'
  end.

(** A number inside a template literal. *)
Definition Z_toString (z : Z) : jsstring :=
  match z with
  | Z0 => str "0"
  | Zpos p => toString_radix false 10 (Npos p)
  | Zneg p => str "-" ++ toString_radix false 10 (Npos p)
  end.

(** [value || []] tests this. *)
Definition truthy (v : jsval) : bool :=
  match v with
  | JUndefined | JNull => false
  | JBool b => b
  | JNum n => negb (n =? 0)%Z
  | JStr s => negb (PathParser.is_empty s)
  | JArr _ | JObj _ => true
  end.

(** What a [for ... of] loop over a stored list of keys runs through: the
    keys of an array of strings; a number, a boolean or an object is not
    iterable (a [TypeError]); an array that holds something else than
    strings, or a string, is outside the model. *)
Inductive iteration :=
  | Keys (keys : list jsstring)
  | NotIterable
  | OutsideModel.

Fixpoint strings_of (items : list jsval) : option (list jsstring) :=
  match items with
  | [] => Some []
  | JStr s :: rest =>
      match strings_of rest with
      | Some keys => Some (s :: keys)
      | None => None
      end
  | _ :: _ => None
  end.

Definition for_of (v : jsval) : iteration :=
  match v with
  | JArr items =>
      match strings_of items with
      | Some keys => Keys keys
      | None => OutsideModel
      end
  | JStr _ => OutsideModel
  | _ => NotIterable
  end.

(** [key === childKey] for a string [childKey]. *)
Definition is_key (childKey : jsstring) (v : jsval) : bool :=
  match v with
  | JStr s => str_eqb s childKey
  | _ => false
  end.

(** *** The class *)

(** The fields set by the constructor. *)
Record KVTreeStorage := {
  globalPrefix : jsstring;
  maxRetries : Z;
  baseRetryDelay : Z
}.

(** [new KVTreeStorage(kv, options)]: an option that is missing, zero or
    empty takes its default. *)
Definition constructor (prefix : option jsstring)
    (retries delay : option Z) : KVTreeStorage :=
  {| globalPrefix :=
       match prefix with
       | Some (c :: p) => c :: p
       | _ => str "tree"
       end;
     maxRetries :=
       match retries with
       | Some r => if (r =? 0)%Z then 5%Z else r
       | None => 5%Z
       end;
     baseRetryDelay :=
       match delay with
       | Some d => if (d =? 0)%Z then 1000%Z else d
       | None => 1000%Z
       end |}.

(** How [JSON.parse] ends. *)
Inductive parsed :=
  | Parsed (v : jsval)
  | SyntaxError (msg : jsstring).

(** *** Objects *)

(** The order of [Object.keys(value).sort()]: by code units. *)
Fixpoint str_leb (s1 s2 : jsstring) : bool :=
  match s1, s2 with
  | [], _ => true
  | _ :: _, [] => false
  | c1 :: t1, c2 :: t2 => (c1 <? c2) || ((c1 =? c2) && str_leb t1 t2)
  end.

Definition str_le (s1 s2 : jsstring) : Prop := str_leb s1 s2 = true.

#[local] Instance str_le_dec : RelDecision str_le.
Proof. intros s1 s2. unfold str_le. apply _. Defined.

Definition sort (keys : list jsstring) : list jsstring :=
  merge_sort str_le keys.

(** [value[key]] on the properties of an object. *)
Fixpoint prop_get (props : list (jsstring * jsval)) (key : jsstring) : jsval :=
  match props with
  | [] => JUndefined
  | (k, v) :: rest => if str_eqb k key then v else prop_get rest key
  end.

(** A canonical array index: the decimal text of a number below
    [2^32 - 1]. *)
Definition array_index (key : jsstring) : option N :=
  let n := parseInt 10 key in
  if forallb is_digit key && str_eqb (toString_radix false 10 n) key &&
     (n <? 4294967295)
  then Some n else None.

(** Where a new property goes in the enumeration order of an ordinary
    object: among the array indices in ascending order when it is one,
    after everything else when it is not. *)
Fixpoint prop_insert (props : list (jsstring * jsval)) (key : jsstring)
    (v : jsval) : list (jsstring * jsval) :=
  match props with
  | [] => [(key, v)]
  | (k, v') :: rest =>
      match array_index key, array_index k with
      | Some n, Some n' =>
          if n <? n' then (key, v) :: props
          else (k, v') :: prop_insert rest key v
      | Some _, None => (key, v) :: props
      | None, _ => (k, v') :: prop_insert rest key v
      end
  end.

Fixpoint prop_replace (props : list (jsstring * jsval)) (key : jsstring)
    (v : jsval) : list (jsstring * jsval) :=
  match props with
  | [] => []
  | (k, v') :: rest =>
      if str_eqb k key then (k, v) :: rest
      else (k, v') :: prop_replace rest key v
  end.

(** [obj[key] = v] on an object created by [{}]: the key [__proto__]
    reaches the setter inherited from [Object.prototype] and adds no
    property. *)
Definition prop_set (props : list (jsstring * jsval)) (key : jsstring)
    (v : jsval) : list (jsstring * jsval) :=
  if str_eqb key (str "__proto__") then props
  else if existsb (fun kv => str_eqb (fst kv) key) props
  then prop_replace props key v
  else prop_insert props key v.

(** *** Keys *)

(** [b.toString(16).padStart(2, '0')] for a byte of the digest. *)
Definition byte_hex (b : Byte.byte) : jsstring :=
  padStart 2 (ch "0") (toString_radix false 16 (Byte.to_N b)).

(** A segment without a colon. *)
Definition colon_free (s : jsstring) : Prop := ~ List.In (ch ":") s.

(** A path whose derivation of keys is free of collisions: at least one
    segment, and no colon in any segment. *)
Definition plain_path (p : list jsstring) : Prop :=
  p <> [] /\ List.Forall (fun s => wf_string s /\ colon_free s) p.

(** A world in which the store raises nothing. *)
Definition quiet (entries : gmap jsstring jsstring) (events : list event)
  : world :=
  {| kv := entries; faults := []; trace := events |}.

(** An outcome that is a result or a thrown error. *)
Definition settled {A} (r : outcome A) : Prop :=
  match r with Ret _ | Throw _ => True | _ => False end.

(** *** Trees *)

(** A tree of nodes: the value of the node and its children by key, in
    the order of its children list. *)
#[warnings="-register-all"]
Inductive tree := Node (v : jsval) (subtrees : list (jsstring * tree)).

Definition subtrees_of (t : tree) : list (jsstring * tree) :=
  match t with Node _ subtrees => subtrees end.

Fixpoint tree_size (t : tree) : nat :=
  match t with
  | Node _ subtrees =>
      S (fold_right (fun kc n => (tree_size (snd kc) + n)%nat) 0%nat subtrees)
  end.

Fixpoint tree_height (t : tree) : nat :=
  match t with
  | Node _ subtrees =>
      S (fold_right (fun kc n => Nat.max (tree_height (snd kc)) n) 0%nat subtrees)
  end.

(** A forest: trees with the paths of their roots. *)
Definition forest := list (list jsstring * tree).

Definition forest_size (f : forest) : nat :=
  fold_right (fun pt n => (tree_size (snd pt) + n)%nat) 0%nat f.

Definition forest_height (f : forest) : nat :=
  fold_right (fun pt n => Nat.max (tree_height (snd pt)) n) 0%nat f.

(** The children of a node, with their paths. *)
Definition kids (pt : list jsstring * tree) : forest :=
  List.map (fun kc => (fst pt ++ [fst kc], snd kc)) (subtrees_of (snd pt)).

(** The paths of the next [depth] levels below a forest, level by level
    and from left to right in each level. *)
Fixpoint levels (depth : nat) (f : forest) : list (list jsstring) :=
  match depth with
  | O => []
  | S depth =>
      let next := flat_map kids f in
      List.map fst next ++ levels depth next
  end.

(** The descendants of the node at [p] in breadth-first order. *)
Definition descendants (p : list jsstring) (t : tree) : list (list jsstring) :=
  levels (tree_height t) [(p, t)].

(** The queue discipline, on trees: take the first tree, emit the paths
    of its children, and put the children at the back. *)
Fixpoint queue_order (fuel : nat) (queue : forest) : list (list jsstring) :=
  match queue, fuel with
  | pt :: queue, S fuel =>
      List.map fst (kids pt) ++ queue_order fuel (queue ++ kids pt)
  | _, _ => []
  end.

(** *** What a traversal visits *)

(** No call of the visitor in [events] was on the path [target]. *)
Definition never_visits (target : list jsstring) (events : list event)
  : Prop :=
  forall node depth answer,
    List.In (Visited node depth answer) events -> path node <> target.

(** A computation that adds no visit of [target] to the trace. *)
Definition keeps {A} (target : list jsstring) (m : M A) : Prop :=
  forall w, never_visits target (trace w) ->
            never_visits target (trace (snd (m w))).

(** *** What a run keeps *)

(** A computation that keeps a relation between the world before and the
    world after. *)
Definition respects {A} (R : world -> world -> Prop) (m : M A) : Prop :=
  forall w, R w (snd (m w)).

(** An event that is no write to the store. *)
Definition no_write (ev : event) : Prop :=
  match ev with
  | KvPut _ _ | KvDelete _ => False
  | _ => True
  end.

(** The world after reading: the same entries, and no write among the
    events when there was none. *)
Definition reading (w w' : world) : Prop :=
  kv w' = kv w /\
  (List.Forall no_write (trace w) -> List.Forall no_write (trace w')).

(** An event that is no call of a visitor beyond a depth. *)
Definition shallow (limit : nat) (ev : event) : Prop :=
  match ev with
  | Visited _ depth _ => (depth <= limit)%nat
  | _ => True
  end.

Definition stays_shallow (limit : nat) (w w' : world) : Prop :=
  List.Forall (shallow limit) (trace w) ->
  List.Forall (shallow limit) (trace w').

(** An outcome that is no thrown error. *)
Definition unthrown {A} (r : outcome A) : Prop :=
  match r with Throw _ => False | _ => True end.

(** The attempts of a read that is retried [n] times: each attempt and
    the pause that follows it. *)
Definition retried (key : jsstring) (start n : nat) : list event :=
  flat_map (fun attempt => [KvGet key; Sleep attempt]) (seq start n).

(** A path whose segments are not empty and hold no colon: the paths
    that the derivation of keys tells apart, the root included. *)
Definition simple_path (p : list jsstring) : Prop :=
  List.Forall (fun s => wf_string s /\ colon_free s /\ s <> []) p.

(** A key that an object lists where it was added: no array index, and
    not the name of the prototype. *)
Definition ordinary_key (k : jsstring) : Prop :=
  array_index k = None /\ k <> str "__proto__".

(** A call of the callback: the node, the depth and the answer. *)
Definition visit : Type := snapshot * nat * jsval.

(** The errors [deleteNode] throws. *)
Definition deleteNode_error (p : list jsstring) (e : error) : Prop :=
  e = Error (str "Cannot delete root node") \/
  e = Error (str "Node does not exist: " ++ join (str "/") p) \/
  exists cause,
    e = Error (str "Failed to delete node " ++ join (str "/") p ++ str ": " ++
               message cause).

(** The errors [moveNode] throws. *)
Definition moveNode_error (sourcePath targetParentPath : list jsstring)
    (newKey : jsstring) (e : error) : Prop :=
  e = Error (str "Cannot move root node") \/
  e = Error (str "Source node does not exist: " ++
             join (str "/") sourcePath) \/
  e = Error (str "Target parent does not exist: " ++
             join (str "/") targetParentPath) \/
  e = Error (str "Target path already exists: " ++
             join (str "/") (targetParentPath ++ [newKey])) \/
  exists cause, e = Error (str "Failed to move node: " ++ message cause).

(** An outcome whose error, if it is one, is of a kind. *)
Definition throws_only {A} (kind : error -> Prop) (r : outcome A) : Prop :=
  match r with Throw e => kind e | _ => True end.

(** A tree whose keys tell its nodes apart: the keys of the children of
    a node are all different, each a segment that is not empty and holds
    no colon. *)
Fixpoint well_keyed (t : tree) : Prop :=
  match t with
  | Node _ subtrees =>
      List.NoDup (List.map fst subtrees) /\
      fold_right
        (fun kc rest => (simple_path [fst kc] /\ well_keyed (snd kc)) /\ rest)
        True subtrees
  end.

(** A tree with a copy of itself under a new last key. *)
Definition with_copy (t : tree) (k : jsstring) : tree :=
  match t with Node v subtrees => Node v (subtrees ++ [(k, t)]) end.

(** A tree whose keys an object lists in the order they are added: no
    key is an array index or the name of the prototype. *)
Fixpoint plainly_keyed (t : tree) : Prop :=
  match t with
  | Node _ subtrees =>
      fold_right
        (fun kc rest =>
           (ordinary_key (fst kc) /\ plainly_keyed (snd kc)) /\ rest)
        True subtrees
  end.

Section Storage.

(** The runtime: the SHA-256 digest of the UTF-8 encoding of a string
    ([crypto.subtle.digest] after [TextEncoder.encode]), and the JSON
    built-ins. *)
Variable sha256 : jsstring -> list Byte.byte.
Variable JSON_stringify : jsval -> jsstring.
Variable JSON_parse : jsstring -> parsed.

Variable this : KVTreeStorage.

(** [hashPath(pathArray)]. *)
Definition hashPath (pathArray : list jsstring) : jsstring :=
  let pathString := join (str "::") pathArray in
  let hashBuffer := sha256 pathString in
  List.concat (List.map byte_hex hashBuffer).

(** [createStorageKey(pathArray, suffix)]. *)
Definition createStorageKey (pathArray : list jsstring) (suffix : jsstring)
  : jsstring :=
  globalPrefix this ++ str "-" ++ hashPath pathArray ++ str "-" ++ suffix.

(** [isRetryableError(error)]. *)
Definition isRetryableError (e : error) : bool :=
  match status e with
  | Some s => (s =? 429)%Z || (500 <=? s)%Z
  | None => false
  end
  || str_eqb (name e) (str "NetworkError")
  || includes (str "timeout") (message e).

(** The [for] loop of [withRetry] from [attempt] on, with [remaining]
    iterations to go, and the [throw] after it. *)
Fixpoint retry_loop {A} (remaining attempt : nat) (lastError : option error)
    (operation : M A) (context : jsstring) : M A :=
  match remaining with
  | O =>
      match lastError with
      | Some last =>
          throw
            (Error
               (context ++ str " failed after " ++
                Z_toString (maxRetries this) ++ str " attempts: " ++
                message last))
      | None =>
          throw
            (TypeError
               (str "Cannot read properties of undefined (reading 'message')"))
      end
  | S remaining' =>
      try_catch operation
        (fun e =>
           if isRetryableError e &&
              (Z.of_nat attempt <? maxRetries this - 1)%Z
           then
             sleep attempt ;;
             retry_loop remaining' (S attempt) (Some e) operation context
           else throw e)
  end.

(** [withRetry(operation, context)]. *)
Definition withRetry {A} (operation : M A) (context : jsstring) : M A :=
  retry_loop (Z.to_nat (maxRetries this)) 0 None operation context.

(** [serializeValue(value)]; [None] is [null]. *)
Definition serializeValue (value : jsval) : option jsstring :=
  match value with
  | JNull | JUndefined => None
  | JObj props =>
      let sortedObj :=
        fold_left (fun sortedObj key => prop_set sortedObj key (prop_get props key))
          (sort (List.map fst props)) [] in
      Some (JSON_stringify (JObj sortedObj))
  | _ => Some (JSON_stringify value)
  end.

(** [deserializeValue(serialized)]. *)
Definition deserializeValue (serialized : option jsstring) : M jsval :=
  match serialized with
  | None => ret JNull
  | Some text =>
      match JSON_parse text with
      | Parsed v => ret v
      | SyntaxError msg =>
          throw (Error (str "Failed to deserialize value: " ++ msg))
      end
  end.

(** [x || []]. *)
Definition or_empty_array (v : jsval) : jsval :=
  if truthy v then v else JArr [].

Definition is_null {A} (o : option A) : bool :=
  match o with None => true | Some _ => false end.

(** [nodeExists(pathArray)]. *)
Definition nodeExists (pathArray : list jsstring) : M bool :=
  try_catch
    (let valueKey := createStorageKey pathArray (str "value") in
     value <- kv_get valueKey ;;
     ret (negb (is_null value)))
    (fun _ => ret false).

(** [pathArray.slice(0, -1)] and [pathArray[pathArray.length - 1]]. *)
Definition parent_of (pathArray : list jsstring) : list jsstring :=
  removelast pathArray.

Definition path_value (pathArray : list jsstring) : jsval :=
  JArr (List.map JStr pathArray).

(** [addChildToParent(parentPath, childKey)]. *)
Definition addChildToParent (parentPath : list jsstring) (childKey : jsstring)
  : M unit :=
  let childrenKey := createStorageKey parentPath (str "children") in
  currentChildrenSerialized <-
    withRetry (kv_get childrenKey) (str "get parent children") ;;
  parsed <- deserializeValue currentChildrenSerialized ;;
  match or_empty_array parsed with
  | JArr currentChildren =>
      if negb (existsb (is_key childKey) currentChildren) then
        let currentChildren := currentChildren ++ [JStr childKey] in
        withRetry
          (kv_put childrenKey (serializeValue (JArr currentChildren)))
          (str "update parent children")
      else ret tt
  | JStr s =>
      if negb (includes childKey s) then
        throw (TypeError (str "currentChildren.push is not a function"))
      else ret tt
  | _ => throw (TypeError (str "currentChildren.includes is not a function"))
  end.

(** [removeChildFromParent(parentPath, childKey)]. *)
Definition removeChildFromParent (parentPath : list jsstring)
    (childKey : jsstring) : M unit :=
  let childrenKey := createStorageKey parentPath (str "children") in
  currentChildrenSerialized <-
    withRetry (kv_get childrenKey) (str "get parent children for removal") ;;
  parsed <- deserializeValue currentChildrenSerialized ;;
  match or_empty_array parsed with
  | JArr currentChildren =>
      let updatedChildren :=
        List.filter (fun key => negb (is_key childKey key)) currentChildren in
      withRetry
        (kv_put childrenKey (serializeValue (JArr updatedChildren)))
        (str "remove child from parent")
  | _ => throw (TypeError (str "currentChildren.filter is not a function"))
  end.

(** [createNode(pathArray, value)]. *)
Definition createNode (pathArray : list jsstring) (value : jsval) : M unit :=
  match pathArray with
  | [] =>
      exists_ <- nodeExists [] ;;
      if exists_ then throw (Error (str "Root node already exists"))
      else ret tt
  | _ :: _ =>
      let parentPath := parent_of pathArray in
      parentExists <- nodeExists parentPath ;;
      if negb parentExists then
        throw
          (Error (str "Parent node does not exist: " ++
                  join (str "/") parentPath))
      else ret tt
  end ;;
  withRetry
    (let valueKey := createStorageKey pathArray (str "value") in
     kv_put valueKey (serializeValue value) ;;
     match pathArray with
     | [] => ret tt
     | _ :: _ =>
         let parentKey := createStorageKey pathArray (str "parent") in
         let parentPath := parent_of pathArray in
         kv_put parentKey (serializeValue (path_value parentPath))
     end ;;
     let childrenKey := createStorageKey pathArray (str "children") in
     kv_put childrenKey (serializeValue (JArr [])) ;;
     match pathArray with
     | [] => ret tt
     | first :: _ =>
         addChildToParent (parent_of pathArray) (List.last pathArray first)
     end)
    (str "create node " ++ join (str "/") pathArray).

(** [initializeRoot()]. *)
Definition initializeRoot : M unit :=
  rootExists <- nodeExists [] ;;
  if negb rootExists then createNode [] JNull else ret tt.

Definition not_found (pathArray : list jsstring) : error :=
  Error (str "Node does not exist: " ++ join (str "/") pathArray).

(** [getValue(pathArray)]. *)
Definition getValue (pathArray : list jsstring) : M jsval :=
  let valueKey := createStorageKey pathArray (str "value") in
  serializedValue <-
    withRetry (kv_get valueKey)
      (str "get value for " ++ join (str "/") pathArray) ;;
  match serializedValue with
  | None => throw (not_found pathArray)
  | Some _ => deserializeValue serializedValue
  end.

(** [setValue(pathArray, value)]. *)
Definition setValue (pathArray : list jsstring) (value : jsval) : M unit :=
  exists_ <- nodeExists pathArray ;;
  if negb exists_ then throw (not_found pathArray)
  else
    let valueKey := createStorageKey pathArray (str "value") in
    withRetry (kv_put valueKey (serializeValue value))
      (str "set value for " ++ join (str "/") pathArray).

(** [getChildren(pathArray)]. *)
Definition getChildren (pathArray : list jsstring) : M jsval :=
  let childrenKey := createStorageKey pathArray (str "children") in
  serializedChildren <-
    withRetry (kv_get childrenKey)
      (str "get children for " ++ join (str "/") pathArray) ;;
  match serializedChildren with
  | None => throw (not_found pathArray)
  | Some _ =>
      parsed <- deserializeValue serializedChildren ;;
      ret (or_empty_array parsed)
  end.

(** [children.length > 0]: an array or a string has a length; a number or
    a boolean has none, and [undefined > 0] is false; the [length] of an
    object is one of its properties, whose comparison with 0 the model
    leaves out. *)
Definition has_length (children : jsval) : M bool :=
  match children with
  | JArr items => ret (negb (Nat.eqb (length items) 0))
  | JStr s => ret (negb (Nat.eqb (length s) 0))
  | JObj props =>
      if existsb (fun kv => str_eqb (fst kv) (str "length")) props
      then (fun w => (Untyped, w)) else ret false
  | _ => ret false
  end.

(** [Promise.all([a, b])] for two calls started in this order: both run,
    and the first failure is the result. *)
Definition promise_all2 {A B} (a : M A) (b : M B) : M (A * B) :=
  fun w =>
    let '(ra, w1) := a w in
    let '(rb, w2) := b w1 in
    match ra, rb with
    | Ret x, Ret y => (Ret (x, y), w2)
    | Ret _, Throw e => (Throw e, w2)
    | Ret _, OutOfFuel => (OutOfFuel, w2)
    | Ret _, Untyped => (Untyped, w2)
    | Throw e, _ => (Throw e, w2)
    | OutOfFuel, _ => (OutOfFuel, w2)
    | Untyped, _ => (Untyped, w2)
    end.

(** [getNode(pathArray)]. *)
Definition getNode (pathArray : list jsstring) : M snapshot :=
  vc <- promise_all2 (getValue pathArray) (getChildren pathArray) ;;
  let '(value, children) := vc in
  nonempty <- has_length children ;;
  ret {| path := pathArray; value := value; children := children;
         hasChildren := nonempty |}.

(** [deleteSingleNode(pathArray)]. *)
Definition deleteSingleNode (pathArray : list jsstring) : M unit :=
  let keys :=
    [createStorageKey pathArray (str "value");
     createStorageKey pathArray (str "children")] ++
    match pathArray with
    | [] => []
    | _ :: _ => [createStorageKey pathArray (str "parent")]
    end in
  for_each keys
    (fun key => withRetry (kv_delete key) (str "delete key " ++ key)).

(** The [while (queue.length > 0)] loop of [collectDescendants]; each
    iteration takes one unit of fuel. *)
Fixpoint collect_loop (fuel : nat) (queue descendants : list (list jsstring))
  : M (list (list jsstring)) :=
  match queue with
  | [] => ret descendants
  | currentPath :: queue =>
      match fuel with
      | O => fun w => (OutOfFuel, w)
      | S fuel =>
          fun w =>
            match getChildren currentPath w with
            | (Ret children, w') =>
                match for_of children with
                | Keys keys =>
                    let childPaths :=
                      List.map (fun childKey => currentPath ++ [childKey])
                        keys in
                    collect_loop fuel (queue ++ childPaths)
                      (descendants ++ childPaths) w'
                | NotIterable => collect_loop fuel queue descendants w'
                | OutsideModel => (Untyped, w')
                end
            | (Throw _, w') => collect_loop fuel queue descendants w'
            | (OutOfFuel, w') => (OutOfFuel, w')
            | (Untyped, w') => (Untyped, w')
            end
      end
  end.

(** [collectDescendants(pathArray)]. *)
Definition collectDescendants (fuel : nat) (pathArray : list jsstring)
  : M (list (list jsstring)) :=
  collect_loop fuel [pathArray] [].

(** [deleteNode(pathArray)]. *)
Definition deleteNode (fuel : nat) (pathArray : list jsstring) : M unit :=
  match pathArray with
  | [] => throw (Error (str "Cannot delete root node"))
  | first :: _ =>
      exists_ <- nodeExists pathArray ;;
      if negb exists_ then throw (not_found pathArray)
      else
        descendantPaths <- collectDescendants fuel pathArray ;;
        let allPaths := pathArray :: descendantPaths in
        try_catch
          (for_each (rev allPaths) deleteSingleNode ;;
           let parentPath := parent_of pathArray in
           let childKey := List.last pathArray first in
           removeChildFromParent parentPath childKey)
          (fun e =>
             throw
               (Error (str "Failed to delete node " ++
                       join (str "/") pathArray ++ str ": " ++ message e)))
  end.

(** [copySubtree(sourcePath, targetParentPath, newKey)]; the fuel bounds
    the depth of the recursion. *)
Fixpoint copySubtree (fuel : nat) (sourcePath targetParentPath : list jsstring)
    (newKey : jsstring) : M unit :=
  match fuel with
  | O => fun w => (OutOfFuel, w)
  | S fuel =>
      sourceNode <- getNode sourcePath ;;
      let newPath := targetParentPath ++ [newKey] in
      createNode newPath (value sourceNode) ;;
      match for_of (children sourceNode) with
      | Keys keys =>
          for_each keys
            (fun childKey =>
               let childSourcePath := sourcePath ++ [childKey] in
               copySubtree fuel childSourcePath newPath childKey)
      | NotIterable =>
          throw (TypeError (str "sourceNode.children is not iterable"))
      | OutsideModel => fun w => (Untyped, w)
      end
  end.

(** [moveNode(sourcePath, targetParentPath, newKey)]. *)
Definition moveNode (fuel : nat) (sourcePath targetParentPath : list jsstring)
    (newKey : jsstring) : M unit :=
  match sourcePath with
  | [] => throw (Error (str "Cannot move root node"))
  | _ :: _ =>
      sourceExists <- nodeExists sourcePath ;;
      if negb sourceExists then
        throw (Error (str "Source node does not exist: " ++
                      join (str "/") sourcePath))
      else
        targetParentExists <- nodeExists targetParentPath ;;
        if negb targetParentExists then
          throw (Error (str "Target parent does not exist: " ++
                        join (str "/") targetParentPath))
        else
          let newPath := targetParentPath ++ [newKey] in
          newExists <- nodeExists newPath ;;
          if newExists then
            throw (Error (str "Target path already exists: " ++
                          join (str "/") newPath))
          else
            try_catch
              (copySubtree fuel sourcePath targetParentPath newKey ;;
               deleteNode fuel sourcePath)
              (fun e =>
                 try_catch (deleteNode fuel newPath) (fun _ => ret tt) ;;
                 throw (Error (str "Failed to move node: " ++ message e)))
  end.

(** *** Traversal *)

(** A visitor: its answer for a node at a depth. *)
Definition visitor := snapshot -> nat -> jsval.

(** [await callback(node, depth)]. *)
Definition call (callback : visitor) (node : snapshot) (depth : nat)
  : M jsval :=
  fun w =>
    let answer := callback node depth in
    (Ret answer, log (Visited node depth answer) w).

(** [shouldContinue === false]. *)
Definition is_false (v : jsval) : bool :=
  match v with JBool false => true | _ => false end.

(** [depth > maxDepth]; [None] is [Infinity]. *)
Definition deeper (depth : nat) (maxDepth : option nat) : bool :=
  match maxDepth with
  | Some limit => (limit <? depth)%nat
  | None => false
  end.

(** [depthFirstTraverse(pathArray, callback, maxDepth, includeInternal,
    currentDepth)]; the fuel bounds the depth of the recursion. *)
Fixpoint depthFirstTraverse (fuel : nat) (pathArray : list jsstring)
    (callback : visitor) (maxDepth : option nat) (includeInternal : bool)
    (currentDepth : nat) : M unit :=
  if deeper currentDepth maxDepth then ret tt
  else
    match fuel with
    | O => fun w => (OutOfFuel, w)
    | S fuel =>
        node <- getNode pathArray ;;
        shouldContinue <- call callback node currentDepth ;;
        if is_false shouldContinue then ret tt
        else
          match for_of (children node) with
          | Keys keys =>
              for_each keys
                (fun childKey =>
                   let childPath := pathArray ++ [childKey] in
                   depthFirstTraverse fuel childPath callback maxDepth
                     includeInternal (S currentDepth))
          | NotIterable =>
              throw (TypeError (str "node.children is not iterable"))
          | OutsideModel => fun w => (Untyped, w)
          end
    end.

(** The [while (queue.length > 0)] loop of [breadthFirstTraverse]; each
    iteration takes one unit of fuel. *)
Fixpoint breadth_loop (fuel : nat) (queue : list (list jsstring * nat))
    (callback : visitor) (maxDepth : option nat) : M unit :=
  match queue with
  | [] => ret tt
  | (path, depth) :: queue =>
      match fuel with
      | O => fun w => (OutOfFuel, w)
      | S fuel =>
          if deeper depth maxDepth
          then breadth_loop fuel queue callback maxDepth
          else
            node <- getNode path ;;
            shouldContinue <- call callback node depth ;;
            if is_false shouldContinue
            then breadth_loop fuel queue callback maxDepth
            else
              match for_of (children node) with
              | Keys keys =>
                  breadth_loop fuel
                    (queue ++
                     List.map (fun childKey => (path ++ [childKey], S depth))
                       keys)
                    callback maxDepth
              | NotIterable =>
                  throw (TypeError (str "node.children is not iterable"))
              | OutsideModel => fun w => (Untyped, w)
              end
      end
  end.

(** [breadthFirstTraverse(pathArray, callback, maxDepth, includeInternal)]. *)
Definition breadthFirstTraverse (fuel : nat) (pathArray : list jsstring)
    (callback : visitor) (maxDepth : option nat) (includeInternal : bool)
  : M unit :=
  breadth_loop fuel [(pathArray, 0%nat)] callback maxDepth.

Inductive strategy := DepthFirst | BreadthFirst.

(** [traverse(pathArray, callback, options)]. *)
Definition traverse (fuel : nat) (pathArray : list jsstring)
    (callback : visitor) (strat : strategy) (maxDepth : option nat)
    (includeInternal : bool) : M unit :=
  exists_ <- nodeExists pathArray ;;
  if negb exists_ then
    throw (Error (str "Starting node does not exist: " ++
                  join (str "/") pathArray))
  else
    match strat with
    | BreadthFirst =>
        breadthFirstTraverse fuel pathArray callback maxDepth includeInternal
    | DepthFirst =>
        depthFirstTraverse fuel pathArray callback maxDepth includeInternal 0
    end.

(** *** Callbacks that keep a state *)

(** A callback that is a closure over variables of its caller, as the
    callbacks of [findNodes] and [getStats] are: from the state of those
    variables, its answer and their next state. *)
Definition closure (St : Type) : Type := snapshot -> nat -> St -> jsval * St.

(** [await callback(node, depth)] for a closure. *)
Definition call_with {St} (callback : closure St) (node : snapshot)
    (depth : nat) (state : St) : M (jsval * St) :=
  fun w =>
    let '(answer, state') := callback node depth state in
    (Ret (answer, state'), log (Visited node depth answer) w).

(** [for (const x of xs) { await body(x) }] around a state. *)
Fixpoint for_each_with {X St} (xs : list X) (body : X -> St -> M St)
    (state : St) : M St :=
  match xs with
  | [] => ret state
  | x :: rest => state' <- body x state ;; for_each_with rest body state'
  end.

(** [depthFirstTraverse] with a closure for callback: the state of the
    closure is passed along. *)
Fixpoint depthFirstTraverse_with {St} (fuel : nat) (pathArray : list jsstring)
    (callback : closure St) (maxDepth : option nat) (includeInternal : bool)
    (currentDepth : nat) (state : St) : M St :=
  if deeper currentDepth maxDepth then ret state
  else
    match fuel with
    | O => fun w => (OutOfFuel, w)
    | S fuel =>
        node <- getNode pathArray ;;
        answered <- call_with callback node currentDepth state ;;
        let '(shouldContinue, state) := answered in
        if is_false shouldContinue then ret state
        else
          match for_of (children node) with
          | Keys keys =>
              for_each_with keys
                (fun childKey state =>
                   let childPath := pathArray ++ [childKey] in
                   depthFirstTraverse_with fuel childPath callback maxDepth
                     includeInternal (S currentDepth) state)
                state
          | NotIterable =>
              throw (TypeError (str "node.children is not iterable"))
          | OutsideModel => fun w => (Untyped, w)
          end
    end.

(** The loop of [breadthFirstTraverse] with a closure for callback. *)
Fixpoint breadth_loop_with {St} (fuel : nat) (queue : list (list jsstring * nat))
    (callback : closure St) (maxDepth : option nat) (state : St) : M St :=
  match queue with
  | [] => ret state
  | (path, depth) :: queue =>
      match fuel with
      | O => fun w => (OutOfFuel, w)
      | S fuel =>
          if deeper depth maxDepth
          then breadth_loop_with fuel queue callback maxDepth state
          else
            node <- getNode path ;;
            answered <- call_with callback node depth state ;;
            let '(shouldContinue, state) := answered in
            if is_false shouldContinue
            then breadth_loop_with fuel queue callback maxDepth state
            else
              match for_of (children node) with
              | Keys keys =>
                  breadth_loop_with fuel
                    (queue ++
                     List.map (fun childKey => (path ++ [childKey], S depth))
                       keys)
                    callback maxDepth state
              | NotIterable =>
                  throw (TypeError (str "node.children is not iterable"))
              | OutsideModel => fun w => (Untyped, w)
              end
      end
  end.

Definition breadthFirstTraverse_with {St} (fuel : nat)
    (pathArray : list jsstring) (callback : closure St)
    (maxDepth : option nat) (includeInternal : bool) (state : St) : M St :=
  breadth_loop_with fuel [(pathArray, 0%nat)] callback maxDepth state.

(** [traverse] with a closure for callback; the result is the state the
    closure leaves behind. *)
Definition traverse_with {St} (fuel : nat) (pathArray : list jsstring)
    (callback : closure St) (strat : strategy) (maxDepth : option nat)
    (includeInternal : bool) (state : St) : M St :=
  exists_ <- nodeExists pathArray ;;
  if negb exists_ then
    throw (Error (str "Starting node does not exist: " ++
                  join (str "/") pathArray))
  else
    match strat with
    | BreadthFirst =>
        breadthFirstTraverse_with fuel pathArray callback maxDepth
          includeInternal state
    | DepthFirst =>
        depthFirstTraverse_with fuel pathArray callback maxDepth
          includeInternal 0 state
    end.

(** A callback without a state, as a closure over nothing. *)
Definition stateless (callback : visitor) : closure unit :=
  fun node depth _ => (callback node depth, tt).

(** [findNodes(predicate, startPath)]: the state of the callback is the
    array [results]. *)
Definition findNodes (fuel : nat) (predicate : visitor)
    (startPath : list jsstring) : M (list snapshot) :=
  traverse_with fuel startPath
    (fun node depth results =>
       (JBool true,
        if truthy (predicate node depth) then results ++ [node] else results))
    DepthFirst None true [].

(** The variables [nodeCount], [leafCount], [maxDepth] and [totalSize]
    of [getStats]. *)
Record counters := {
  nodes : nat;
  leaves : nat;
  deepest : nat;
  totalSize : nat
}.

(** What [getStats] returns. *)
Record stats := {
  nodeCount : nat;
  leafCount : nat;
  internalNodeCount : Z;
  maxDepth : nat;
  estimatedSize : nat
}.

(** [children.length === 0]. *)
Definition length_is_zero (children : jsval) : bool :=
  match children with
  | JArr items => Nat.eqb (length items) 0
  | JStr s => Nat.eqb (length s) 0
  | JObj props =>
      match prop_get props (str "length") with
      | JNum 0 => true
      | _ => false
      end
  | _ => false
  end.

(** The callback of [getStats]. *)
Definition count_node : closure counters :=
  fun node depth state =>
    let valueSize :=
      if truthy (value node) then length (JSON_stringify (value node))
      else 0%nat in
    (JBool true,
     {| nodes := S (nodes state);
        leaves :=
          if length_is_zero (children node) then S (leaves state)
          else leaves state;
        deepest := Nat.max (deepest state) depth;
        totalSize := (totalSize state + valueSize)%nat |}).

(** [getStats(pathArray)]. *)
Definition getStats (fuel : nat) (pathArray : list jsstring) : M stats :=
  counted <-
    traverse_with fuel pathArray count_node DepthFirst None true
      {| nodes := 0; leaves := 0; deepest := 0; totalSize := 0 |} ;;
  ret {| nodeCount := nodes counted;
         leafCount := leaves counted;
         internalNodeCount :=
           (Z.of_nat (nodes counted) - Z.of_nat (leaves counted))%Z;
         maxDepth := deepest counted;
         estimatedSize := totalSize counted |}.

(** [exportTree(pathArray)]; the fuel bounds the depth of the recursion.
    The object returned is given by its own properties. *)
Fixpoint exportTree (fuel : nat) (pathArray : list jsstring) : M jsval :=
  match fuel with
  | O => fun w => (OutOfFuel, w)
  | S fuel =>
      node <- getNode pathArray ;;
      match for_of (children node) with
      | Keys keys =>
          exported <-
            for_each_with keys
              (fun childKey result_children =>
                 let childPath := pathArray ++ [childKey] in
                 child <- exportTree fuel childPath ;;
                 ret (prop_set result_children childKey child))
              [] ;;
          ret (JObj [(str "value", value node);
                     (str "children", JObj exported)])
      | NotIterable =>
          throw (TypeError (str "node.children is not iterable"))
      | OutsideModel => fun w => (Untyped, w)
      end
  end.

(** [treeData.value] and [treeData.children]: a property of an object,
    [undefined] on any other value but [null] and [undefined], where the
    runtime raises. *)
Definition member (treeData : jsval) (key : jsstring) : M jsval :=
  match treeData with
  | JNull =>
      throw (TypeError (str "Cannot read properties of null (reading '" ++
                        key ++ str "')"))
  | JUndefined =>
      throw (TypeError (str "Cannot read properties of undefined (reading '"
                        ++ key ++ str "')"))
  | JObj props => ret (prop_get props key)
  | _ => ret JUndefined
  end.

(** [Object.entries(children)] on a truthy value: the properties of an
    object, the items of an array and the characters of a string under
    their indices, and nothing for a number or a boolean. *)
Definition Object_entries (children : jsval) : list (jsstring * jsval) :=
  match children with
  | JObj props => props
  | JArr items =>
      imap (fun i item => (toString_radix false 10 (N.of_nat i), item)) items
  | JStr s =>
      imap (fun i c => (toString_radix false 10 (N.of_nat i), JStr [c])) s
  | _ => []
  end.

(** [importTree(treeData, pathArray)]; the fuel bounds the depth of the
    recursion. *)
Fixpoint importTree (fuel : nat) (treeData : jsval) (pathArray : list jsstring)
  : M unit :=
  match fuel with
  | O => fun w => (OutOfFuel, w)
  | S fuel =>
      match pathArray with
      | [] =>
          initializeRoot ;;
          value <- member treeData (str "value") ;;
          match value with
          | JUndefined => ret tt
          | _ => setValue [] value
          end
      | _ :: _ =>
          value <- member treeData (str "value") ;;
          createNode pathArray value
      end ;;
      children <- member treeData (str "children") ;;
      if truthy children then
        for_each (Object_entries children)
          (fun entry =>
             let '(childKey, childData) := entry in
             let childPath := pathArray ++ [childKey] in
             importTree fuel childData childPath)
      else ret tt
  end.

(** *** What the store holds *)

(** The list of children a record holds, as [addChildToParent] and
    [removeChildFromParent] read it: empty when the record is absent or
    holds a falsy value, and none when the record holds no JSON text or
    no array. *)
Definition stored_children (entries : gmap jsstring jsstring)
    (childrenKey : jsstring) : option (list jsval) :=
  match entries !! childrenKey with
  | None => Some []
  | Some text =>
      match JSON_parse text with
      | Parsed v =>
          match or_empty_array v with
          | JArr items => Some items
          | _ => None
          end
      | SyntaxError _ => None
      end
  end.

(** The children records of the store show the tree [t] below [p]: the
    record of each node holds the array of the keys of its children. *)
Fixpoint linked (entries : gmap jsstring jsstring) (p : list jsstring)
    (t : tree) : Prop :=
  match t with
  | Node _ subtrees =>
      (exists text,
         entries !! createStorageKey p (str "children") = Some text /\
         JSON_parse text
         = Parsed (JArr (List.map (fun kc => JStr (fst kc)) subtrees))) /\
      fold_right
        (fun kc rest => linked entries (p ++ [fst kc]) (snd kc) /\ rest)
        True subtrees
  end.

Definition linked_forest (entries : gmap jsstring jsstring) (f : forest)
  : Prop :=
  List.Forall (fun pt => linked entries (fst pt) (snd pt)) f.

(** The reads of the children records of a list of paths. *)
Definition children_gets (paths : list (list jsstring)) : list event :=
  List.map (fun p => KvGet (createStorageKey p (str "children"))) paths.

(** The three records of a node that is not the root, in the order
    [deleteSingleNode] deletes them. *)
Definition node_keys (p : list jsstring) : list jsstring :=
  [createStorageKey p (str "value"); createStorageKey p (str "children");
   createStorageKey p (str "parent")].

(** The store without the records of a list of nodes, and the deletions
    that take them away. *)
Definition erase (entries : gmap jsstring jsstring)
    (paths : list (list jsstring)) : gmap jsstring jsstring :=
  fold_left (fun m p => fold_left (fun m k => delete k m) (node_keys p) m)
    paths entries.

Definition erase_events (paths : list (list jsstring)) : list event :=
  flat_map (fun p => List.map KvDelete (node_keys p)) paths.

(** *** Stored trees and their walks *)

(** What [getNode] returns for the node at [p] of a tree. *)
Definition node_of (p : list jsstring) (t : tree) : snapshot :=
  match t with
  | Node v subtrees =>
      {| path := p; value := v;
         children := JArr (List.map (fun kc => JStr (fst kc)) subtrees);
         hasChildren := negb (Nat.eqb (length subtrees) 0) |}
  end.

(** The store holds the tree [t] below [p]: the value record of each
    node holds its value and its children record the keys of its
    children. *)
Fixpoint stored (entries : gmap jsstring jsstring) (p : list jsstring)
    (t : tree) : Prop :=
  match t with
  | Node v subtrees =>
      (exists text,
         entries !! createStorageKey p (str "value") = Some text /\
         JSON_parse text = Parsed v) /\
      (exists text,
         entries !! createStorageKey p (str "children")
         = Some text /\
         JSON_parse text
         = Parsed (JArr (List.map (fun kc => JStr (fst kc)) subtrees))) /\
      fold_right
        (fun kc rest => stored entries (p ++ [fst kc]) (snd kc) /\ rest)
        True subtrees
  end.

(** The events of a visit: the two reads of [getNode] and the call. *)
Definition visit_events (v : visit) : list event :=
  let '(node, depth, answer) := v in
  [KvGet (createStorageKey (path node) (str "value"));
   KvGet (createStorageKey (path node) (str "children"));
   Visited node depth answer].

(** A depth-first walk of a tree by a closure: the state it leaves and
    the visits it makes. *)
Fixpoint walk {St} (callback : closure St) (maxDepth : option nat)
    (p : list jsstring) (t : tree) (depth : nat) (state : St)
  : St * list visit :=
  if deeper depth maxDepth then (state, [])
  else
    let node := node_of p t in
    let '(answer, state) := callback node depth state in
    if is_false answer then (state, [(node, depth, answer)])
    else
      fold_left
        (fun acc kc =>
           let '(state, visits) :=
             walk callback maxDepth (p ++ [fst kc]) (snd kc) (S depth)
               (fst acc) in
           (state, snd acc ++ visits))
        (subtrees_of t) (state, [(node, depth, answer)]).

(** The nodes a depth-first traversal visits, with their depths: a node
    before its subtrees, nothing beyond the depth limit, and nothing
    below a node where the visitor answers [false]. *)
Fixpoint preorder (callback : visitor) (maxDepth : option nat)
    (p : list jsstring) (t : tree) (depth : nat) : list (snapshot * nat) :=
  if deeper depth maxDepth then []
  else
    (node_of p t, depth) ::
    if is_false (callback (node_of p t) depth) then []
    else
      flat_map
        (fun kc => preorder callback maxDepth (p ++ [fst kc]) (snd kc) (S depth))
        (subtrees_of t).

(** Every node of a tree with its depth, a node before its subtrees. *)
Definition all_nodes (p : list jsstring) (t : tree) (depth : nat)
  : list (snapshot * nat) :=
  preorder (fun _ _ => JBool true) None p t depth.

(** The leaves of a tree. *)
Fixpoint tree_leaves (t : tree) : nat :=
  match t with
  | Node _ [] => 1
  | Node _ subtrees =>
      fold_right (fun kc n => (tree_leaves (snd kc) + n)%nat) 0%nat subtrees
  end.

(** The size [getStats] estimates for a value. *)
Definition valueSize (v : jsval) : nat :=
  if truthy v then length (JSON_stringify v) else 0%nat.

Fixpoint tree_weight (t : tree) : nat :=
  match t with
  | Node v subtrees =>
      (valueSize v +
       fold_right (fun kc n => (tree_weight (snd kc) + n)%nat) 0%nat subtrees)%nat
  end.

(** What [exportTree] returns for a tree. *)
Fixpoint exported (t : tree) : jsval :=
  match t with
  | Node v subtrees =>
      JObj [(str "value", v);
            (str "children",
             JObj (fold_left
                     (fun result_children kc =>
                        prop_set result_children (fst kc) (exported (snd kc)))
                     subtrees []))]
  end.

(** The reads of [exportTree] on a tree: the two records of a node, then
    the reads of its subtrees in turn. *)
Fixpoint tree_reads (p : list jsstring) (t : tree) : list event :=
  [KvGet (createStorageKey p (str "value"));
   KvGet (createStorageKey p (str "children"))] ++
  flat_map (fun kc => tree_reads (p ++ [fst kc]) (snd kc)) (subtrees_of t).

(** The queue discipline, on trees: the nodes in the order in which they
    are queued. *)
Fixpoint queue_nodes (fuel : nat) (queue : forest) : forest :=
  match queue, fuel with
  | pt :: queue, S fuel => kids pt ++ queue_nodes fuel (queue ++ kids pt)
  | _, _ => []
  end.

(** The nodes of the next [depth] levels below a forest. *)
Fixpoint level_nodes (depth : nat) (f : forest) : forest :=
  match depth with
  | O => []
  | S depth =>
      let next := flat_map kids f in
      next ++ level_nodes depth next
  end.

(** The visit of a node of a traversal that started [base] segments
    deep. *)
Definition visit_of (callback : visitor) (base : nat)
    (pt : list jsstring * tree) : visit :=
  let node := node_of (fst pt) (snd pt) in
  let depth := (length (fst pt) - base)%nat in
  (node, depth, callback node depth).

(** The children of the export of a tree whose keys are kept as they
    are: each key with the export of its subtree. *)
Definition child_entries (subtrees : list (jsstring * tree))
  : list (jsstring * jsval) :=
  List.map (fun kc => (fst kc, exported (snd kc))) subtrees.

(** A tree whose records are read back as they are written: the text
    written for each value is parsed to the value, and the text written
    for each beginning of each list of children to that list. *)
Fixpoint round_trips (t : tree) : Prop :=
  match t with
  | Node v subtrees =>
      JSON_parse (default (str "null") (serializeValue v))
      = Parsed v /\
      (forall n,
         let keys := List.map JStr (take n (List.map fst subtrees)) in
         JSON_parse (JSON_stringify (JArr keys)) = Parsed (JArr keys)) /\
      fold_right (fun kc rest => round_trips (snd kc) /\ rest) True subtrees
  end.

(** The state of a loop that builds the children of the node at [np]
    one after the other, after the children [done]; [entries0] is the
    store after the node itself is created. *)
Definition built_children (np : list jsstring) (v : jsval)
    (entries0 entries : gmap jsstring jsstring)
    (done : list (jsstring * tree)) : Prop :=
  entries !! createStorageKey np (str "value")
  = Some (default (str "null") (serializeValue v)) /\
  (exists text,
     entries !! createStorageKey np (str "children") = Some text /\
     JSON_parse text = Parsed (JArr (List.map JStr (List.map fst done)))) /\
  List.Forall (fun kc => stored entries (np ++ [fst kc]) (snd kc)) done /\
  (forall q suffix,
     simple_path q -> ~ np `prefix_of` q ->
     entries !! createStorageKey q suffix
     = entries0 !! createStorageKey q suffix).

(** What a call leaves when it has built the tree [t] under the new key
    [k] of the node at [tp]. *)
Definition built (t : tree) (tp : list jsstring) (k : jsstring)
    (items : list jsval) (entries : gmap jsstring jsstring)
    (run : outcome unit * world) : Prop :=
  exists entries' events',
    run = (Ret tt, quiet entries' events') /\
    stored entries' (tp ++ [k]) t /\
    (exists text,
       entries' !! createStorageKey tp (str "children") = Some text /\
       JSON_parse text = Parsed (JArr (items ++ [JStr k]))) /\
    (forall q suffix,
       simple_path q -> ~ (tp ++ [k]) `prefix_of` q ->
       q <> tp \/ suffix <> str "children" ->
       entries' !! createStorageKey q suffix
       = entries !! createStorageKey q suffix).

(** What the lemma on [copySubtree] says for one amount of fuel. *)
Definition copies (fuel : nat) : Prop :=
  forall t s tp k items pv entries events,
  (tree_height t <= fuel)%nat ->
  stored entries s t -> well_keyed t -> round_trips t ->
  simple_path s -> simple_path (tp ++ [k]) ->
  ~ s `prefix_of` (tp ++ [k]) -> ~ (tp ++ [k]) `prefix_of` s ->
  entries !! createStorageKey tp (str "value") = Some pv ->
  stored_children entries (createStorageKey tp (str "children"))
  = Some items ->
  existsb (is_key k) items = false ->
  JSON_parse (JSON_stringify (JArr (items ++ [JStr k])))
  = Parsed (JArr (items ++ [JStr k])) ->
  built t tp k items entries (copySubtree fuel s tp k (quiet entries events)).

(** What the lemma on [importTree] says for one amount of fuel. *)
Definition imports (fuel : nat) : Prop :=
  forall t tp k items pv entries events,
  (tree_height t <= fuel)%nat ->
  well_keyed t -> plainly_keyed t -> round_trips t ->
  simple_path (tp ++ [k]) ->
  entries !! createStorageKey tp (str "value") = Some pv ->
  stored_children entries (createStorageKey tp (str "children"))
  = Some items ->
  existsb (is_key k) items = false ->
  JSON_parse (JSON_stringify (JArr (items ++ [JStr k])))
  = Parsed (JArr (items ++ [JStr k])) ->
  built t tp k items entries
    (importTree fuel (exported t) (tp ++ [k]) (quiet entries events)).

End Storage.

(** *** A small runtime for examples *)

(** A stand-in for the digest that is injective on strings of code units:
    the two bytes of each code unit. *)
Definition to_byte (n : N) : Byte.byte := default Byte.x00 (Byte.of_N n).

Definition demo_digest (s : jsstring) : list Byte.byte :=
  flat_map (fun c => [to_byte (c / 256); to_byte (c mod 256)]) s.

Definition quoted (s : jsstring) : jsstring := [34] ++ s ++ [34].

(** A JSON printer for values whose strings need no escape. *)
Fixpoint print_json (v : jsval) : jsstring :=
  match v with
  | JUndefined | JNull => str "null"
  | JBool true => str "true"
  | JBool false => str "false"
  | JNum n => Z_toString n
  | JStr s => quoted s
  | JArr items =>
      str "[" ++ join (str ",") (List.map print_json items) ++ str "]"
  | JObj props =>
      str "{" ++
      join (str ",")
        (List.map (fun kv => quoted (fst kv) ++ str ":" ++ print_json (snd kv))
           props) ++
      str "}"
  end.

(** A JSON parser that knows the texts of finitely many values. *)
Definition parse_among (known : list jsval) (text : jsstring) : parsed :=
  match List.find (fun v => str_eqb (print_json v) text) known with
  | Some v => Parsed v
  | None => SyntaxError (str "Unexpected token")
  end.

Definition demo_values : list jsval :=
  [JNull; JStr (str "v"); JStr (str "w"); JArr [];
   JArr [JStr (str "a")]; JArr [JStr (str "b")];
   JArr [JStr (str "a"); JStr (str "z")]; JArr [JStr (str "z")]].

Definition demo_parse : jsstring -> parsed := parse_among demo_values.

(** [new KVTreeStorage(kv)], and one that tries three times. *)
Definition demo_this : KVTreeStorage := constructor None None None.
Definition three_attempts : KVTreeStorage := constructor None (Some 3%Z) None.

Definition empty_world : world := quiet ∅ [].

(** A store with the root alone; and one with the root, a node [a] and
    its child [a/b]: what the calls of the engine leave behind. *)
Definition root_entries : gmap jsstring jsstring :=
  kv (snd (initializeRoot demo_digest print_json demo_parse demo_this
             empty_world)).

Definition demo_setup : M unit :=
  initializeRoot demo_digest print_json demo_parse demo_this ;;
  createNode demo_digest print_json demo_parse demo_this
    [str "a"] (JStr (str "v")) ;;
  createNode demo_digest print_json demo_parse demo_this
    [str "a"; str "b"] (JStr (str "w")).

Definition demo_entries : gmap jsstring jsstring :=
  kv (snd (demo_setup empty_world)).

(** The tree below [a] in [demo_entries]. *)
Definition demo_tree : tree :=
  Node (JStr (str "v")) [(str "b", Node (JStr (str "w")) [])].

(** An error of the store that is retried, and one that is not. *)
Definition rate_limited : error :=
  {| status := Some 429%Z; name := str "Error";
     message := str "Too many requests" |}.

Definition forbidden : error :=
  {| status := Some 403%Z; name := str "Error"; message := str "Forbidden" |}.

(** Visitors: one that answers [false] at [a] and [true] elsewhere, and
    one that never answers. *)
Definition stop_at_a : visitor :=
  fun node _ =>
    match path node with
    | [s] => JBool (negb (str_eqb s (str "a")))
    | _ => JBool true
    end.

Definition silent : visitor := fun _ _ => JUndefined.

(** The paths visited, in order. *)
Definition visited_paths (events : list event) : list (list jsstring) :=
  flat_map
    (fun ev => match ev with Visited node _ _ => [path node] | _ => [] end)
    events.

(** Two objects with the same properties in two orders. *)
Definition object_ba : list (jsstring * jsval) :=
  [(str "b", JNum 1); (str "a", JStr (str "x")); (str "10", JNull)].
Definition object_ab : list (jsstring * jsval) :=
  [(str "10", JNull); (str "a", JStr (str "x")); (str "b", JNum 1)].

(** The store refuses the fifteenth call: the copy of [a] to [z] has
    created [z] and fails on the first write for [z/b]. *)
Definition refusing_world : world :=
  {| kv := demo_entries;
     faults := repeat None 14 ++ [Some forbidden];
     trace := [] |}.

(** The whole tree of [demo_entries]. *)
Definition demo_root : tree := Node JNull [(str "a", demo_tree)].

(** A predicate that holds of the nodes with children. *)
Definition is_internal : visitor := fun node _ => JBool (hasChildren node).

(** An instance that allows no attempt. *)
Definition no_attempts : KVTreeStorage := constructor None (Some (-1)%Z) None.

(** Two properties, out of order. *)
Definition object_zy : list (jsstring * jsval) :=
  [(str "zeta", JNum 1); (str "alpha", JStr (str "x"))].


(** *** Properties *)

Section Properties.

Variable sha256 : jsstring -> list Byte.byte.
Variable JSON_stringify : jsval -> jsstring.
Variable JSON_parse : jsstring -> parsed.
Variable this : KVTreeStorage.

Abbreviation key := (createStorageKey sha256 this).
Abbreviation serialize := (serializeValue JSON_stringify).
Abbreviation exists_ := (nodeExists sha256 this).
Abbreviation delete_ := (deleteNode sha256 JSON_stringify JSON_parse this).
Abbreviation copy_ := (copySubtree sha256 JSON_stringify JSON_parse this).
Abbreviation move_ := (moveNode sha256 JSON_stringify JSON_parse this).
Abbreviation stored_children_ := (stored_children JSON_parse).
Abbreviation linked_ := (linked sha256 JSON_parse this).
Abbreviation linked_forest_ := (linked_forest sha256 JSON_parse this).
Abbreviation children_gets_ := (children_gets sha256 this).
Abbreviation erase_ := (erase sha256 this).
Abbreviation erase_events_ := (erase_events sha256 this).

(** **** Runs in a quiet world *)

Lemma kv_get_quiet key entries events :
  kv_get key (quiet entries events)
  = (Ret (entries !! key), quiet entries (events ++ [KvGet key])).
Proof. reflexivity. Qed.

Lemma kv_put_quiet key v entries events :
  kv_put key v (quiet entries events)
  = (Ret tt, quiet (<[key := default (str "null") v]> entries)
               (events ++ [KvPut key v])).
Proof. reflexivity. Qed.

Lemma kv_delete_quiet key entries events :
  kv_delete key (quiet entries events)
  = (Ret tt, quiet (delete key entries) (events ++ [KvDelete key])).
Proof. reflexivity. Qed.

(** An operation that succeeds at once is run once. *)
Lemma withRetry_ret {A} (operation : M A) context w a w' :
  (1 <= maxRetries this)%Z ->
  operation w = (Ret a, w') ->
  withRetry this operation context w = (Ret a, w').
Proof.
  intros Hmax Hop. unfold withRetry.
  destruct (Z.to_nat (maxRetries this)) as [|n] eqn:E; [lia|].
  cbn [retry_loop]. unfold try_catch. now rewrite Hop.
Qed.

(** An operation that fails with an error that is not retried fails. *)
Lemma withRetry_throw_final {A} (operation : M A) context w e w' :
  (1 <= maxRetries this)%Z ->
  operation w = (Throw e, w') ->
  isRetryableError e = false ->
  withRetry this operation context w = (Throw e, w').
Proof.
  intros Hmax Hop He. unfold withRetry.
  destruct (Z.to_nat (maxRetries this)) as [|n] eqn:E; [lia|].
  cbn [retry_loop]. unfold try_catch. rewrite Hop, He. reflexivity.
Qed.

(** C8: [nodeExists] never raises; it returns [true] exactly when the
    [get] of the value record completes without error and yields a text,
    and [false] both when the record is absent and when the [get]
    raises. *)
Theorem nodeExists_total (pathArray : list jsstring) (w : world) :
  exists b : bool,
    fst (nodeExists sha256 this pathArray w) = Ret b /\
    (b = true <->
     exists text,
       fst (kv_get (createStorageKey sha256 this pathArray (str "value")) w)
       = Ret (Some text)) /\
    (fst (kv_get (createStorageKey sha256 this pathArray (str "value")) w)
     = Ret None -> b = false) /\
    (forall e,
       fst (kv_get (createStorageKey sha256 this pathArray (str "value")) w)
       = Throw e -> b = false).
Proof.
  unfold nodeExists, try_catch, bind, ret.
  set (key := createStorageKey sha256 this pathArray (str "value")).
  unfold kv_get. destruct (next_fault (log (KvGet key) w)) as [[e|] w'].
  - exists false. cbn. repeat split; try discriminate; auto.
    intros [text H]. discriminate H.
  - destruct (kv w' !! key) as [text|] eqn:E.
    + exists true. cbn. repeat split; try discriminate; eauto.
    + exists false. cbn. repeat split; try discriminate; auto.
      intros [text H]. discriminate H.
Qed.

(** **** The retry loop *)

Section Retry.

Context {A : Type}.
Variables (operation : M A) (context : jsstring).

(** Two failures that may be retried, then a success: the result is the
    success, after three runs of the operation and two pauses. *)
Lemma withRetry_third_attempt w0 e1 w1 e2 w2 a w3 :
  (3 <= maxRetries this)%Z ->
  operation w0 = (Throw e1, w1) -> isRetryableError e1 = true ->
  operation (log (Sleep 0) w1) = (Throw e2, w2) ->
  isRetryableError e2 = true ->
  operation (log (Sleep 1) w2) = (Ret a, w3) ->
  withRetry this operation context w0 = (Ret a, w3).
Proof.
  intros Hmax H1 R1 H2 R2 H3. unfold withRetry.
  destruct (Z.to_nat (maxRetries this)) as [|[|[|n]]] eqn:E; try lia.
  cbn [retry_loop]. unfold try_catch, bind, sleep.
  rewrite H1, R1.
  destruct (Z.ltb_spec (Z.of_nat 0) (maxRetries this - 1)); [|lia].
  cbn [andb]. rewrite H2, R2.
  destruct (Z.ltb_spec (Z.of_nat 1) (maxRetries this - 1)); [|lia].
  cbn [andb]. now rewrite H3.
Qed.

(** When every run of the operation fails with an error that may be
    retried, the loop runs the operation as many times as are left and
    ends by throwing what the last run threw, as it is. *)
Lemma retry_loop_exhausted (remaining : nat) :
  (forall w, exists e w', operation w = (Throw e, w') /\
                          isRetryableError e = true) ->
  forall attempt lastError w,
  Z.of_nat (attempt + S remaining) = maxRetries this ->
  exists e w0 w',
    retry_loop this (S remaining) attempt lastError operation context w
    = (Throw e, w') /\
    operation w0 = (Throw e, w').
Proof.
  intros Hfail. induction remaining as [|r IH]; intros attempt lastError w Hn.
  - destruct (Hfail w) as (e & w' & Hop & Hre).
    exists e, w, w'. split; [|assumption].
    cbn [retry_loop]. unfold try_catch. rewrite Hop, Hre.
    destruct (Z.ltb_spec (Z.of_nat attempt) (maxRetries this - 1)); [lia|].
    reflexivity.
  - destruct (Hfail w) as (e & w' & Hop & Hre).
    destruct (IH (S attempt) (Some e) (log (Sleep attempt) w'))
      as (e' & w0 & w'' & Hloop & Hlast); [lia|].
    exists e', w0, w''. split; [|assumption].
    cbn [retry_loop]. unfold try_catch at 1. rewrite Hop, Hre.
    destruct (Z.ltb_spec (Z.of_nat attempt) (maxRetries this - 1)); [|lia].
    cbn [andb]. unfold bind at 1, sleep at 1. exact Hloop.
Qed.

End Retry.

(** **** Keys *)

Lemma str_eqb_eq (s1 s2 : jsstring) : str_eqb s1 s2 = true <-> s1 = s2.
Proof.
  revert s2. induction s1 as [|c1 t1 IH]; intros [|c2 t2]; cbn;
    try (split; (discriminate || reflexivity)).
  rewrite andb_true_iff, N.eqb_eq, IH. split.
  - now intros [-> ->].
  - now intros [= -> ->].
Qed.

Lemma str_eqb_refl (s : jsstring) : str_eqb s s = true.
Proof. now apply str_eqb_eq. Qed.

Lemma byte_hex_spec (b : Byte.byte) :
  length (byte_hex b) = 2%nat /\ parseInt 16 (byte_hex b) = Byte.to_N b.
Proof. destruct b; split; vm_compute; reflexivity. Qed.

Lemma byte_hex_inj (b1 b2 : Byte.byte) : byte_hex b1 = byte_hex b2 -> b1 = b2.
Proof.
  intros H.
  assert (E : Byte.to_N b1 = Byte.to_N b2).
  { rewrite <- (proj2 (byte_hex_spec b1)), <- (proj2 (byte_hex_spec b2)).
    now rewrite H. }
  apply (f_equal Byte.of_N) in E. rewrite !Byte.of_to_N in E. congruence.
Qed.

Lemma hex_bytes_inj (l1 l2 : list Byte.byte) :
  List.concat (List.map byte_hex l1) = List.concat (List.map byte_hex l2) ->
  l1 = l2.
Proof.
  revert l2. induction l1 as [|b1 l1 IH]; intros [|b2 l2] H;
    cbn [List.map List.concat] in H.
  - reflexivity.
  - pose proof (proj1 (byte_hex_spec b2)) as L.
    destruct (byte_hex b2); cbn in L, H; [discriminate L|discriminate H].
  - pose proof (proj1 (byte_hex_spec b1)) as L.
    destruct (byte_hex b1); cbn in L, H; [discriminate L|discriminate H].
  - pose proof (proj1 (byte_hex_spec b1)) as L1.
    pose proof (proj1 (byte_hex_spec b2)) as L2.
    apply app_inj_1 in H; [|congruence].
    destruct H as [Hb Hl]. f_equal; [now apply byte_hex_inj|now apply IH].
Qed.

(** What follows a segment in a joined path: nothing, or the separator. *)
Lemma segment_split (s t r1 r2 : jsstring) :
  colon_free s -> colon_free t ->
  (r1 = [] \/ exists r, r1 = ch ":" :: r) ->
  (r2 = [] \/ exists r, r2 = ch ":" :: r) ->
  s ++ r1 = t ++ r2 -> s = t /\ r1 = r2.
Proof.
  unfold colon_free. revert t.
  induction s as [|c s IH]; intros [|d t] Hs Ht H1 H2 E; cbn in *.
  - auto.
  - destruct H1 as [->|[r ->]]; [discriminate|].
    injection E as <- _. exfalso. apply Ht. now left.
  - destruct H2 as [->|[r ->]]; [discriminate|].
    injection E as -> _. exfalso. apply Hs. now left.
  - injection E as -> E.
    destruct (IH t) with (5 := E) as [-> ->]; auto.
Qed.

Lemma join_sep_cons (sep s : jsstring) (rest : list jsstring) :
  join sep (s :: rest)
  = s ++ match rest with [] => [] | _ :: _ => sep ++ join sep rest end.
Proof. destruct rest; cbn [join]; [now rewrite app_nil_r|reflexivity]. Qed.

Lemma join_colons_inj (p q : list jsstring) :
  p <> [] -> q <> [] ->
  List.Forall colon_free p -> List.Forall colon_free q ->
  join (str "::") p = join (str "::") q -> p = q.
Proof.
  revert q. induction p as [|s p IH]; intros [|t q] Hp Hq Fp Fq E;
    try contradiction.
  inversion_clear Fp as [|? ? Hs Fp']. inversion_clear Fq as [|? ? Ht Fq'].
  rewrite !join_sep_cons in E.
  apply segment_split in E; try assumption.
  - destruct E as [-> E]. f_equal.
    destruct p as [|s' p], q as [|t' q]; try discriminate; [reflexivity|].
    apply IH; try assumption; try discriminate.
    now injection E.
  - destruct p; [now left|right]. eexists. reflexivity.
  - destruct q; [now left|right]. eexists. reflexivity.
Qed.

Lemma join_wf (sep : jsstring) (p : list jsstring) :
  wf_string sep -> List.Forall wf_string p -> wf_string (join sep p).
Proof.
  intros Hsep. induction 1 as [|s p Hs _ IH]; [constructor|].
  rewrite join_sep_cons. apply List.Forall_app. split; [assumption|].
  destruct p; [constructor|]. apply List.Forall_app. now split.
Qed.


(** *** The order of keys *)

Lemma str_leb_total (s1 s2 : jsstring) :
  str_leb s1 s2 = true \/ str_leb s2 s1 = true.
Proof.
  revert s2. induction s1 as [|c1 t1 IH]; intros [|c2 t2]; cbn; auto.
  destruct (N.ltb_spec c1 c2), (N.ltb_spec c2 c1); cbn; auto; try lia.
  assert (c1 = c2) as -> by lia. rewrite N.eqb_refl. cbn. apply IH.
Qed.

Lemma str_leb_antisym (s1 s2 : jsstring) :
  str_leb s1 s2 = true -> str_leb s2 s1 = true -> s1 = s2.
Proof.
  revert s2. induction s1 as [|c1 t1 IH]; intros [|c2 t2]; cbn;
    try discriminate; [reflexivity|].
  destruct (N.ltb_spec c1 c2), (N.ltb_spec c2 c1); cbn; try lia;
    destruct (N.eqb_spec c1 c2), (N.eqb_spec c2 c1); cbn;
    try discriminate; try lia.
  intros H1 H2. subst. f_equal. now apply IH.
Qed.

Lemma str_leb_trans (s1 s2 s3 : jsstring) :
  str_leb s1 s2 = true -> str_leb s2 s3 = true -> str_leb s1 s3 = true.
Proof.
  revert s2 s3.
  induction s1 as [|c1 t1 IH]; intros [|c2 t2] [|c3 t3]; cbn;
    try discriminate; try reflexivity.
  destruct (N.ltb_spec c1 c2), (N.ltb_spec c2 c3), (N.ltb_spec c1 c3); cbn;
    try reflexivity; try lia;
    destruct (N.eqb_spec c1 c2), (N.eqb_spec c2 c3), (N.eqb_spec c1 c3); cbn;
    try discriminate; try lia.
  apply IH.
Qed.

#[local] Instance str_le_total : Total str_le.
Proof. intros s1 s2. apply str_leb_total. Qed.

#[local] Instance str_le_trans : Transitive str_le.
Proof. intros s1 s2 s3. apply str_leb_trans. Qed.

#[local] Instance str_le_antisym : AntiSymm (=) str_le.
Proof. intros s1 s2. apply str_leb_antisym. Qed.

(** Sorting forgets the order the keys came in. *)
Lemma sort_permutation (keys1 keys2 : list jsstring) :
  keys1 ≡ₚ keys2 -> sort keys1 = sort keys2.
Proof.
  intros Hperm. unfold sort. apply (Sorted_unique str_le).
  - apply Sorted_merge_sort, _.
  - apply Sorted_merge_sort, _.
  - now rewrite !merge_sort_Permutation.
Qed.

(** Reading a property does not depend on the order of the properties,
    when no key occurs twice. *)
Lemma prop_get_permutation (props1 props2 : list (jsstring * jsval)) :
  props1 ≡ₚ props2 -> List.NoDup (List.map fst props1) ->
  forall key, prop_get props1 key = prop_get props2 key.
Proof.
  induction 1 as [|[k v] l1 l2 _ IH|[k1 v1] [k2 v2] l|l1 l2 l3 H12 IH12 H23 IH23];
    intros Hnd key.
  - reflexivity.
  - cbn. inversion_clear Hnd. now rewrite IH.
  - cbn. destruct (str_eqb k1 key) eqn:E1, (str_eqb k2 key) eqn:E2;
      try reflexivity.
    apply str_eqb_eq in E1, E2. subst.
    inversion_clear Hnd as [|? ? Hin _]. exfalso. apply Hin. now left.
  - rewrite IH12 by assumption. apply IH23.
    eapply Permutation_NoDup; [|exact Hnd]. now apply Permutation_map.
Qed.

Lemma fold_left_pointwise {X Y} (f g : X -> Y -> X) (l : list Y) :
  (forall a y, f a y = g a y) ->
  forall a, fold_left f l a = fold_left g l a.
Proof.
  intros Hfg. induction l as [|y l IH]; intros a; [reflexivity|].
  cbn. now rewrite Hfg, IH.
Qed.


(** **** Nodes *)

Section Quiet.

Hypothesis retries_positive : (1 <= maxRetries this)%Z.

Lemma nodeExists_quiet pathArray entries events :
  nodeExists sha256 this pathArray (quiet entries events)
  = (Ret (negb (is_null (entries !! key pathArray (str "value")))),
     quiet entries (events ++ [KvGet (key pathArray (str "value"))])).
Proof. reflexivity. Qed.

Lemma withRetry_get_quiet k context entries events :
  withRetry this (kv_get k) context (quiet entries events)
  = (Ret (entries !! k), quiet entries (events ++ [KvGet k])).
Proof. now apply withRetry_ret. Qed.

Lemma withRetry_put_quiet k v context entries events :
  withRetry this (kv_put k v) context (quiet entries events)
  = (Ret tt, quiet (<[k := default (str "null") v]> entries)
               (events ++ [KvPut k v])).
Proof. now apply withRetry_ret. Qed.

Lemma withRetry_delete_quiet k context entries events :
  withRetry this (kv_delete k) context (quiet entries events)
  = (Ret tt, quiet (delete k entries) (events ++ [KvDelete k])).
Proof. now apply withRetry_ret. Qed.

Lemma deserialize_stored entries k items :
  stored_children_ entries k = Some items ->
  exists v, (forall w, deserializeValue JSON_parse (entries !! k) w = (Ret v, w))
            /\ or_empty_array v = JArr items.
Proof.
  unfold stored_children, deserializeValue.
  destruct (entries !! k) as [text|].
  - destruct (JSON_parse text) as [v|msg]; [|discriminate].
    destruct (or_empty_array v) eqn:E; try discriminate.
    intros [= <-]. now exists v.
  - intros [= <-]. now exists JNull.
Qed.

Lemma addChildToParent_quiet parentPath childKey entries events items :
  stored_children_ entries (key parentPath (str "children")) = Some items ->
  addChildToParent sha256 JSON_stringify JSON_parse this parentPath childKey
    (quiet entries events)
  = (Ret tt,
     if existsb (is_key childKey) items
     then quiet entries (events ++ [KvGet (key parentPath (str "children"))])
     else
       quiet
         (<[key parentPath (str "children") :=
              JSON_stringify (JArr (items ++ [JStr childKey]))]> entries)
         (events ++
          [KvGet (key parentPath (str "children"));
           KvPut (key parentPath (str "children"))
             (Some (JSON_stringify (JArr (items ++ [JStr childKey]))))])).
Proof.
  intros Hstored.
  destruct (deserialize_stored _ _ _ Hstored) as (v & Hv & Harr).
  unfold addChildToParent, bind.
  rewrite withRetry_get_quiet, Hv, Harr.
  destruct (existsb (is_key childKey) items); cbn [negb]; [reflexivity|].
  rewrite withRetry_put_quiet. cbn [serialize default].
  now rewrite <- app_assoc.
Qed.

(** C5: in a world where the store raises nothing, [createNode] fails
    when the path is the root and the root's value record is there, fails
    when the path is not the root and its parent's value record is not
    there, and otherwise writes, in this order, the value record, the
    parent-pointer record (not for the root), an empty children record,
    and then (not for the root) reads the parent's children list and
    writes it back with the last segment added, unless the segment is in
    it already. *)
Theorem createNode_spec (pathArray : list jsstring) (value : jsval)
    (entries : gmap jsstring jsstring) (events : list event) :
  let valueKey := key pathArray (str "value") in
  let parentKey := key pathArray (str "parent") in
  let childrenKey := key pathArray (str "children") in
  let run :=
    createNode sha256 JSON_stringify JSON_parse this pathArray value
      (quiet entries events) in
  match pathArray with
  | [] =>
      match entries !! valueKey with
      | Some _ =>
          run = (Throw (Error (str "Root node already exists")),
                 quiet entries (events ++ [KvGet valueKey]))
      | None =>
          run = (Ret tt,
                 quiet
                   (<[childrenKey := JSON_stringify (JArr [])]>
                      (<[valueKey := default (str "null") (serialize value)]>
                         entries))
                   (events ++
                    [KvGet valueKey; KvPut valueKey (serialize value);
                     KvPut childrenKey (serialize (JArr []))]))
      end
  | first :: _ =>
      let parentPath := parent_of pathArray in
      let childKey := List.last pathArray first in
      let parentValueKey := key parentPath (str "value") in
      let parentChildrenKey := key parentPath (str "children") in
      match entries !! parentValueKey with
      | None =>
          run = (Throw (Error (str "Parent node does not exist: " ++
                               join (str "/") parentPath)),
                 quiet entries (events ++ [KvGet parentValueKey]))
      | Some _ =>
          let written :=
            <[childrenKey := JSON_stringify (JArr [])]>
              (<[parentKey := JSON_stringify (path_value parentPath)]>
                 (<[valueKey := default (str "null") (serialize value)]>
                    entries)) in
          let writes :=
            [KvGet parentValueKey; KvPut valueKey (serialize value);
             KvPut parentKey (serialize (path_value parentPath));
             KvPut childrenKey (serialize (JArr []));
             KvGet parentChildrenKey] in
          forall items,
            stored_children_ written parentChildrenKey = Some items ->
            run =
            (Ret tt,
             if existsb (is_key childKey) items
             then quiet written (events ++ writes)
             else
               quiet
                 (<[parentChildrenKey :=
                      JSON_stringify (JArr (items ++ [JStr childKey]))]>
                    written)
                 (events ++ writes ++
                  [KvPut parentChildrenKey
                     (serialize (JArr (items ++ [JStr childKey])))]))
      end
  end.
Proof.
  destruct pathArray as [|first rest]; cbv zeta.
  - unfold createNode, bind. rewrite nodeExists_quiet.
    destruct (entries !! key [] (str "value")); cbn [is_null negb].
    + reflexivity.
    + cbv [ret]. erewrite withRetry_ret; [reflexivity|assumption|].
      unfold bind. rewrite !kv_put_quiet. cbv [ret].
      now rewrite <- !app_assoc.
  - unfold createNode, bind. cbv iota. rewrite nodeExists_quiet.
    destruct (entries !! key (parent_of (first :: rest)) (str "value"));
      cbn [is_null negb].
    + intros items Hitems. cbv [ret].
      erewrite withRetry_ret; [reflexivity|assumption|].
      unfold bind. rewrite !kv_put_quiet.
      cbn [serializeValue path_value default].
      erewrite addChildToParent_quiet by exact Hitems.
      destruct (existsb _ items); now rewrite <- !app_assoc.
    + reflexivity.
Qed.

(** C10: in a world where the store raises nothing, [getNode] raises the
    not-found error when the value record is absent, and when the children
    record is absent (the value record, if there, holding JSON); otherwise,
    when both records hold JSON and the children record holds an array, it
    returns the path, the two parsed values, and whether the array is
    non-empty. *)
Theorem getNode_spec (pathArray : list jsstring)
    (entries : gmap jsstring jsstring) (events : list event) :
  let valueKey := key pathArray (str "value") in
  let childrenKey := key pathArray (str "children") in
  let run := getNode sha256 JSON_parse this pathArray (quiet entries events) in
  (entries !! valueKey = None -> fst run = Throw (not_found pathArray)) /\
  (entries !! childrenKey = None ->
   (forall text, entries !! valueKey = Some text ->
                 exists v, JSON_parse text = Parsed v) ->
   fst run = Throw (not_found pathArray)) /\
  (forall valueText childrenText v items,
     entries !! valueKey = Some valueText ->
     entries !! childrenKey = Some childrenText ->
     JSON_parse valueText = Parsed v ->
     JSON_parse childrenText = Parsed (JArr items) ->
     fst run =
     Ret {| path := pathArray; value := v; children := JArr items;
            hasChildren := negb (Nat.eqb (length items) 0) |}).
Proof.
  cbv zeta. unfold getNode, bind, promise_all2, getValue, getChildren, bind.
  rewrite withRetry_get_quiet. split; [|split].
  - intros ->. cbv [throw]. rewrite withRetry_get_quiet.
    destruct (entries !! key pathArray (str "children")) as [t|];
      [|reflexivity].
    unfold deserializeValue. now destruct (JSON_parse t).
  - intros Ec Hjson.
    destruct (entries !! key pathArray (str "value")) as [valueText|] eqn:Ev.
    + destruct (Hjson valueText eq_refl) as [v Hv].
      unfold deserializeValue. rewrite Hv. cbv [ret].
      now rewrite withRetry_get_quiet, Ec.
    + cbv [throw]. now rewrite withRetry_get_quiet, Ec.
  - intros valueText childrenText v items Ev Ec Hv Hc.
    rewrite Ev. unfold deserializeValue. rewrite Hv. cbv [ret].
    rewrite withRetry_get_quiet, Ec, Hc. reflexivity.
Qed.

Lemma strings_of_keys (keys : list jsstring) :
  strings_of (List.map JStr keys) = Some keys.
Proof.
  induction keys as [|k keys IH]; [reflexivity|]. cbn. now rewrite IH.
Qed.

Lemma getNode_quiet (pathArray : list jsstring) entries events
    valueText childrenText v items :
  entries !! key pathArray (str "value") = Some valueText ->
  entries !! key pathArray (str "children") = Some childrenText ->
  JSON_parse valueText = Parsed v ->
  JSON_parse childrenText = Parsed (JArr items) ->
  getNode sha256 JSON_parse this pathArray (quiet entries events)
  = (Ret {| path := pathArray; value := v; children := JArr items;
            hasChildren := negb (Nat.eqb (length items) 0) |},
     quiet entries
       (events ++ [KvGet (key pathArray (str "value"));
                   KvGet (key pathArray (str "children"))])).
Proof.
  intros Ev Ec Hv Hc.
  unfold getNode, bind, promise_all2, getValue, getChildren, bind.
  rewrite withRetry_get_quiet, Ev. unfold deserializeValue.
  rewrite Hv. cbv [ret]. rewrite withRetry_get_quiet, Ec, Hc. cbn.
  now rewrite <- app_assoc.
Qed.

Lemma parent_of_child (parentPath : list jsstring) (childKey : jsstring) :
  parent_of (parentPath ++ [childKey]) = parentPath.
Proof. apply removelast_last. Qed.

(** The writes of [createNode] for a child of an existing node. *)
Lemma createNode_child_quiet (parentPath : list jsstring)
    (childKey : jsstring) (value : jsval) entries events items parentValue :
  let pathArray := parentPath ++ [childKey] in
  let written :=
    <[key pathArray (str "children") := JSON_stringify (JArr [])]>
      (<[key pathArray (str "parent") :=
           JSON_stringify (path_value parentPath)]>
         (<[key pathArray (str "value") :=
              default (str "null") (serialize value)]> entries)) in
  let writes :=
    [KvGet (key parentPath (str "value"));
     KvPut (key pathArray (str "value")) (serialize value);
     KvPut (key pathArray (str "parent")) (serialize (path_value parentPath));
     KvPut (key pathArray (str "children")) (serialize (JArr []));
     KvGet (key parentPath (str "children"))] in
  entries !! key parentPath (str "value") = Some parentValue ->
  stored_children_ written (key parentPath (str "children")) = Some items ->
  createNode sha256 JSON_stringify JSON_parse this pathArray value
    (quiet entries events)
  = (Ret tt,
     if existsb (is_key childKey) items
     then quiet written (events ++ writes)
     else
       quiet
         (<[key parentPath (str "children") :=
              JSON_stringify (JArr (items ++ [JStr childKey]))]> written)
         (events ++ writes ++
          [KvPut (key parentPath (str "children"))
             (serialize (JArr (items ++ [JStr childKey])))])).
Proof.
  cbv zeta. intros Hparent Hitems.
  assert (Hlast : forall first,
            List.last (parentPath ++ [childKey]) first = childKey)
    by (intros first; apply List.last_last).
  unfold createNode.
  destruct (parentPath ++ [childKey]) as [|first rest] eqn:Epath;
    [now destruct parentPath|].
  rewrite <- Epath in *. rewrite !parent_of_child, Hlast.
  unfold bind at 1. unfold bind at 1.
  rewrite nodeExists_quiet, Hparent. cbn [is_null negb]. cbv [ret].
  erewrite withRetry_ret; [reflexivity|assumption|].
  unfold bind. rewrite !kv_put_quiet.
  cbn [serializeValue path_value default].
  erewrite addChildToParent_quiet by exact Hitems.
  destruct (existsb _ items); now rewrite <- !app_assoc.
Qed.

(** One step of [copySubtree]: the source node is read, the destination
    is created with its value, and then the children are copied in the
    order of the children list. *)
Lemma copySubtree_node_quiet (fuel : nat)
    (sourcePath targetParentPath : list jsstring) (newKey : jsstring)
    entries events valueText childrenText v keys parentValue items :
  let newPath := targetParentPath ++ [newKey] in
  let written :=
    <[key newPath (str "children") := JSON_stringify (JArr [])]>
      (<[key newPath (str "parent") :=
           JSON_stringify (path_value targetParentPath)]>
         (<[key newPath (str "value") :=
              default (str "null") (serialize v)]> entries)) in
  let reads_and_writes :=
    [KvGet (key sourcePath (str "value"));
     KvGet (key sourcePath (str "children"));
     KvGet (key targetParentPath (str "value"));
     KvPut (key newPath (str "value")) (serialize v);
     KvPut (key newPath (str "parent"))
       (serialize (path_value targetParentPath));
     KvPut (key newPath (str "children")) (serialize (JArr []));
     KvGet (key targetParentPath (str "children"))] in
  entries !! key sourcePath (str "value") = Some valueText ->
  entries !! key sourcePath (str "children") = Some childrenText ->
  JSON_parse valueText = Parsed v ->
  JSON_parse childrenText = Parsed (JArr (List.map JStr keys)) ->
  entries !! key targetParentPath (str "value") = Some parentValue ->
  stored_children_ written (key targetParentPath (str "children"))
  = Some items ->
  copy_ (S fuel) sourcePath targetParentPath newKey (quiet entries events)
  = for_each keys
      (fun childKey =>
         copy_ fuel (sourcePath ++ [childKey]) newPath childKey)
      (if existsb (is_key newKey) items
       then quiet written (events ++ reads_and_writes)
       else
         quiet
           (<[key targetParentPath (str "children") :=
                JSON_stringify (JArr (items ++ [JStr newKey]))]> written)
           (events ++ reads_and_writes ++
            [KvPut (key targetParentPath (str "children"))
               (serialize (JArr (items ++ [JStr newKey])))])).
Proof.
  cbv zeta. intros Ev Ec Hv Hc Hparent Hitems.
  cbn [copySubtree]. unfold bind at 1.
  erewrite getNode_quiet by eassumption. cbn [value children].
  unfold bind at 1.
  erewrite createNode_child_quiet by eassumption.
  unfold for_of. rewrite strings_of_keys.
  destruct (existsb _ items); now rewrite <- !app_assoc.
Qed.

(** **** Deletion *)

Lemma forest_size_app (f g : forest) :
  forest_size (f ++ g) = (forest_size f + forest_size g)%nat.
Proof.
  unfold forest_size.
  induction f as [|pt f IH]; [reflexivity|]. cbn. rewrite IH. lia.
Qed.

Lemma forest_size_kids (pt : list jsstring * tree) :
  tree_size (snd pt) = S (forest_size (kids pt)).
Proof.
  destruct pt as [p [v subtrees]]. cbn. f_equal. unfold kids. cbn.
  induction subtrees as [|kc subtrees IH]; [reflexivity|].
  cbn. now rewrite IH.
Qed.

Lemma forest_size_flat_kids (f : forest) :
  forest_size f = (length f + forest_size (flat_map kids f))%nat.
Proof.
  induction f as [|pt f IH]; [reflexivity|].
  cbn [forest_size fold_right flat_map length].
  rewrite forest_size_app, forest_size_kids. fold (forest_size f). lia.
Qed.

Lemma forest_height_app (f g : forest) :
  forest_height (f ++ g) = Nat.max (forest_height f) (forest_height g).
Proof.
  unfold forest_height.
  induction f as [|pt f IH]; [reflexivity|]. cbn. rewrite IH. lia.
Qed.

Lemma forest_height_kids (pt : list jsstring * tree) :
  tree_height (snd pt) = S (forest_height (kids pt)).
Proof.
  destruct pt as [p [v subtrees]]. cbn. f_equal. unfold kids. cbn.
  induction subtrees as [|kc subtrees IH]; [reflexivity|].
  cbn. now rewrite IH.
Qed.

Lemma forest_height_flat_kids (f : forest) :
  forest_height (flat_map kids f) = Nat.pred (forest_height f).
Proof.
  induction f as [|pt f IH]; [reflexivity|].
  cbn [forest_height fold_right flat_map].
  rewrite forest_height_app, IH, forest_height_kids.
  fold (forest_height f). lia.
Qed.

(** Working through the front of the queue puts its children behind
    everything that was queued. *)
Lemma queue_order_front (front : forest) : forall fuel back,
  queue_order (length front + fuel) (front ++ back)
  = List.map fst (flat_map kids front)
    ++ queue_order fuel (back ++ flat_map kids front).
Proof.
  induction front as [|pt front IH]; intros fuel back.
  - cbn. now rewrite app_nil_r.
  - cbn [length Nat.add app queue_order flat_map].
    rewrite <- app_assoc, IH, List.map_app, <- !app_assoc. reflexivity.
Qed.

Lemma queue_order_nil_forest (fuel : nat) : queue_order fuel [] = [].
Proof. now destruct fuel. Qed.

(** The queue discipline visits level by level. *)
Lemma queue_order_levels (depth : nat) : forall fuel f,
  (forest_height f <= depth)%nat -> (forest_size f <= fuel)%nat ->
  queue_order fuel f = levels depth f.
Proof.
  induction depth as [|depth IH]; intros fuel f Hh Hs.
  - destruct f as [|pt f]; [apply queue_order_nil_forest|].
    cbn in Hh. pose proof (forest_height_kids pt). lia.
  - pose proof (forest_size_flat_kids f) as Hsize.
    pose proof (queue_order_front f (fuel - length f) []) as Hq.
    rewrite app_nil_r in Hq. cbn [app] in Hq.
    replace (length f + (fuel - length f))%nat with fuel in Hq by lia.
    rewrite Hq. cbn [levels]. f_equal. apply IH.
    + rewrite forest_height_flat_kids. lia.
    + lia.
Qed.

Lemma linked_kids entries pt :
  linked_ entries (fst pt) (snd pt) -> linked_forest_ entries (kids pt).
Proof.
  destruct pt as [p [v subtrees]]. cbn [fst snd linked]. intros [_ H].
  unfold linked_forest, kids. cbn [fst snd subtrees_of].
  induction subtrees as [|kc subtrees IH]; [constructor|].
  cbn in H. destruct H as [Hkc H]. constructor; [exact Hkc|now apply IH].
Qed.

Lemma getChildren_linked entries events pt :
  linked_ entries (fst pt) (snd pt) ->
  getChildren sha256 JSON_parse this (fst pt) (quiet entries events)
  = (Ret (JArr (List.map JStr (List.map fst (subtrees_of (snd pt))))),
     quiet entries (events ++ [KvGet (key (fst pt) (str "children"))])).
Proof.
  destruct pt as [p [v subtrees]]. cbn [fst snd linked subtrees_of].
  intros [(text & Htext & Hparse) _].
  unfold getChildren, bind. rewrite withRetry_get_quiet by assumption.
  rewrite Htext. unfold deserializeValue. rewrite Hparse.
  now rewrite List.map_map.
Qed.

Lemma kids_paths pt :
  List.map fst (kids pt)
  = List.map (fun childKey => fst pt ++ [childKey])
      (List.map fst (subtrees_of (snd pt))).
Proof. unfold kids. now rewrite !List.map_map. Qed.

(** The loop of [collectDescendants] on a store that shows a forest: it
    reads the children record of each queued node in turn and collects the
    paths in the order of the queue discipline. *)
Lemma collect_loop_linked entries (fuel : nat) : forall (f : forest) acc events,
  linked_forest_ entries f -> (forest_size f <= fuel)%nat ->
  collect_loop sha256 JSON_parse this fuel (List.map fst f) acc
    (quiet entries events)
  = (Ret (acc ++ queue_order fuel f),
     quiet entries
       (events ++ children_gets_ (List.map fst f ++ queue_order fuel f))).
Proof.
  induction fuel as [|fuel IH]; intros f acc events Hf Hsize.
  - destruct f as [|pt f].
    + cbn. now rewrite !app_nil_r.
    + cbn in Hsize. pose proof (forest_size_kids pt). lia.
  - destruct f as [|pt f].
    + cbn. now rewrite !app_nil_r.
    + inversion_clear Hf as [|? ? Hpt Hf'].
      cbn [List.map collect_loop]. rewrite getChildren_linked by assumption.
      unfold for_of. rewrite strings_of_keys, <- kids_paths, <- List.map_app.
      rewrite IH.
      * cbn [queue_order]. f_equal; [now rewrite <- app_assoc|].
        f_equal. unfold children_gets.
        rewrite <- !app_assoc. cbn [app List.map]. f_equal. f_equal.
        now rewrite !List.map_app, <- !app_assoc.
      * apply List.Forall_app. split; [assumption|now apply linked_kids].
      * rewrite forest_size_app. cbn in Hsize.
        pose proof (forest_size_kids pt). fold (forest_size f) in Hsize. lia.
Qed.

Lemma deleteSingleNode_quiet p entries events :
  p <> [] ->
  deleteSingleNode sha256 this p (quiet entries events)
  = (Ret tt, quiet (erase_ entries [p]) (events ++ erase_events_ [p])).
Proof.
  intros Hp. destruct p as [|s p]; [contradiction|].
  unfold deleteSingleNode. cbn [app for_each]. unfold bind.
  rewrite !withRetry_delete_quiet by assumption.
  cbn. now rewrite <- !app_assoc.
Qed.

Lemma erase_all_quiet (paths : list (list jsstring)) : forall entries events,
  List.Forall (fun p => p <> []) paths ->
  for_each paths (deleteSingleNode sha256 this) (quiet entries events)
  = (Ret tt, quiet (erase_ entries paths) (events ++ erase_events_ paths)).
Proof.
  induction paths as [|p paths IH]; intros entries events Hpaths.
  - cbn. now rewrite app_nil_r.
  - inversion_clear Hpaths. cbn [for_each]. unfold bind.
    rewrite deleteSingleNode_quiet by assumption. rewrite IH by assumption.
    unfold erase_events. cbn [flat_map erase_ fold_left].
    now rewrite app_nil_r, <- app_assoc.
Qed.

Lemma removeChildFromParent_quiet parentPath childKey entries events items :
  stored_children_ entries (key parentPath (str "children"))
  = Some items ->
  removeChildFromParent sha256 JSON_stringify JSON_parse this parentPath
    childKey (quiet entries events)
  = (Ret tt,
     quiet
       (<[key parentPath (str "children") :=
            JSON_stringify
              (JArr (List.filter (fun k => negb (is_key childKey k)) items))]>
          entries)
       (events ++
        [KvGet (key parentPath (str "children"));
         KvPut (key parentPath (str "children"))
           (Some
              (JSON_stringify
                 (JArr
                    (List.filter (fun k => negb (is_key childKey k))
                       items))))])).
Proof.
  intros Hstored.
  destruct (deserialize_stored _ _ _ Hstored) as (v & Hv & Harr).
  unfold removeChildFromParent, bind.
  rewrite withRetry_get_quiet, Hv, Harr by assumption.
  rewrite withRetry_put_quiet by assumption. cbn [serializeValue default].
  now rewrite <- app_assoc.
Qed.

Lemma levels_nonempty (depth : nat) : forall f,
  List.Forall (fun p => p <> []) (levels depth f).
Proof.
  induction depth as [|depth IH]; intros f; [constructor|].
  cbn [levels]. apply List.Forall_app. split; [|apply IH].
  apply List.Forall_map, List.Forall_forall. intros pt Hin.
  apply List.in_flat_map in Hin. destruct Hin as (pt' & _ & Hin).
  unfold kids in Hin. apply List.in_map_iff in Hin.
  destruct Hin as (kc & <- & _). cbn. now destruct (fst pt').
Qed.

(** C6: [deleteNode] fails on the root path, and (in a world where the
    store raises nothing) on a path whose value record is absent.
    Otherwise, on a store whose children records show a tree [t] below
    the path, it reads the children records breadth-first, deletes the
    records of the node and of every descendant in the reverse of the
    list of the node followed by its descendants in breadth-first order,
    and at last reads the children list of the parent and writes it back
    without the last segment of the path. *)
Theorem deleteNode_spec (fuel : nat) (pathArray : list jsstring)
    (entries : gmap jsstring jsstring) (events : list event) :
  let run :=
    deleteNode sha256 JSON_stringify JSON_parse this fuel pathArray
      (quiet entries events) in
  match pathArray with
  | [] =>
      run = (Throw (Error (str "Cannot delete root node")),
             quiet entries events)
  | first :: _ =>
      let valueKey := key pathArray (str "value") in
      match entries !! valueKey with
      | None =>
          run = (Throw (not_found pathArray),
                 quiet entries (events ++ [KvGet valueKey]))
      | Some _ =>
          forall t items,
            linked_ entries pathArray t -> (tree_size t <= fuel)%nat ->
            let allPaths := pathArray :: descendants pathArray t in
            let erased := erase_ entries (rev allPaths) in
            let parentChildrenKey :=
              key (parent_of pathArray) (str "children") in
            let kept :=
              List.filter
                (fun k => negb (is_key (List.last pathArray first) k))
                items in
            stored_children_ erased parentChildrenKey = Some items ->
            run =
            (Ret tt,
             quiet (<[parentChildrenKey := JSON_stringify (JArr kept)]> erased)
               (events ++ [KvGet valueKey] ++ children_gets_ allPaths ++
                erase_events_ (rev allPaths) ++
                [KvGet parentChildrenKey;
                 KvPut parentChildrenKey (Some (JSON_stringify (JArr kept)))]))
      end
  end.
Proof.
  destruct pathArray as [|first rest]; cbv zeta; [reflexivity|].
  set (pathArray := first :: rest).
  assert (Hunfold :
    deleteNode sha256 JSON_stringify JSON_parse this fuel pathArray =
    (exists_ <- nodeExists sha256 this pathArray ;;
     if negb exists_ then throw (not_found pathArray)
     else
       descendantPaths <-
         collectDescendants sha256 JSON_parse this fuel pathArray ;;
       try_catch
         (for_each (rev (pathArray :: descendantPaths))
            (deleteSingleNode sha256 this) ;;
          removeChildFromParent sha256 JSON_stringify JSON_parse this
            (parent_of pathArray) (List.last pathArray first))
         (fun e =>
            throw
              (Error (str "Failed to delete node " ++
                      join (str "/") pathArray ++ str ": " ++ message e)))))
    by reflexivity.
  rewrite Hunfold. clear Hunfold.
  destruct (entries !! key pathArray (str "value")) eqn:Evalue.
  2: { unfold bind. rewrite nodeExists_quiet, Evalue. reflexivity. }
  intros t items Hlinked Hfuel Hstored.
  unfold bind at 1. rewrite nodeExists_quiet, Evalue. cbn [is_null negb].
  unfold bind at 1, collectDescendants.
  change [pathArray] with (List.map fst [(pathArray, t)]).
  rewrite collect_loop_linked;
    [|now repeat constructor|cbn; lia].
  rewrite (queue_order_levels (tree_height t));
    [|cbn; lia|cbn; lia].
  cbn [app List.map fst]. fold (descendants pathArray t).
  unfold try_catch, bind.
  rewrite erase_all_quiet.
  - erewrite removeChildFromParent_quiet by exact Hstored.
    now rewrite <- !app_assoc.
  - apply List.Forall_rev. constructor; [discriminate|apply levels_nonempty].
Qed.

End Quiet.

(** **** Moving *)


(** **** Traversal *)

Lemma never_visits_log target ev w :
  (forall node depth answer,
     ev = Visited node depth answer -> path node <> target) ->
  never_visits target (trace w) -> never_visits target (trace (log ev w)).
Proof.
  intros Hev Hw node depth answer Hin. cbn in Hin.
  apply List.in_app_iff in Hin. destruct Hin as [Hin|[Hin|[]]].
  - eapply Hw, Hin.
  - eapply Hev, Hin.
Qed.

Section Keeps.

Variable target : list jsstring.

Lemma keeps_ret {A} (a : A) : keeps target (ret a).
Proof. now intros w. Qed.

Lemma keeps_throw {A} (e : error) : keeps target (@throw A e).
Proof. now intros w. Qed.

Lemma keeps_stop {A} (r : outcome A) : keeps target (fun w => (r, w)).
Proof. now intros w. Qed.

(** The continuation may rely on what the first part returned. *)
Lemma keeps_bind {A B} (m : M A) (k : A -> M B) (post : A -> Prop) :
  (forall w a w', m w = (Ret a, w') -> post a) ->
  keeps target m -> (forall a, post a -> keeps target (k a)) ->
  keeps target (bind m k).
Proof.
  intros Hpost Hm Hk w Hw. unfold bind.
  specialize (Hm w Hw). destruct (m w) as [[a|e| |] w'] eqn:E; cbn in *;
    try assumption.
  apply Hk; [eapply Hpost, E|assumption].
Qed.

Lemma keeps_seq {A B} (m : M A) (k : A -> M B) :
  keeps target m -> (forall a, keeps target (k a)) -> keeps target (bind m k).
Proof. intros Hm Hk. apply (keeps_bind m k (fun _ => True)); auto. Qed.

Lemma keeps_try_catch {A} (body : M A) (handler : error -> M A) :
  keeps target body -> (forall e, keeps target (handler e)) ->
  keeps target (try_catch body handler).
Proof.
  intros Hb Hh w Hw. unfold try_catch.
  specialize (Hb w Hw). destruct (body w) as [[a|e| |] w']; cbn in *;
    try assumption.
  now apply Hh.
Qed.

Lemma never_visits_next_fault w :
  never_visits target (trace w) ->
  never_visits target (trace (snd (next_fault w))).
Proof. unfold next_fault. now destruct (faults w). Qed.

Lemma keeps_kv_get key : keeps target (kv_get key).
Proof.
  intros w Hw. unfold kv_get.
  pose proof (never_visits_next_fault (log (KvGet key) w)) as H.
  destruct (next_fault (log (KvGet key) w)) as [[e|] w']; cbn in *;
    apply H, never_visits_log; (discriminate || assumption).
Qed.

Lemma keeps_kv_put key v : keeps target (kv_put key v).
Proof.
  intros w Hw. unfold kv_put.
  pose proof (never_visits_next_fault (log (KvPut key v) w)) as H.
  destruct (next_fault (log (KvPut key v) w)) as [[e|] w']; cbn in *;
    apply H, never_visits_log; (discriminate || assumption).
Qed.

Lemma keeps_kv_delete key : keeps target (kv_delete key).
Proof.
  intros w Hw. unfold kv_delete.
  pose proof (never_visits_next_fault (log (KvDelete key) w)) as H.
  destruct (next_fault (log (KvDelete key) w)) as [[e|] w']; cbn in *;
    apply H, never_visits_log; (discriminate || assumption).
Qed.

Lemma keeps_sleep attempt : keeps target (sleep attempt).
Proof. intros w Hw. apply never_visits_log; (discriminate || assumption). Qed.

Lemma keeps_for_each {X} (xs : list X) (body : X -> M unit) :
  (forall x, List.In x xs -> keeps target (body x)) ->
  keeps target (for_each xs body).
Proof.
  induction xs as [|x xs IH]; intros Hbody; cbn [for_each].
  - apply keeps_ret.
  - apply keeps_seq; [apply Hbody; now left|].
    intros _. apply IH. intros y Hy. apply Hbody. now right.
Qed.

Lemma keeps_retry_loop {A} (operation : M A) context (remaining : nat) :
  keeps target operation ->
  forall attempt lastError,
  keeps target (retry_loop this remaining attempt lastError operation context).
Proof.
  intros Hop. induction remaining as [|r IH]; intros attempt lastError;
    cbn [retry_loop].
  - destruct lastError; apply keeps_throw.
  - apply keeps_try_catch; [assumption|]. intros e.
    destruct (_ && _); [|apply keeps_throw].
    apply keeps_seq; [apply keeps_sleep|]. intros _. apply IH.
Qed.

Lemma keeps_withRetry {A} (operation : M A) context :
  keeps target operation -> keeps target (withRetry this operation context).
Proof. intros Hop. now apply keeps_retry_loop. Qed.

Lemma keeps_deserializeValue serialized :
  keeps target (deserializeValue JSON_parse serialized).
Proof.
  unfold deserializeValue. destruct serialized as [text|]; [|apply keeps_ret].
  destruct (JSON_parse text); [apply keeps_ret|apply keeps_throw].
Qed.

Lemma keeps_nodeExists p : keeps target (nodeExists sha256 this p).
Proof.
  unfold nodeExists. apply keeps_try_catch.
  - apply keeps_seq; [apply keeps_kv_get|]. intros. apply keeps_ret.
  - intros. apply keeps_ret.
Qed.

Lemma keeps_getValue p : keeps target (getValue sha256 JSON_parse this p).
Proof.
  unfold getValue. apply keeps_seq.
  - apply keeps_withRetry, keeps_kv_get.
  - intros [text|]; [apply keeps_deserializeValue|apply keeps_throw].
Qed.

Lemma keeps_getChildren p :
  keeps target (getChildren sha256 JSON_parse this p).
Proof.
  unfold getChildren. apply keeps_seq.
  - apply keeps_withRetry, keeps_kv_get.
  - intros [text|]; [|apply keeps_throw].
    apply keeps_seq; [apply keeps_deserializeValue|]. intros. apply keeps_ret.
Qed.

Lemma keeps_promise_all2 {A B} (a : M A) (b : M B) :
  keeps target a -> keeps target b -> keeps target (promise_all2 a b).
Proof.
  intros Ha Hb w Hw. unfold promise_all2.
  specialize (Ha w Hw). destruct (a w) as [ra w1]. cbn in Ha.
  specialize (Hb w1 Ha). destruct (b w1) as [rb w2]. cbn in Hb.
  destruct ra, rb; assumption.
Qed.

Lemma keeps_has_length v : keeps target (has_length v).
Proof.
  unfold has_length. destruct v; try apply keeps_ret.
  destruct (existsb _ _); [apply keeps_stop|apply keeps_ret].
Qed.

Lemma keeps_getNode p : keeps target (getNode sha256 JSON_parse this p).
Proof.
  unfold getNode. apply keeps_seq.
  - apply keeps_promise_all2; [apply keeps_getValue|apply keeps_getChildren].
  - intros [v c]. apply keeps_seq; [apply keeps_has_length|].
    intros. apply keeps_ret.
Qed.

Lemma getNode_path p w node w' :
  getNode sha256 JSON_parse this p w = (Ret node, w') -> path node = p.
Proof.
  unfold getNode, bind.
  destruct (promise_all2 _ _ w) as [[[v c]|e| |] w1]; try discriminate.
  destruct (has_length c w1) as [[b|e| |] w2]; try discriminate.
  cbv [ret]. now intros [= <- _].
Qed.

Lemma keeps_call (callback : visitor) node depth :
  path node <> target -> keeps target (call callback node depth).
Proof.
  intros Hnode w Hw. unfold call. cbn.
  apply never_visits_log; [|assumption]. now intros ? ? ? [= <- _ _].
Qed.

End Keeps.

Section Pruning.

Variable callback : visitor.
Variable maxDepth : option nat.
Variable includeInternal : bool.

(** The node at [pruned] is one where the visitor answers [false]; the
    target is one of its children. *)
Variables (pruned : list jsstring) (childKey : jsstring).
Hypothesis answers_false :
  forall node depth, path node = pruned -> callback node depth = JBool false.

Lemma child_of_other (p : list jsstring) (k : jsstring) :
  p <> pruned -> p ++ [k] <> pruned ++ [childKey].
Proof. intros Hp E. apply app_inj_tail in E. now destruct E. Qed.

Lemma depthFirstTraverse_keeps (fuel : nat) : forall p depth,
  p <> pruned ++ [childKey] ->
  keeps (pruned ++ [childKey])
    (depthFirstTraverse sha256 JSON_parse this fuel p callback maxDepth
       includeInternal depth).
Proof.
  induction fuel as [|fuel IH]; intros p depth Hp; cbn [depthFirstTraverse];
    destruct (deeper depth maxDepth); try apply keeps_ret; [apply keeps_stop|].
  apply (keeps_bind _ _ _ (fun node => path node = p)).
  - intros w node w'. apply getNode_path.
  - apply keeps_getNode.
  - intros node Hnode.
    apply (keeps_bind _ _ _ (fun answer => answer = callback node depth)).
    + unfold call. now intros w a w' [= <- _].
    + apply keeps_call. now rewrite Hnode.
    + intros answer ->.
      destruct (is_false (callback node depth)) eqn:Hanswer;
        [apply keeps_ret|].
      destruct (for_of (children node)) as [keys| |];
        [|apply keeps_throw|apply keeps_stop].
      apply keeps_for_each. intros k _. apply IH.
      apply child_of_other. intros Hpruned.
      rewrite answers_false in Hanswer by congruence. discriminate.
Qed.

Lemma breadth_loop_keeps (fuel : nat) : forall queue,
  List.Forall (fun item => fst item <> pruned ++ [childKey]) queue ->
  keeps (pruned ++ [childKey])
    (breadth_loop sha256 JSON_parse this fuel queue callback maxDepth).
Proof.
  induction fuel as [|fuel IH]; intros [|[p depth] queue] Hqueue;
    cbn [breadth_loop]; try apply keeps_ret; [apply keeps_stop|].
  inversion_clear Hqueue as [|? ? Hp Hrest]. cbn [fst] in Hp.
  destruct (deeper depth maxDepth); [now apply IH|].
  apply (keeps_bind _ _ _ (fun node => path node = p)).
  - intros w node w'. apply getNode_path.
  - apply keeps_getNode.
  - intros node Hnode.
    apply (keeps_bind _ _ _ (fun answer => answer = callback node depth)).
    + unfold call. now intros w a w' [= <- _].
    + apply keeps_call. now rewrite Hnode.
    + intros answer ->.
      destruct (is_false (callback node depth)) eqn:Hanswer;
        [now apply IH|].
      destruct (for_of (children node)) as [keys| |];
        [|apply keeps_throw|apply keeps_stop].
      apply IH. apply List.Forall_app. split; [assumption|].
      apply List.Forall_map, List.Forall_forall. intros k _. cbn [fst].
      apply child_of_other. intros Hpruned.
      rewrite answers_false in Hanswer by congruence. discriminate.
Qed.


End Pruning.

End Properties.

(** *** More properties *)

(** **** The retry loop under faults *)

Section Faults.

Variable this : KVTreeStorage.
Variables (key context : jsstring).

Lemma kv_get_fault entries e rest events :
  kv_get key {| kv := entries; faults := Some e :: rest; trace := events |}
  = (Throw e,
     {| kv := entries; faults := rest; trace := events ++ [KvGet key] |}).
Proof. reflexivity. Qed.

Lemma kv_get_through entries rest events :
  kv_get key {| kv := entries; faults := None :: rest; trace := events |}
  = (Ret (entries !! key),
     {| kv := entries; faults := rest; trace := events ++ [KvGet key] |}).
Proof. reflexivity. Qed.

Lemma last_cons {X} (l : list X) : forall x d,
  List.last (x :: l) d = List.last l x.
Proof.
  induction l as [|y l IH]; intros x d; [reflexivity|].
  change (List.last (x :: y :: l) d) with (List.last (y :: l) d).
  now rewrite !IH.
Qed.

(** The loop on a store that fails a number of times with errors that
    may be retried, while attempts are left. *)
Lemma retry_loop_faults entries rest (errs : list error) :
  List.Forall (fun e => isRetryableError e = true) errs ->
  forall (r attempt : nat) lastError events,
  (Z.of_nat (attempt + length errs) < maxRetries this)%Z ->
  retry_loop this (length errs + r) attempt lastError (kv_get key) context
    {| kv := entries; faults := List.map Some errs ++ rest; trace := events |}
  = retry_loop this r (attempt + length errs)
      (List.last (List.map Some errs) lastError) (kv_get key) context
      {| kv := entries; faults := rest;
         trace := events ++ retried key attempt (length errs) |}.
Proof.
  unfold retried.
  induction 1 as [|e errs He _ IH]; intros r attempt lastError events Hmax.
  - cbn. now rewrite Nat.add_0_r, app_nil_r.
  - cbn [length Nat.add List.map app retry_loop]. unfold try_catch at 1.
    rewrite kv_get_fault, He.
    destruct (Z.ltb_spec (Z.of_nat attempt) (maxRetries this - 1));
      [|cbn [length] in Hmax; lia].
    cbn [andb]. unfold bind at 1, sleep at 1, log at 1.
    cbn [kv faults trace].
    rewrite IH by (cbn [length] in Hmax; lia).
    cbn [seq flat_map app]. rewrite <- !app_assoc. cbn [app].
    replace (S attempt + length errs)%nat with (attempt + S (length errs))%nat
      by lia.
    f_equal. cbn [List.map]. now rewrite last_cons.
Qed.

(** X8: a read under the retry wrapper survives the faults of the store
    that may be retried, as long as there are fewer of them in a row than
    attempts allowed: the value is read, after one attempt and one pause
    for each fault and one attempt more. *)
Theorem withRetry_recovers entries rest (errs : list error) events :
  List.Forall (fun e => isRetryableError e = true) errs ->
  (Z.of_nat (length errs) < maxRetries this)%Z ->
  withRetry this (kv_get key) context
    {| kv := entries; faults := List.map Some errs ++ None :: rest;
       trace := events |}
  = (Ret (entries !! key),
     {| kv := entries; faults := rest;
        trace := events ++ retried key 0 (length errs) ++ [KvGet key] |}).
Proof.
  intros Herrs Hmax. unfold withRetry.
  replace (Z.to_nat (maxRetries this))
    with (length errs + S (Z.to_nat (maxRetries this) - S (length errs)))%nat
    by lia.
  rewrite retry_loop_faults by (assumption || (cbn; lia)).
  cbn [retry_loop Nat.add]. unfold try_catch. rewrite kv_get_through.
  now rewrite <- app_assoc.
Qed.

(** X9: the retry wrapper gives up on the first fault that may not be
    retried, and on the fault of the last attempt allowed: the error
    thrown is the error of the store itself, unchanged, and no pause
    follows the last attempt. *)
Theorem withRetry_gives_up entries rest (errs : list error) (e : error)
    events :
  List.Forall (fun e => isRetryableError e = true) errs ->
  (Z.of_nat (length errs) < maxRetries this)%Z ->
  isRetryableError e = false \/ (Z.of_nat (S (length errs)) = maxRetries this)%Z ->
  withRetry this (kv_get key) context
    {| kv := entries; faults := List.map Some errs ++ Some e :: rest;
       trace := events |}
  = (Throw e,
     {| kv := entries; faults := rest;
        trace := events ++ retried key 0 (length errs) ++ [KvGet key] |}).
Proof.
  intros Herrs Hmax Hlast. unfold withRetry.
  replace (Z.to_nat (maxRetries this))
    with (length errs + S (Z.to_nat (maxRetries this) - S (length errs)))%nat
    by lia.
  rewrite retry_loop_faults by (assumption || (cbn; lia)).
  cbn [retry_loop Nat.add]. unfold try_catch. rewrite kv_get_fault.
  rewrite <- app_assoc.
  destruct Hlast as [He|Hn].
  - now rewrite He.
  - destruct (Z.ltb_spec (Z.of_nat (length errs)) (maxRetries this - 1));
      [lia|]. now rewrite andb_false_r.
Qed.

(** X10: with fewer than one attempt allowed (a negative [maxRetries]:
    the constructor replaces a zero) the wrapper runs no attempt at all
    and throws the [TypeError] of reading the message of an error there
    is none of. *)
Theorem withRetry_without_attempts {A} (operation : M A) (w : world) :
  (maxRetries this < 1)%Z ->
  withRetry this operation context w
  = (Throw (TypeError
              (str "Cannot read properties of undefined (reading 'message')")),
     w).
Proof.
  intros Hmax. unfold withRetry.
  replace (Z.to_nat (maxRetries this)) with 0%nat by lia. reflexivity.
Qed.

End Faults.

(** **** What reading keeps *)

Section Invariants.

Variable sha256 : jsstring -> list Byte.byte.
Variable JSON_stringify : jsval -> jsstring.
Variable JSON_parse : jsstring -> parsed.
Variable this : KVTreeStorage.

Variable R : world -> world -> Prop.
Hypothesis R_refl : forall w, R w w.
Hypothesis R_trans : forall w1 w2 w3, R w1 w2 -> R w2 w3 -> R w1 w3.
Hypothesis R_get : forall key, respects R (kv_get key).
Hypothesis R_sleep : forall attempt, respects R (sleep attempt).

Lemma respects_ret {A} (a : A) : respects R (ret a).
Proof. intros w. apply R_refl. Qed.

Lemma respects_throw {A} (e : error) : respects R (@throw A e).
Proof. intros w. apply R_refl. Qed.

Lemma respects_stop {A} (r : outcome A) : respects R (fun w => (r, w)).
Proof. intros w. apply R_refl. Qed.

Lemma respects_bind {A B} (m : M A) (k : A -> M B) :
  respects R m -> (forall a, respects R (k a)) -> respects R (bind m k).
Proof.
  intros Hm Hk w. unfold bind. specialize (Hm w).
  destruct (m w) as [[a|e| |] w']; cbn in *; try assumption.
  eapply R_trans; [exact Hm|apply Hk].
Qed.

Lemma respects_try_catch {A} (body : M A) (handler : error -> M A) :
  respects R body -> (forall e, respects R (handler e)) ->
  respects R (try_catch body handler).
Proof.
  intros Hb Hh w. unfold try_catch. specialize (Hb w).
  destruct (body w) as [[a|e| |] w']; cbn in *; try assumption.
  eapply R_trans; [exact Hb|apply Hh].
Qed.

Lemma respects_for_each_with {X St} (xs : list X) (body : X -> St -> M St) :
  (forall x state, respects R (body x state)) ->
  forall state, respects R (for_each_with xs body state).
Proof.
  intros Hbody. induction xs as [|x xs IH]; intros state; cbn [for_each_with].
  - apply respects_ret.
  - apply respects_bind; [apply Hbody|apply IH].
Qed.

Lemma respects_retry_loop {A} (operation : M A) context (remaining : nat) :
  respects R operation ->
  forall attempt lastError,
  respects R (retry_loop this remaining attempt lastError operation context).
Proof.
  intros Hop. induction remaining as [|r IH]; intros attempt lastError;
    cbn [retry_loop].
  - destruct lastError; apply respects_throw.
  - apply respects_try_catch; [assumption|]. intros e.
    destruct (_ && _); [|apply respects_throw].
    apply respects_bind; [apply R_sleep|]. intros _. apply IH.
Qed.

Lemma respects_withRetry {A} (operation : M A) context :
  respects R operation -> respects R (withRetry this operation context).
Proof. intros Hop. now apply respects_retry_loop. Qed.

Lemma respects_deserializeValue serialized :
  respects R (deserializeValue JSON_parse serialized).
Proof.
  unfold deserializeValue. destruct serialized as [text|]; [|apply respects_ret].
  destruct (JSON_parse text); [apply respects_ret|apply respects_throw].
Qed.

Lemma respects_nodeExists p : respects R (nodeExists sha256 this p).
Proof.
  unfold nodeExists. apply respects_try_catch.
  - apply respects_bind; [apply R_get|]. intros. apply respects_ret.
  - intros. apply respects_ret.
Qed.

Lemma respects_getValue p : respects R (getValue sha256 JSON_parse this p).
Proof.
  unfold getValue. apply respects_bind.
  - apply respects_withRetry, R_get.
  - intros [text|]; [apply respects_deserializeValue|apply respects_throw].
Qed.

Lemma respects_getChildren p :
  respects R (getChildren sha256 JSON_parse this p).
Proof.
  unfold getChildren. apply respects_bind.
  - apply respects_withRetry, R_get.
  - intros [text|]; [|apply respects_throw].
    apply respects_bind; [apply respects_deserializeValue|].
    intros. apply respects_ret.
Qed.

Lemma respects_promise_all2 {A B} (a : M A) (b : M B) :
  respects R a -> respects R b -> respects R (promise_all2 a b).
Proof.
  intros Ha Hb w. unfold promise_all2.
  specialize (Ha w). destruct (a w) as [ra w1]. cbn in Ha.
  specialize (Hb w1). destruct (b w1) as [rb w2]. cbn in Hb.
  assert (R w w2) by (eapply R_trans; eassumption).
  destruct ra, rb; assumption.
Qed.

Lemma respects_has_length v : respects R (has_length v).
Proof.
  unfold has_length. destruct v; try apply respects_ret.
  destruct (existsb _ _); [apply respects_stop|apply respects_ret].
Qed.

Lemma respects_getNode p : respects R (getNode sha256 JSON_parse this p).
Proof.
  unfold getNode. apply respects_bind.
  - apply respects_promise_all2;
      [apply respects_getValue|apply respects_getChildren].
  - intros [v c]. apply respects_bind; [apply respects_has_length|].
    intros. apply respects_ret.
Qed.

Section Walks.

Context {St : Type}.
Variable callback : closure St.
Variable maxDepth : option nat.
Variable includeInternal : bool.

Hypothesis R_call :
  forall node depth state,
    deeper depth maxDepth = false ->
    respects R (call_with callback node depth state).

Lemma respects_depthFirstTraverse_with (fuel : nat) : forall p depth state,
  respects R
    (depthFirstTraverse_with sha256 JSON_parse this fuel p callback maxDepth
       includeInternal depth state).
Proof.
  induction fuel as [|fuel IH]; intros p depth state;
    cbn [depthFirstTraverse_with];
    destruct (deeper depth maxDepth) eqn:Hdeep; try apply respects_ret;
    [apply respects_stop|].
  apply respects_bind; [apply respects_getNode|]. intros node.
  apply respects_bind; [now apply R_call|]. intros [answer state'].
  destruct (is_false answer); [apply respects_ret|].
  destruct (for_of (children node)) as [keys| |];
    [|apply respects_throw|apply respects_stop].
  apply respects_for_each_with. intros k st. apply IH.
Qed.

Lemma respects_breadth_loop_with (fuel : nat) : forall queue state,
  respects R
    (breadth_loop_with sha256 JSON_parse this fuel queue callback maxDepth
       state).
Proof.
  induction fuel as [|fuel IH]; intros [|[p depth] queue] state;
    cbn [breadth_loop_with]; try apply respects_ret; [apply respects_stop|].
  destruct (deeper depth maxDepth) eqn:Hdeep; [apply IH|].
  apply respects_bind; [apply respects_getNode|]. intros node.
  apply respects_bind; [now apply R_call|]. intros [answer state'].
  destruct (is_false answer); [apply IH|].
  destruct (for_of (children node)) as [keys| |];
    [apply IH|apply respects_throw|apply respects_stop].
Qed.

Lemma respects_traverse_with (fuel : nat) p strat state :
  respects R
    (traverse_with sha256 JSON_parse this fuel p callback strat maxDepth
       includeInternal state).
Proof.
  unfold traverse_with. apply respects_bind; [apply respects_nodeExists|].
  intros exists_. destruct (negb exists_); [apply respects_throw|].
  destruct strat.
  - apply respects_depthFirstTraverse_with.
  - apply respects_breadth_loop_with.
Qed.

End Walks.

Lemma respects_exportTree (fuel : nat) : forall p,
  respects R (exportTree sha256 JSON_parse this fuel p).
Proof.
  induction fuel as [|fuel IH]; intros p; cbn [exportTree];
    [apply respects_stop|].
  apply respects_bind; [apply respects_getNode|]. intros node.
  destruct (for_of (children node)) as [keys| |];
    [|apply respects_throw|apply respects_stop].
  apply respects_bind; [|intros; apply respects_ret].
  apply respects_for_each_with. intros k obj.
  apply respects_bind; [apply IH|]. intros. apply respects_ret.
Qed.

End Invariants.

(** A traversal with a visitor is the traversal with the closure that
    keeps no state. *)
Section Stateless.

Variable sha256 : jsstring -> list Byte.byte.
Variable JSON_parse : jsstring -> parsed.
Variable this : KVTreeStorage.
Variable callback : visitor.
Variable maxDepth : option nat.
Variable includeInternal : bool.

Lemma for_each_stateless {X} (xs : list X) (body : X -> M unit)
    (body' : X -> unit -> M unit) :
  (forall x w, body x w = body' x tt w) ->
  forall w, for_each xs body w = for_each_with xs body' tt w.
Proof.
  intros Hbody. induction xs as [|x xs IH]; intros w; [reflexivity|].
  cbn [for_each for_each_with]. unfold bind. rewrite <- Hbody.
  destruct (body x w) as [[[]|e| |] w']; try reflexivity. apply IH.
Qed.

Lemma depthFirstTraverse_stateless (fuel : nat) : forall p depth w,
  depthFirstTraverse sha256 JSON_parse this fuel p callback maxDepth
    includeInternal depth w
  = depthFirstTraverse_with sha256 JSON_parse this fuel p
      (stateless callback) maxDepth includeInternal depth tt w.
Proof.
  induction fuel as [|fuel IH]; intros p depth w;
    cbn [depthFirstTraverse depthFirstTraverse_with];
    destruct (deeper depth maxDepth); try reflexivity.
  unfold bind at 1 3.
  destruct (getNode sha256 JSON_parse this p w) as [[node|e| |] w1];
    try reflexivity.
  unfold bind, call, call_with, stateless. cbn.
  destruct (is_false (callback node depth)); [reflexivity|].
  destruct (for_of (children node)) as [keys| |]; try reflexivity.
  apply for_each_stateless. intros k w'. apply IH.
Qed.

Lemma breadth_loop_stateless (fuel : nat) : forall queue w,
  breadth_loop sha256 JSON_parse this fuel queue callback maxDepth w
  = breadth_loop_with sha256 JSON_parse this fuel queue (stateless callback)
      maxDepth tt w.
Proof.
  induction fuel as [|fuel IH]; intros [|[p depth] queue] w;
    cbn [breadth_loop breadth_loop_with]; try reflexivity.
  destruct (deeper depth maxDepth); [apply IH|].
  unfold bind at 1 3.
  destruct (getNode sha256 JSON_parse this p w) as [[node|e| |] w1];
    try reflexivity.
  unfold bind, call, call_with, stateless. cbn.
  destruct (is_false (callback node depth)); [apply IH|].
  destruct (for_of (children node)) as [keys| |]; try reflexivity.
  apply IH.
Qed.

Lemma traverse_stateless (fuel : nat) p strat w :
  traverse sha256 JSON_parse this fuel p callback strat maxDepth
    includeInternal w
  = traverse_with sha256 JSON_parse this fuel p (stateless callback) strat
      maxDepth includeInternal tt w.
Proof.
  unfold traverse, traverse_with, bind.
  destruct (nodeExists sha256 this p w) as [[b|e| |] w1]; try reflexivity.
  destruct (negb b); [reflexivity|]. destruct strat.
  - apply depthFirstTraverse_stateless.
  - apply breadth_loop_stateless.
Qed.

End Stateless.

Section ReadOnly.

Variable sha256 : jsstring -> list Byte.byte.
Variable JSON_stringify : jsval -> jsstring.
Variable JSON_parse : jsstring -> parsed.
Variable this : KVTreeStorage.

Lemma reading_refl w : reading w w.
Proof. now split. Qed.

Lemma reading_trans w1 w2 w3 : reading w1 w2 -> reading w2 w3 -> reading w1 w3.
Proof. intros [E1 H1] [E2 H2]. split; [congruence|auto]. Qed.

Lemma reading_log ev w : no_write ev -> reading w (log ev w).
Proof.
  intros Hev. split; [reflexivity|]. intros Hw. cbn.
  apply List.Forall_app. split; [assumption|now repeat constructor].
Qed.

Lemma reading_get key : respects reading (kv_get key).
Proof.
  intros w. unfold kv_get, next_fault.
  pose proof (reading_log (KvGet key) w I) as H.
  destruct (faults (log (KvGet key) w)) as [|[e|] rest]; exact H.
Qed.

Lemma reading_sleep attempt : respects reading (sleep attempt).
Proof. intros w. now apply reading_log. Qed.

Lemma reading_call {St} (callback : closure St) node depth state :
  respects reading (call_with callback node depth state).
Proof.
  intros w. unfold call_with. destruct (callback node depth state).
  now apply reading_log.
Qed.


Lemma stays_shallow_refl limit w : stays_shallow limit w w.
Proof. now intros H. Qed.

Lemma stays_shallow_trans limit w1 w2 w3 :
  stays_shallow limit w1 w2 -> stays_shallow limit w2 w3 ->
  stays_shallow limit w1 w3.
Proof. unfold stays_shallow. auto. Qed.

Lemma stays_shallow_log limit ev w :
  shallow limit ev -> stays_shallow limit w (log ev w).
Proof.
  intros Hev Hw. cbn. apply List.Forall_app. split; [assumption|].
  now repeat constructor.
Qed.

Lemma stays_shallow_get limit key : respects (stays_shallow limit) (kv_get key).
Proof.
  intros w Hw. unfold kv_get, next_fault.
  pose proof (stays_shallow_log limit (KvGet key) w I Hw) as H.
  destruct (faults (log (KvGet key) w)) as [|[e|] rest]; exact H.
Qed.

Lemma stays_shallow_sleep limit attempt :
  respects (stays_shallow limit) (sleep attempt).
Proof. intros w. now apply stays_shallow_log. Qed.

Lemma stays_shallow_call {St} limit (callback : closure St) node depth state :
  deeper depth (Some limit) = false ->
  respects (stays_shallow limit) (call_with callback node depth state).
Proof.
  intros Hdeep w. unfold call_with.
  destruct (callback node depth state) as [answer state']. cbn [snd].
  apply stays_shallow_log. cbn in *. apply Nat.ltb_ge in Hdeep. exact Hdeep.
Qed.


End ReadOnly.

(** **** Keys of simple paths *)

Section KeyParts.

Variable sha256 : jsstring -> list Byte.byte.
Variable this : KVTreeStorage.

Abbreviation key := (createStorageKey sha256 this).

Lemma hashPath_hex (p : list jsstring) :
  List.Forall (fun c => is_hex_digit c = true) (hashPath sha256 p).
Proof.
  unfold hashPath. induction (sha256 (join (str "::") p)) as [|b bytes IH];
    [constructor|].
  cbn [List.map List.concat]. apply List.Forall_app. split; [|exact IH].
  apply PathParser.padStart_hex_digits, toString_hex_digits.
Qed.

Lemma split_at (c : N) (s t r1 r2 : jsstring) :
  ~ List.In c s -> ~ List.In c t ->
  s ++ c :: r1 = t ++ c :: r2 -> s = t /\ r1 = r2.
Proof.
  revert t. induction s as [|x s IH]; intros [|y t] Hs Ht E; cbn in *.
  - now injection E.
  - injection E as -> _. exfalso. apply Ht. now left.
  - injection E as -> _. exfalso. apply Hs. now left.
  - injection E as -> E. destruct (IH t) as [-> ->]; auto.
Qed.

Lemma hex_without_dash (s : jsstring) :
  List.Forall (fun c => is_hex_digit c = true) s -> ~ List.In (ch "-") s.
Proof.
  intros H Hin. rewrite List.Forall_forall in H. specialize (H _ Hin).
  discriminate H.
Qed.

(** Two keys are the same only for the same digest and the same suffix. *)
Lemma key_parts (p q : list jsstring) (s s' : jsstring) :
  key p s = key q s' -> hashPath sha256 p = hashPath sha256 q /\ s = s'.
Proof.
  unfold createStorageKey. intros E.
  apply app_inv_head, app_inv_head in E.
  apply split_at in E; [exact E| |]; apply hex_without_dash, hashPath_hex.
Qed.

Lemma key_suffix (p q : list jsstring) (s s' : jsstring) :
  s <> s' -> key p s <> key q s'.
Proof. intros Hs E. now apply key_parts in E. Qed.

Hypothesis digest_injective :
  forall x y, wf_string x -> wf_string y -> sha256 x = sha256 y -> x = y.

Lemma simple_path_wf (p : list jsstring) :
  simple_path p -> List.Forall wf_string p.
Proof. apply List.Forall_impl. now intros s [H _]. Qed.

Lemma simple_path_colon_free (p : list jsstring) :
  simple_path p -> List.Forall colon_free p.
Proof. apply List.Forall_impl. now intros s (_ & H & _). Qed.

Lemma join_simple_nonempty (s : jsstring) (p : list jsstring) :
  s <> [] -> join (str "::") (s :: p) <> [].
Proof.
  intros Hs E. rewrite join_sep_cons in E. destruct s; [contradiction|].
  discriminate E.
Qed.

Lemma join_simple_inj (p q : list jsstring) :
  simple_path p -> simple_path q ->
  join (str "::") p = join (str "::") q -> p = q.
Proof.
  intros Hp Hq E. destruct p as [|s p], q as [|t q].
  - reflexivity.
  - inversion_clear Hq as [|? ? (_ & _ & Ht) _]. symmetry in E.
    now apply join_simple_nonempty in E.
  - inversion_clear Hp as [|? ? (_ & _ & Hs) _].
    now apply join_simple_nonempty in E.
  - apply join_colons_inj; try discriminate; try assumption;
      now apply simple_path_colon_free.
Qed.

(** The keys of two simple paths are the same only for the same path and
    the same suffix. *)
Lemma key_inj (p q : list jsstring) (s s' : jsstring) :
  simple_path p -> simple_path q -> key p s = key q s' -> p = q /\ s = s'.
Proof.
  intros Hp Hq E. apply key_parts in E. destruct E as [E Hs].
  split; [|exact Hs]. unfold hashPath in E.
  apply hex_bytes_inj in E. apply digest_injective in E.
  - now apply join_simple_inj.
  - apply join_wf; [repeat constructor; reflexivity|now apply simple_path_wf].
  - apply join_wf; [repeat constructor; reflexivity|now apply simple_path_wf].
Qed.

Lemma key_other (p q : list jsstring) (s s' : jsstring) :
  simple_path p -> simple_path q -> p <> q -> key p s <> key q s'.
Proof. intros Hp Hq Hne E. now apply key_inj in E. Qed.

End KeyParts.

(** **** Values and the root *)

Section Settled.

Variable sha256 : jsstring -> list Byte.byte.
Variable JSON_stringify : jsval -> jsstring.
Variable JSON_parse : jsstring -> parsed.
Variable this : KVTreeStorage.

Abbreviation key := (createStorageKey sha256 this).
Abbreviation serialize := (serializeValue JSON_stringify).

Lemma collect_loop_unthrown (fuel : nat) : forall queue acc w,
  unthrown (fst (collect_loop sha256 JSON_parse this fuel queue acc w)).
Proof.
  induction fuel as [|fuel IH]; intros [|p queue] acc w; cbn [collect_loop];
    try exact I.
  destruct (getChildren sha256 JSON_parse this p w) as [[c|e| |] w'];
    try exact I; [|apply IH].
  destruct (for_of c); [apply IH|apply IH|exact I].
Qed.


Section QuietRuns.

Hypothesis retries_positive : (1 <= maxRetries this)%Z.

(** X12: in a world where the store raises nothing, [setValue] on a path
    without a value record throws the not-found error and writes nothing;
    on a path with one it writes the serialized value over it, and a
    [getValue] of the path then returns what [JSON.parse] makes of that
    text. *)
Theorem setValue_getValue (p : list jsstring) (v : jsval)
    (entries : gmap jsstring jsstring) (events : list event) :
  let valueKey := key p (str "value") in
  let text := default (str "null") (serialize v) in
  match entries !! valueKey with
  | None =>
      setValue sha256 JSON_stringify this p v (quiet entries events)
      = (Throw (not_found p), quiet entries (events ++ [KvGet valueKey]))
  | Some _ =>
      setValue sha256 JSON_stringify this p v (quiet entries events)
      = (Ret tt,
         quiet (<[valueKey := text]> entries)
           (events ++ [KvGet valueKey; KvPut valueKey (serialize v)])) /\
      forall events',
        getValue sha256 JSON_parse this p
          (quiet (<[valueKey := text]> entries) events')
        = (match JSON_parse text with
           | Parsed v' => Ret v'
           | SyntaxError msg =>
               Throw (Error (str "Failed to deserialize value: " ++ msg))
           end,
           quiet (<[valueKey := text]> entries) (events' ++ [KvGet valueKey]))
  end.
Proof.
  cbv zeta. unfold setValue, bind. rewrite nodeExists_quiet.
  destruct (entries !! key p (str "value")) as [old|]; cbn [is_null negb];
    [|reflexivity].
  split.
  - rewrite (withRetry_put_quiet this retries_positive).
    now rewrite <- app_assoc.
  - intros events'. unfold getValue, bind.
    rewrite (withRetry_get_quiet this retries_positive), lookup_insert_eq.
    unfold deserializeValue.
    now destruct (JSON_parse (default (str "null") (serialize v))).
Qed.

Lemma createNode_root_quiet (value : jsval) entries events :
  entries !! key [] (str "value") = None ->
  createNode sha256 JSON_stringify JSON_parse this [] value
    (quiet entries events)
  = (Ret tt,
     quiet
       (<[key [] (str "children") := JSON_stringify (JArr [])]>
          (<[key [] (str "value") := default (str "null") (serialize value)]>
             entries))
       (events ++
        [KvGet (key [] (str "value"));
         KvPut (key [] (str "value")) (serialize value);
         KvPut (key [] (str "children")) (serialize (JArr []))])).
Proof.
  intros Hroot. unfold createNode, bind. rewrite nodeExists_quiet, Hroot.
  cbn [is_null negb]. cbv [ret].
  erewrite withRetry_ret; [reflexivity|assumption|].
  unfold bind. rewrite !kv_put_quiet. cbv [ret].
  now rewrite <- !app_assoc.
Qed.

Lemma initializeRoot_quiet entries events :
  initializeRoot sha256 JSON_stringify JSON_parse this (quiet entries events)
  = match entries !! key [] (str "value") with
    | Some _ =>
        (Ret tt, quiet entries (events ++ [KvGet (key [] (str "value"))]))
    | None =>
        (Ret tt,
         quiet
           (<[key [] (str "children") := JSON_stringify (JArr [])]>
              (<[key [] (str "value") := str "null"]> entries))
           (events ++
            [KvGet (key [] (str "value")); KvGet (key [] (str "value"));
             KvPut (key [] (str "value")) None;
             KvPut (key [] (str "children")) (serialize (JArr []))]))
    end.
Proof.
  unfold initializeRoot, bind. rewrite nodeExists_quiet.
  destruct (entries !! key [] (str "value")) eqn:Hroot; cbn [is_null negb];
    [reflexivity|].
  rewrite createNode_root_quiet by assumption.
  now rewrite <- app_assoc.
Qed.

(** X13: in a world where the store raises nothing, [initializeRoot]
    succeeds; it leaves a store with a root as it is, and gives a store
    without one the value record [null] and an empty children record;
    afterwards the root exists, and a second [initializeRoot] succeeds
    and changes nothing. *)
Theorem initializeRoot_idempotent (entries : gmap jsstring jsstring)
    (events : list event) :
  let valueKey := key [] (str "value") in
  let childrenKey := key [] (str "children") in
  let init := initializeRoot sha256 JSON_stringify JSON_parse this in
  let w1 := snd (init (quiet entries events)) in
  fst (init (quiet entries events)) = Ret tt /\
  kv w1 =
    match entries !! valueKey with
    | Some _ => entries
    | None =>
        <[childrenKey := JSON_stringify (JArr [])]>
          (<[valueKey := str "null"]> entries)
    end /\
  fst (nodeExists sha256 this [] w1) = Ret true /\
  fst (init w1) = Ret tt /\
  kv (snd (init w1)) = kv w1.
Proof.
  cbv zeta. rewrite initializeRoot_quiet.
  destruct (entries !! key [] (str "value")) as [old|] eqn:Hroot; cbn [fst snd].
  - repeat split.
    + now rewrite nodeExists_quiet, Hroot.
    + now rewrite initializeRoot_quiet, Hroot.
    + now rewrite initializeRoot_quiet, Hroot.
  - assert (Hnow : exists text,
      (<[key [] (str "children") := JSON_stringify (JArr [])]>
         (<[key [] (str "value") := str "null"]> entries))
      !! key [] (str "value") = Some text).
    { destruct (decide (key [] (str "children") = key [] (str "value")))
        as [E|E].
      - rewrite E, lookup_insert_eq. eauto.
      - rewrite lookup_insert_ne, lookup_insert_eq by assumption. eauto. }
    destruct Hnow as [text Hnow]. repeat split.
    + now rewrite nodeExists_quiet, Hnow.
    + now rewrite initializeRoot_quiet, Hnow.
    + now rewrite initializeRoot_quiet, Hnow.
Qed.

End QuietRuns.

End Settled.

(** **** After a creation *)

Section Created.

Variable sha256 : jsstring -> list Byte.byte.
Variable JSON_stringify : jsval -> jsstring.
Variable JSON_parse : jsstring -> parsed.
Variable this : KVTreeStorage.
Hypothesis retries_positive : (1 <= maxRetries this)%Z.
Hypothesis digest_injective :
  forall x y, wf_string x -> wf_string y -> sha256 x = sha256 y -> x = y.

Abbreviation key := (createStorageKey sha256 this).
Abbreviation serialize := (serializeValue JSON_stringify).
Abbreviation stored_children_ := (stored_children JSON_parse).

Lemma child_not_parent (parentPath : list jsstring) (childKey : jsstring) :
  parentPath ++ [childKey] <> parentPath.
Proof.
  intros E. apply (f_equal (@length _)) in E. rewrite length_app in E.
  cbn in E. lia.
Qed.

Lemma stored_children_same entries entries' k :
  entries' !! k = entries !! k ->
  stored_children_ entries' k = stored_children_ entries k.
Proof. unfold stored_children. now intros ->. Qed.


End Created.

(** **** After a deletion *)

Section Deleted.

Variable sha256 : jsstring -> list Byte.byte.
Variable JSON_stringify : jsval -> jsstring.
Variable JSON_parse : jsstring -> parsed.
Variable this : KVTreeStorage.
Hypothesis retries_positive : (1 <= maxRetries this)%Z.

Abbreviation key := (createStorageKey sha256 this).
Abbreviation serialize := (serializeValue JSON_stringify).
Abbreviation stored_children_ := (stored_children JSON_parse).
Abbreviation linked_ := (linked sha256 JSON_parse this).
Abbreviation children_gets_ := (children_gets sha256 this).
Abbreviation erase_ := (erase sha256 this).
Abbreviation erase_events_ := (erase_events sha256 this).
Abbreviation node_keys_ := (node_keys sha256 this).

Lemma delete_all_lookup (keys : list jsstring) :
  forall (entries : gmap jsstring jsstring) k,
  fold_left (fun m k => delete k m) keys entries !! k
  = if bool_decide (k ∈ keys) then None else entries !! k.
Proof.
  induction keys as [|k' keys IH]; intros entries k; cbn [fold_left].
  - rewrite bool_decide_eq_false_2; [reflexivity|]. apply not_elem_of_nil.
  - rewrite IH. destruct (decide (k = k')) as [->|Hne].
    + rewrite lookup_delete_eq.
      rewrite (bool_decide_eq_true_2 (k' ∈ k' :: keys)) by apply list_elem_of_here.
      now destruct (bool_decide _).
    + rewrite lookup_delete_ne by congruence.
      destruct (bool_decide (k ∈ keys)) eqn:E.
      * apply bool_decide_eq_true in E.
        rewrite bool_decide_eq_true_2; [reflexivity|now apply list_elem_of_further].
      * apply bool_decide_eq_false in E.
        rewrite bool_decide_eq_false_2; [reflexivity|].
        intros Hin. apply elem_of_cons in Hin. destruct Hin; auto.
Qed.

Lemma erase_flat (paths : list (list jsstring)) : forall entries,
  erase_ entries paths
  = fold_left (fun m k => delete k m) (flat_map node_keys_ paths) entries.
Proof.
  unfold erase. induction paths as [|p paths IH]; intros entries;
    [reflexivity|].
  cbn [fold_left flat_map]. now rewrite fold_left_app, IH.
Qed.

(** A record of an erased node is gone, and no other record is. *)
Lemma erase_lookup (paths : list (list jsstring)) entries k :
  erase_ entries paths !! k
  = if bool_decide (k ∈ flat_map node_keys_ paths) then None
    else entries !! k.
Proof. now rewrite erase_flat, delete_all_lookup. Qed.

Lemma deleteNode_quiet (fuel : nat) first rest (t : tree) items entries events :
  let pathArray := first :: rest in
  let valueKey := key pathArray (str "value") in
  let allPaths := pathArray :: descendants pathArray t in
  let erased := erase_ entries (rev allPaths) in
  let parentChildrenKey := key (parent_of pathArray) (str "children") in
  let kept :=
    List.filter (fun k => negb (is_key (List.last pathArray first) k)) items in
  entries !! valueKey <> None ->
  linked_ entries pathArray t -> (tree_size t <= fuel)%nat ->
  stored_children_ erased parentChildrenKey = Some items ->
  deleteNode sha256 JSON_stringify JSON_parse this fuel pathArray
    (quiet entries events)
  = (Ret tt,
     quiet (<[parentChildrenKey := JSON_stringify (JArr kept)]> erased)
       (events ++ [KvGet valueKey] ++ children_gets_ allPaths ++
        erase_events_ (rev allPaths) ++
        [KvGet parentChildrenKey;
         KvPut parentChildrenKey (Some (JSON_stringify (JArr kept)))])).
Proof.
  cbv zeta. set (pathArray := first :: rest).
  intros Hvalue Hlinked Hfuel Hstored.
  assert (Hunfold :
    deleteNode sha256 JSON_stringify JSON_parse this fuel pathArray =
    (exists_ <- nodeExists sha256 this pathArray ;;
     if negb exists_ then throw (not_found pathArray)
     else
       descendantPaths <-
         collectDescendants sha256 JSON_parse this fuel pathArray ;;
       try_catch
         (for_each (rev (pathArray :: descendantPaths))
            (deleteSingleNode sha256 this) ;;
          removeChildFromParent sha256 JSON_stringify JSON_parse this
            (parent_of pathArray) (List.last pathArray first))
         (fun e =>
            throw
              (Error (str "Failed to delete node " ++
                      join (str "/") pathArray ++ str ": " ++ message e)))))
    by reflexivity.
  rewrite Hunfold. clear Hunfold.
  destruct (entries !! key pathArray (str "value")) eqn:Evalue;
    [|contradiction].
  unfold bind at 1. rewrite nodeExists_quiet, Evalue. cbn [is_null negb].
  unfold bind at 1, collectDescendants.
  change [pathArray] with (List.map fst [(pathArray, t)]).
  rewrite (collect_loop_linked sha256 JSON_parse this retries_positive);
    [|now repeat constructor|cbn; lia].
  rewrite (queue_order_levels (tree_height t));
    [|cbn; lia|cbn; lia].
  cbn [app List.map fst]. fold (descendants pathArray t).
  unfold try_catch, bind.
  rewrite (erase_all_quiet sha256 this retries_positive).
  - erewrite (removeChildFromParent_quiet sha256 JSON_stringify JSON_parse
                this retries_positive) by exact Hstored.
    now rewrite <- !app_assoc.
  - apply List.Forall_rev. constructor; [discriminate|apply levels_nonempty].
Qed.

(** X15: in a world where the store raises nothing, after [deleteNode]
    the node and each of its descendants no longer exist ([nodeExists]
    answers [false] and [getNode] throws the not-found error), and the
    children list of the parent no longer holds the key of the node. *)
Theorem deleteNode_removes (fuel : nat) (first : jsstring)
    (rest : list jsstring) (t : tree) (items : list jsval)
    (entries : gmap jsstring jsstring) (events : list event) :
  let pathArray := first :: rest in
  let allPaths := pathArray :: descendants pathArray t in
  let parentChildrenKey := key (parent_of pathArray) (str "children") in
  let kept :=
    List.filter (fun k => negb (is_key (List.last pathArray first) k)) items in
  let after :=
    snd (deleteNode sha256 JSON_stringify JSON_parse this fuel pathArray
           (quiet entries events)) in
  entries !! key pathArray (str "value") <> None ->
  linked_ entries pathArray t -> (tree_size t <= fuel)%nat ->
  stored_children_ (erase_ entries (rev allPaths)) parentChildrenKey
  = Some items ->
  (forall q, List.In q allPaths ->
     fst (nodeExists sha256 this q after) = Ret false /\
     fst (getNode sha256 JSON_parse this q after) = Throw (not_found q)) /\
  (JSON_parse (JSON_stringify (JArr kept)) = Parsed (JArr kept) ->
   fst (getChildren sha256 JSON_parse this (parent_of pathArray) after)
   = Ret (JArr kept)) /\
  existsb (is_key (List.last pathArray first)) kept = false.
Proof.
  cbv zeta. intros Hvalue Hlinked Hfuel Hstored.
  rewrite (deleteNode_quiet fuel first rest t items entries events
             Hvalue Hlinked Hfuel Hstored).
  cbn [snd]. split; [|split].
  - intros q Hq.
    assert (Hgone : forall suffix,
      List.In suffix [str "value"; str "children"] ->
      (<[key (parent_of (first :: rest)) (str "children") :=
           JSON_stringify
             (JArr (List.filter
                      (fun k => negb (is_key (List.last (first :: rest) first) k))
                      items))]>
         (erase_ entries (rev ((first :: rest) ::
                               descendants (first :: rest) t))))
      !! key q suffix = None \/ suffix = str "children").
    { intros suffix Hsuffix.
      destruct (decide (key (parent_of (first :: rest)) (str "children")
                        = key q suffix)) as [E|E].
      - right. now apply key_parts in E.
      - left. rewrite lookup_insert_ne by exact E.
        rewrite erase_lookup, bool_decide_eq_true_2; [reflexivity|].
        apply list_elem_of_In, List.in_flat_map. exists q. split.
        + now apply List.in_rev in Hq.
        + unfold node_keys. cbn [List.In] in *. intuition (subst; auto). }
    destruct (Hgone (str "value")) as [Hv|Hv]; [now left| |discriminate Hv].
    split.
    + now rewrite nodeExists_quiet, Hv.
    + unfold getNode, bind, promise_all2, getValue, getChildren, bind.
      rewrite (withRetry_get_quiet this retries_positive), Hv. cbv [throw].
      rewrite (withRetry_get_quiet this retries_positive).
      destruct (_ !! key q (str "children")) as [text|]; [|reflexivity].
      unfold deserializeValue. now destruct (JSON_parse text).
  - intros Hjson. unfold getChildren, bind.
    rewrite (withRetry_get_quiet this retries_positive), lookup_insert_eq.
    unfold deserializeValue. now rewrite Hjson.
  - clear Hstored. induction items as [|item items IH]; [reflexivity|].
    cbn [List.filter].
    destruct (is_key (List.last (first :: rest) first) item) eqn:E;
      cbn [negb existsb]; [exact IH|].
    now rewrite E.
Qed.

End Deleted.

(** **** Sorted keys *)

Section Sorted.

Variable JSON_stringify : jsval -> jsstring.

Lemma prop_insert_ordinary (props : list (jsstring * jsval)) k v :
  array_index k = None -> prop_insert props k v = props ++ [(k, v)].
Proof.
  intros Hk. induction props as [|[k' v'] props IH]; [reflexivity|].
  cbn [prop_insert app]. rewrite Hk. now rewrite IH.
Qed.

Lemma prop_set_new (props : list (jsstring * jsval)) k v :
  ordinary_key k -> ~ List.In k (List.map fst props) ->
  prop_set props k v = props ++ [(k, v)].
Proof.
  intros [Hindex Hproto] Hnew. unfold prop_set.
  destruct (str_eqb k (str "__proto__")) eqn:E;
    [now apply str_eqb_eq in E|].
  destruct (existsb (fun kv => str_eqb (fst kv) k) props) eqn:Hex.
  - exfalso. apply Hnew. apply List.existsb_exists in Hex.
    destruct Hex as ([k' v'] & Hin & Hk). apply str_eqb_eq in Hk.
    cbn in Hk. subst k'. apply List.in_map_iff. now exists (k, v').
  - now apply prop_insert_ordinary.
Qed.

Lemma copy_ordinary (value : jsstring -> jsval) (keys : list jsstring) :
  List.NoDup keys -> List.Forall ordinary_key keys ->
  forall sortedObj,
  (forall k, List.In k keys -> ~ List.In k (List.map fst sortedObj)) ->
  fold_left (fun sortedObj key => prop_set sortedObj key (value key)) keys
    sortedObj
  = sortedObj ++ List.map (fun key => (key, value key)) keys.
Proof.
  induction 1 as [|k keys Hk Hnd IH]; intros Hord sortedObj Hnew.
  - cbn. now rewrite app_nil_r.
  - inversion_clear Hord as [|? ? Hok Hord'].
    cbn [fold_left List.map]. rewrite prop_set_new; [|assumption|].
    + rewrite IH; [now rewrite <- app_assoc|assumption|].
      intros k' Hk' Hin. rewrite List.map_app in Hin.
      apply List.in_app_iff in Hin. cbn in Hin.
      destruct Hin as [Hin|[<-|[]]].
      * apply (Hnew k'); [now right|assumption].
      * contradiction.
    + apply Hnew. now left.
Qed.

(** X16: an object whose keys are all different, none of them an array
    index or [__proto__], is serialized as the object of the same
    properties with the keys in ascending order of code units. *)
Theorem serializeValue_sorted (props : list (jsstring * jsval)) :
  List.NoDup (List.map fst props) ->
  List.Forall ordinary_key (List.map fst props) ->
  let keys := sort (List.map fst props) in
  serializeValue JSON_stringify (JObj props)
  = Some (JSON_stringify
            (JObj (List.map (fun key => (key, prop_get props key)) keys))) /\
  Sorted str_le keys /\ keys ≡ₚ List.map fst props.
Proof.
  intros Hnd Hord. cbv zeta.
  assert (Hperm : sort (List.map fst props) ≡ₚ List.map fst props)
    by apply merge_sort_Permutation.
  split; [|split; [apply Sorted_merge_sort, str_le_total|exact Hperm]].
  cbn [serializeValue]. rewrite copy_ordinary; [reflexivity| | |].
  - eapply Permutation_NoDup; [symmetry; exact Hperm|exact Hnd].
  - eapply Permutation_Forall; [symmetry; exact Hperm|exact Hord].
  - intros k _ [].
Qed.

End Sorted.

(** **** Traversals of stored trees *)

Section Walked.

Variable sha256 : jsstring -> list Byte.byte.
Variable JSON_stringify : jsval -> jsstring.
Variable JSON_parse : jsstring -> parsed.
Variable this : KVTreeStorage.
Hypothesis retries_positive : (1 <= maxRetries this)%Z.

Abbreviation key := (createStorageKey sha256 this).
Abbreviation stored_ := (stored sha256 JSON_parse this).
Abbreviation visit_events_ := (visit_events sha256 this).

Lemma log_quiet ev entries events :
  log ev (quiet entries events) = quiet entries (events ++ [ev]).
Proof. reflexivity. Qed.

Lemma for_of_keys (subtrees : list (jsstring * tree)) :
  for_of (JArr (List.map (fun kc => JStr (fst kc)) subtrees))
  = Keys (List.map fst subtrees).
Proof.
  unfold for_of. rewrite <- (List.map_map fst JStr).
  now rewrite strings_of_keys.
Qed.

Lemma getNode_stored entries events p t :
  stored_ entries p t ->
  getNode sha256 JSON_parse this p (quiet entries events)
  = (Ret (node_of p t),
     quiet entries
       (events ++ [KvGet (key p (str "value"));
                   KvGet (key p (str "children"))])).
Proof.
  destruct t as [v subtrees]. cbn [stored].
  intros ((vt & Ev & Hv) & (ct & Ec & Hc) & _).
  rewrite (getNode_quiet sha256 JSON_parse this retries_positive p entries
             events vt ct v _ Ev Ec Hv Hc).
  unfold node_of. now rewrite length_map.
Qed.

Lemma stored_subtrees entries p v subtrees :
  stored_ entries p (Node v subtrees) ->
  List.Forall (fun kc => stored_ entries (p ++ [fst kc]) (snd kc)) subtrees.
Proof.
  cbn [stored]. intros (_ & _ & H).
  induction subtrees as [|kc subtrees IH]; [constructor|].
  cbn in H. destruct H as [Hkc H]. constructor; [exact Hkc|now apply IH].
Qed.

Lemma height_subtrees (fuel : nat) v subtrees :
  (tree_height (Node v subtrees) <= S fuel)%nat ->
  List.Forall (fun kc => (tree_height (snd kc) <= fuel)%nat) subtrees.
Proof.
  cbn [tree_height]. intros H. apply le_S_n in H.
  induction subtrees as [|kc subtrees IH]; [constructor|].
  cbn in H. constructor; [lia|apply IH; lia].
Qed.

Section Closure.

Context {St : Type}.
Variable callback : closure St.
Variable maxDepth : option nat.
Variable includeInternal : bool.

(** What the lemma below says for one amount of fuel. *)
Let walked entries (fuel : nat) : Prop :=
  forall p t depth state events,
  stored_ entries p t -> (tree_height t <= fuel)%nat ->
  depthFirstTraverse_with sha256 JSON_parse this fuel p callback maxDepth
    includeInternal depth state (quiet entries events)
  = (Ret (fst (walk callback maxDepth p t depth state)),
     quiet entries
       (events ++
        flat_map visit_events_ (snd (walk callback maxDepth p t depth state)))).

Lemma children_walked entries (fuel : nat) p depth :
  walked entries fuel ->
  forall subtrees state visits events,
  List.Forall (fun kc => stored_ entries (p ++ [fst kc]) (snd kc)) subtrees ->
  List.Forall (fun kc => (tree_height (snd kc) <= fuel)%nat) subtrees ->
  let acc :=
    fold_left
      (fun acc kc =>
         let '(state, visits) :=
           walk callback maxDepth (p ++ [fst kc]) (snd kc) (S depth)
             (fst acc) in
         (state, snd acc ++ visits))
      subtrees (state, visits) in
  for_each_with (List.map fst subtrees)
    (fun childKey state =>
       depthFirstTraverse_with sha256 JSON_parse this fuel (p ++ [childKey])
         callback maxDepth includeInternal (S depth) state)
    state (quiet entries (events ++ flat_map visit_events_ visits))
  = (Ret (fst acc), quiet entries (events ++ flat_map visit_events_ (snd acc))).
Proof.
  intros IH. induction subtrees as [|kc subtrees IHs];
    intros state visits events Hsub Hh; [reflexivity|].
  inversion_clear Hsub as [|? ? Hkc Hsub']. inversion_clear Hh as [|? ? Hk Hh'].
  cbn [List.map for_each_with fold_left fst snd]. unfold bind at 1.
  rewrite (IH _ _ _ _ _ Hkc Hk).
  destruct (walk callback maxDepth (p ++ [fst kc]) (snd kc) (S depth) state)
    as [state2 visits2]. cbn [fst snd].
  rewrite <- app_assoc, <- flat_map_app.
  now apply IHs.
Qed.

(** A depth-first traversal of a stored tree is the walk of the tree. *)
Lemma depthFirstTraverse_with_stored entries (fuel : nat) :
  forall p t depth state events,
  stored_ entries p t -> (tree_height t <= fuel)%nat ->
  depthFirstTraverse_with sha256 JSON_parse this fuel p callback maxDepth
    includeInternal depth state (quiet entries events)
  = (Ret (fst (walk callback maxDepth p t depth state)),
     quiet entries
       (events ++
        flat_map visit_events_ (snd (walk callback maxDepth p t depth state)))).
Proof.
  induction fuel as [|fuel IH]; intros p t depth state events Hstored Hheight.
  - destruct t as [v subtrees]. cbn in Hheight. lia.
  - destruct t as [v subtrees]. cbn [depthFirstTraverse_with walk].
    destruct (deeper depth maxDepth); [cbn; now rewrite app_nil_r|].
    unfold bind at 1.
    rewrite (getNode_stored entries events p (Node v subtrees) Hstored).
    unfold bind at 1, call_with at 1.
    destruct (callback (node_of p (Node v subtrees)) depth state)
      as [answer state1].
    rewrite log_quiet, <- app_assoc.
    destruct (is_false answer); [reflexivity|].
    cbn [children node_of subtrees_of]. rewrite for_of_keys.
    apply (children_walked entries fuel p depth IH subtrees state1
             [(node_of p (Node v subtrees), depth, answer)] events).
    + now apply stored_subtrees with v.
    + now apply height_subtrees with v.
Qed.

End Closure.

End Walked.

(** **** Walks of trees *)

Lemma tree_induction (P : tree -> Prop) :
  (forall v subtrees,
     List.Forall (fun kc => P (snd kc)) subtrees -> P (Node v subtrees)) ->
  forall t, P t.
Proof.
  intros H. fix self 1. intros [v subtrees]. apply H.
  induction subtrees as [|kc subtrees IH]; constructor; [apply self|apply IH].
Qed.

Section PureWalks.

Variable callback : visitor.
Variable maxDepth : option nat.

Lemma walk_stateless (t : tree) : forall p depth,
  walk (stateless callback) maxDepth p t depth tt
  = (tt,
     List.map (fun nd => (nd, callback (fst nd) (snd nd)))
       (preorder callback maxDepth p t depth)).
Proof.
  induction t as [v subtrees IH] using tree_induction. intros p depth.
  cbn [walk preorder]. destruct (deeper depth maxDepth); [reflexivity|].
  unfold stateless at 1. set (node := node_of p (Node v subtrees)).
  destruct (is_false (callback node depth)); [reflexivity|].
  cbn [subtrees_of List.map fst snd].
  change ((node, depth, callback node depth) ::
          List.map (fun nd => (nd, callback (fst nd) (snd nd)))
            (flat_map
               (fun kc => preorder callback maxDepth (p ++ [fst kc]) (snd kc)
                            (S depth)) subtrees))
    with ([(node, depth, callback node depth)] ++
          List.map (fun nd => (nd, callback (fst nd) (snd nd)))
            (flat_map
               (fun kc => preorder callback maxDepth (p ++ [fst kc]) (snd kc)
                            (S depth)) subtrees)).
  generalize [(node, depth, callback node depth)] as visits.
  clearbody node. clear node.
  induction IH as [|kc subtrees Hkc _ IHs]; intros visits.
  - cbn. now rewrite app_nil_r.
  - cbn [fold_left flat_map fst snd]. rewrite Hkc.
    rewrite IHs, List.map_app, <- app_assoc. reflexivity.
Qed.

End PureWalks.

Section Unpruned.

Context {St : Type}.
Variable callback : closure St.
Hypothesis answers_true :
  forall node depth state, fst (callback node depth state) = JBool true.

Lemma walk_unpruned (t : tree) : forall p depth state,
  walk callback None p t depth state
  = (fold_left (fun state nd => snd (callback (fst nd) (snd nd) state))
       (all_nodes p t depth) state,
     List.map (fun nd => (nd, JBool true)) (all_nodes p t depth)).
Proof.
  induction t as [v subtrees IH] using tree_induction. intros p depth state.
  unfold all_nodes. cbn [walk preorder deeper is_false].
  set (node := node_of p (Node v subtrees)).
  pose proof (answers_true node depth state) as Hanswer.
  destruct (callback node depth state) as [answer state1] eqn:Ecall.
  cbn [fst] in Hanswer. subst answer. cbn [is_false subtrees_of].
  cbn [fold_left fst snd List.map]. rewrite Ecall. cbn [snd].
  change ((node, depth, JBool true) ::
          List.map (fun nd => (nd, JBool true))
            (flat_map
               (fun kc => preorder (fun _ _ => JBool true) None
                            (p ++ [fst kc]) (snd kc) (S depth)) subtrees))
    with ([(node, depth, JBool true)] ++
          List.map (fun nd => (nd, JBool true))
            (flat_map
               (fun kc => preorder (fun _ _ => JBool true) None
                            (p ++ [fst kc]) (snd kc) (S depth)) subtrees)).
  generalize [(node, depth, JBool true)] as visits.
  clear Ecall. revert state1. clearbody node. clear node.
  induction IH as [|kc subtrees Hkc _ IHs]; intros state1 visits.
  - cbn. now rewrite app_nil_r.
  - cbn [fold_left flat_map fst snd]. rewrite Hkc. fold (all_nodes (p ++ [fst kc]) (snd kc) (S depth)).
    rewrite IHs, fold_left_app, List.map_app, <- app_assoc. reflexivity.
Qed.

End Unpruned.

Section Measures.

Variable JSON_stringify : jsval -> jsstring.

Lemma tree_height_positive (t : tree) : (1 <= tree_height t)%nat.
Proof. destruct t. cbn. lia. Qed.

Lemma tree_leaves_children v (subtrees : list (jsstring * tree)) :
  tree_leaves (Node v subtrees)
  = if Nat.eqb (length subtrees) 0 then 1%nat
    else fold_right (fun kc n => (tree_leaves (snd kc) + n)%nat) 0%nat subtrees.
Proof. now destruct subtrees. Qed.

(** The counters of [getStats] after the nodes of a tree. *)
Lemma count_all_nodes (t : tree) : forall p depth state,
  fold_left
    (fun state nd => snd (count_node JSON_stringify (fst nd) (snd nd) state))
    (all_nodes p t depth) state
  = {| nodes := nodes state + tree_size t;
       leaves := leaves state + tree_leaves t;
       deepest := Nat.max (deepest state) (depth + tree_height t - 1);
       totalSize := totalSize state + tree_weight JSON_stringify t |}.
Proof.
  induction t as [v subtrees IH] using tree_induction. intros p depth state.
  unfold all_nodes. cbn [preorder deeper is_false subtrees_of fold_left].
  cbn [count_node snd fst node_of value children length_is_zero].
  rewrite length_map, tree_leaves_children.
  cbn [tree_size tree_height tree_weight].
  fold (valueSize JSON_stringify v).
  set (state1 :=
    {| nodes := S (nodes state);
       leaves := if Nat.eqb (length subtrees) 0 then S (leaves state)
                 else leaves state;
       deepest := Nat.max (deepest state) depth;
       totalSize := totalSize state + valueSize JSON_stringify v |}).
  assert (Hloop : forall st,
    fold_left
      (fun state nd => snd (count_node JSON_stringify (fst nd) (snd nd) state))
      (flat_map
         (fun kc => preorder (fun _ _ => JBool true) None (p ++ [fst kc])
                      (snd kc) (S depth)) subtrees) st
    = {| nodes :=
           nodes st +
           fold_right (fun kc n => (tree_size (snd kc) + n)%nat) 0%nat subtrees;
         leaves :=
           leaves st +
           fold_right (fun kc n => (tree_leaves (snd kc) + n)%nat) 0%nat
             subtrees;
         deepest :=
           Nat.max (deepest st)
             (if Nat.eqb (length subtrees) 0 then 0%nat
              else depth +
                   fold_right (fun kc n => Nat.max (tree_height (snd kc)) n)
                     0%nat subtrees);
         totalSize :=
           totalSize st +
           fold_right (fun kc n => (tree_weight JSON_stringify (snd kc) + n)%nat)
             0%nat subtrees |}).
  { clear state1. induction IH as [|kc subtrees Hkc _ IHs]; intros st.
    - destruct st. cbn. f_equal; lia.
    - cbn [flat_map fold_right length]. rewrite fold_left_app.
      fold (all_nodes (p ++ [fst kc]) (snd kc) (S depth)).
      rewrite Hkc, IHs. cbn [nodes leaves deepest totalSize Nat.eqb].
      pose proof (tree_height_positive (snd kc)).
      f_equal; try lia.
      destruct (Nat.eqb (length subtrees) 0) eqn:E; [|lia].
      apply Nat.eqb_eq in E. destruct subtrees; [cbn; lia|discriminate]. }
  rewrite Hloop. subst state1. cbn [nodes leaves deepest totalSize].
  f_equal; try lia.
  - destruct (Nat.eqb (length subtrees) 0) eqn:E; [|lia].
    apply Nat.eqb_eq in E. destruct subtrees; [cbn; lia|discriminate].
  - destruct (Nat.eqb (length subtrees) 0) eqn:E; [|lia].
    apply Nat.eqb_eq in E. destruct subtrees; [cbn; lia|discriminate].
Qed.

Lemma collect_matches (predicate : visitor) (l : list (snapshot * nat)) :
  forall results,
  fold_left
    (fun results nd =>
       if truthy (predicate (fst nd) (snd nd)) then results ++ [fst nd]
       else results) l results
  = results ++
    List.map fst
      (List.filter (fun nd => truthy (predicate (fst nd) (snd nd))) l).
Proof.
  induction l as [|nd l IH]; intros results; cbn [fold_left List.filter].
  - now rewrite app_nil_r.
  - rewrite IH. destruct (truthy _); [|reflexivity].
    cbn [List.map]. now rewrite <- app_assoc.
Qed.

End Measures.

Section Traversed.

Variable sha256 : jsstring -> list Byte.byte.
Variable JSON_stringify : jsval -> jsstring.
Variable JSON_parse : jsstring -> parsed.
Variable this : KVTreeStorage.
Hypothesis retries_positive : (1 <= maxRetries this)%Z.

Abbreviation key := (createStorageKey sha256 this).
Abbreviation stored_ := (stored sha256 JSON_parse this).
Abbreviation visit_events_ := (visit_events sha256 this).

Lemma stored_exists entries p t :
  stored_ entries p t ->
  is_null (entries !! key p (str "value")) = false.
Proof.
  destruct t as [v subtrees]. cbn [stored].
  now intros ((vt & -> & _) & _).
Qed.

Lemma traverse_with_stored {St} (callback : closure St) maxDepth
    includeInternal entries (fuel : nat) p t state events :
  stored_ entries p t -> (tree_height t <= fuel)%nat ->
  traverse_with sha256 JSON_parse this fuel p callback DepthFirst maxDepth
    includeInternal state (quiet entries events)
  = (Ret (fst (walk callback maxDepth p t 0 state)),
     quiet entries
       (events ++ [KvGet (key p (str "value"))] ++
        flat_map visit_events_ (snd (walk callback maxDepth p t 0 state)))).
Proof.
  intros Hstored Hheight. unfold traverse_with, bind.
  rewrite nodeExists_quiet, (stored_exists _ _ _ Hstored). cbn [negb].
  rewrite (depthFirstTraverse_with_stored sha256 JSON_parse this
             retries_positive callback maxDepth includeInternal entries fuel
             p t 0 state _ Hstored Hheight).
  now rewrite <- app_assoc.
Qed.

(** X17: in a world where the store raises nothing, a depth-first
    traversal of a stored tree succeeds, changes nothing, and calls the
    visitor on the nodes of the tree in pre-order, each with its depth:
    a node before its subtrees, the subtrees in the order of the children
    list, nothing beyond the depth limit and nothing below a node where
    the visitor answers [false]. *)
Theorem traverse_depth_first_order (fuel : nat) (p : list jsstring) (t : tree)
    (callback : visitor) (maxDepth : option nat) (includeInternal : bool)
    (entries : gmap jsstring jsstring) (events : list event) :
  stored_ entries p t -> (tree_height t <= fuel)%nat ->
  traverse sha256 JSON_parse this fuel p callback DepthFirst maxDepth
    includeInternal (quiet entries events)
  = (Ret tt,
     quiet entries
       (events ++ [KvGet (key p (str "value"))] ++
        flat_map visit_events_
          (List.map (fun nd => (nd, callback (fst nd) (snd nd)))
             (preorder callback maxDepth p t 0)))).
Proof.
  intros Hstored Hheight. rewrite traverse_stateless.
  rewrite (traverse_with_stored _ _ _ _ _ _ _ _ _ Hstored Hheight).
  now rewrite walk_stateless.
Qed.

(** X19: in a world where the store raises nothing, [findNodes] on a
    stored tree returns the nodes at which the predicate answers a truthy
    value, in pre-order, and changes nothing. *)
Theorem findNodes_stored (fuel : nat) (p : list jsstring) (t : tree)
    (predicate : visitor)
    (entries : gmap jsstring jsstring) (events : list event) :
  stored_ entries p t -> (tree_height t <= fuel)%nat ->
  findNodes sha256 JSON_parse this fuel predicate p (quiet entries events)
  = (Ret (List.map fst
            (List.filter (fun nd => truthy (predicate (fst nd) (snd nd)))
               (all_nodes p t 0))),
     quiet entries
       (events ++ [KvGet (key p (str "value"))] ++
        flat_map visit_events_
          (List.map (fun nd => (nd, JBool true)) (all_nodes p t 0)))).
Proof.
  intros Hstored Hheight. unfold findNodes.
  rewrite (traverse_with_stored _ _ _ _ _ _ _ _ _ Hstored Hheight).
  rewrite walk_unpruned by reflexivity. cbn [fst snd].
  now rewrite collect_matches.
Qed.

(** X20: in a world where the store raises nothing, [getStats] on a
    stored tree returns the number of its nodes, the number of its
    leaves, their difference, its height less one, and the sum of the
    lengths of the JSON texts of its truthy values. *)
Theorem getStats_stored (fuel : nat) (p : list jsstring) (t : tree)
    (entries : gmap jsstring jsstring) (events : list event) :
  stored_ entries p t -> (tree_height t <= fuel)%nat ->
  getStats sha256 JSON_stringify JSON_parse this fuel p (quiet entries events)
  = (Ret {| nodeCount := tree_size t;
            leafCount := tree_leaves t;
            internalNodeCount :=
              (Z.of_nat (tree_size t) - Z.of_nat (tree_leaves t))%Z;
            maxDepth := tree_height t - 1;
            estimatedSize := tree_weight JSON_stringify t |},
     quiet entries
       (events ++ [KvGet (key p (str "value"))] ++
        flat_map visit_events_
          (List.map (fun nd => (nd, JBool true)) (all_nodes p t 0)))).
Proof.
  intros Hstored Hheight. unfold getStats, bind.
  rewrite (traverse_with_stored _ _ _ _ _ _ _ _ _ Hstored Hheight).
  rewrite walk_unpruned by reflexivity. cbn [fst snd].
  now rewrite count_all_nodes.
Qed.

End Traversed.

Section Exported.

Variable sha256 : jsstring -> list Byte.byte.
Variable JSON_stringify : jsval -> jsstring.
Variable JSON_parse : jsstring -> parsed.
Variable this : KVTreeStorage.
Hypothesis retries_positive : (1 <= maxRetries this)%Z.

Abbreviation key := (createStorageKey sha256 this).
Abbreviation stored_ := (stored sha256 JSON_parse this).
Abbreviation visit_events_ := (visit_events sha256 this).
Abbreviation tree_reads_ := (tree_reads sha256 this).

(** X21: in a world where the store raises nothing, [exportTree] on a
    stored tree returns the object of the value of the node and of the
    exported children under their keys, reads the two records of each
    node once, in pre-order, and changes nothing. *)
Theorem exportTree_stored (entries : gmap jsstring jsstring) (fuel : nat) :
  forall (p : list jsstring) (t : tree) (events : list event),
  stored_ entries p t -> (tree_height t <= fuel)%nat ->
  exportTree sha256 JSON_parse this fuel p (quiet entries events)
  = (Ret (exported t), quiet entries (events ++ tree_reads_ p t)).
Proof.
  induction fuel as [|fuel IH]; intros p t events Hstored Hheight.
  - destruct t as [v subtrees]. cbn in Hheight. lia.
  - destruct t as [v subtrees]. cbn [exportTree]. unfold bind at 1.
    rewrite (getNode_stored sha256 JSON_parse this retries_positive entries
               events p (Node v subtrees) Hstored).
    cbn [children value node_of]. rewrite for_of_keys.
    pose proof (stored_subtrees _ _ _ _ _ _ _ Hstored) as Hsub.
    pose proof (height_subtrees _ _ _ Hheight) as Hh.
    assert (Hloop : forall subtrees' result_children evs,
      List.Forall (fun kc => stored_ entries (p ++ [fst kc]) (snd kc))
        subtrees' ->
      List.Forall (fun kc => (tree_height (snd kc) <= fuel)%nat) subtrees' ->
      for_each_with (List.map fst subtrees')
        (fun childKey result_children =>
           child <- exportTree sha256 JSON_parse this fuel (p ++ [childKey]) ;;
           ret (prop_set result_children childKey child))
        result_children (quiet entries evs)
      = (Ret (fold_left
                (fun result_children kc =>
                   prop_set result_children (fst kc) (exported (snd kc)))
                subtrees' result_children),
         quiet entries
           (evs ++
            flat_map (fun kc => tree_reads_ (p ++ [fst kc]) (snd kc))
              subtrees'))).
    { induction subtrees' as [|kc subtrees' IHs];
        intros result_children evs Hs Hhs.
      - cbn. now rewrite app_nil_r.
      - inversion_clear Hs as [|? ? Hkc Hs']. inversion_clear Hhs as [|? ? Hk Hhs'].
        cbn [List.map for_each_with fold_left flat_map]. unfold bind at 1 2.
        rewrite (IH _ _ _ Hkc Hk). cbv [ret].
        rewrite IHs by assumption. now rewrite <- app_assoc. }
    unfold bind. rewrite Hloop by assumption. cbv [ret].
    cbn [exported tree_reads subtrees_of]. now rewrite <- app_assoc.
Qed.

End Exported.

(** **** Breadth first *)

Lemma queue_nodes_front (front : forest) : forall fuel back,
  queue_nodes (length front + fuel) (front ++ back)
  = flat_map kids front ++ queue_nodes fuel (back ++ flat_map kids front).
Proof.
  induction front as [|pt front IH]; intros fuel back.
  - cbn. now rewrite app_nil_r.
  - cbn [length Nat.add app queue_nodes flat_map].
    rewrite <- app_assoc, IH, <- !app_assoc. reflexivity.
Qed.

Lemma queue_nodes_levels (depth : nat) : forall fuel f,
  (forest_height f <= depth)%nat -> (forest_size f <= fuel)%nat ->
  queue_nodes fuel f = level_nodes depth f.
Proof.
  induction depth as [|depth IH]; intros fuel f Hh Hs.
  - destruct f as [|pt f]; [now destruct fuel|].
    cbn in Hh. pose proof (forest_height_kids pt). lia.
  - pose proof (forest_size_flat_kids f) as Hsize.
    pose proof (queue_nodes_front f (fuel - length f) []) as Hq.
    rewrite app_nil_r in Hq. cbn [app] in Hq.
    replace (length f + (fuel - length f))%nat with fuel in Hq by lia.
    rewrite Hq. cbn [level_nodes]. f_equal. apply IH.
    + rewrite forest_height_flat_kids. lia.
    + lia.
Qed.

Lemma level_nodes_paths (depth : nat) : forall f,
  List.map fst (level_nodes depth f) = levels depth f.
Proof.
  induction depth as [|depth IH]; intros f; [reflexivity|].
  cbn [level_nodes levels]. now rewrite List.map_app, IH.
Qed.

Section Breadth.

Variable sha256 : jsstring -> list Byte.byte.
Variable JSON_parse : jsstring -> parsed.
Variable this : KVTreeStorage.
Hypothesis retries_positive : (1 <= maxRetries this)%Z.

Variable callback : visitor.
Hypothesis never_false : forall node depth, is_false (callback node depth) = false.

Abbreviation key := (createStorageKey sha256 this).
Abbreviation stored_ := (stored sha256 JSON_parse this).
Abbreviation visit_events_ := (visit_events sha256 this).

Lemma stored_kids entries pt :
  stored_ entries (fst pt) (snd pt) ->
  List.Forall (fun pt => stored_ entries (fst pt) (snd pt)) (kids pt).
Proof.
  destruct pt as [p [v subtrees]]. cbn [fst snd]. intros H.
  apply stored_subtrees in H. unfold kids. cbn [fst snd subtrees_of].
  apply List.Forall_map. exact H.
Qed.

Lemma queued_kids (base : nat) (pt : list jsstring * tree) :
  (base <= length (fst pt))%nat ->
  List.map (fun childKey => (fst pt ++ [childKey], S (length (fst pt) - base)))
    (List.map fst (subtrees_of (snd pt)))
  = List.map (fun pt => (fst pt, (length (fst pt) - base)%nat)) (kids pt).
Proof.
  intros Hbase. unfold kids. rewrite !List.map_map.
  apply List.map_ext. intros kc. cbn [fst]. f_equal.
  rewrite length_app. cbn. lia.
Qed.

Lemma kids_deeper (base : nat) (pt : list jsstring * tree) :
  (base <= length (fst pt))%nat ->
  List.Forall (fun pt => (base <= length (fst pt))%nat) (kids pt).
Proof.
  intros Hbase. unfold kids. apply List.Forall_map, List.Forall_forall.
  intros kc _. cbn [fst]. rewrite length_app. lia.
Qed.

Lemma breadth_loop_stored entries (base fuel : nat) : forall (f : forest) events,
  List.Forall (fun pt => stored_ entries (fst pt) (snd pt)) f ->
  List.Forall (fun pt => (base <= length (fst pt))%nat) f ->
  (forest_size f <= fuel)%nat ->
  breadth_loop sha256 JSON_parse this fuel
    (List.map (fun pt => (fst pt, (length (fst pt) - base)%nat)) f)
    callback None (quiet entries events)
  = (Ret tt,
     quiet entries
       (events ++
        flat_map visit_events_
          (List.map (visit_of callback base) (f ++ queue_nodes fuel f)))).
Proof.
  induction fuel as [|fuel IH]; intros f events Hstored Hbase Hsize.
  - destruct f as [|pt f].
    + cbn. now rewrite app_nil_r.
    + cbn in Hsize. pose proof (forest_size_kids pt). lia.
  - destruct f as [|pt f].
    + cbn. now rewrite app_nil_r.
    + inversion_clear Hstored as [|? ? Hpt Hf].
      inversion_clear Hbase as [|? ? Hb Hbf].
      assert (Hpath : path (node_of (fst pt) (snd pt)) = fst pt)
        by now destruct (snd pt).
      cbn [List.map breadth_loop deeper]. unfold bind at 1.
      rewrite (getNode_stored sha256 JSON_parse this retries_positive entries
                 events (fst pt) (snd pt) Hpt).
      unfold bind at 1, call at 1. rewrite log_quiet, never_false.
      replace (children (node_of (fst pt) (snd pt)))
        with (JArr (List.map (fun kc => JStr (fst kc)) (subtrees_of (snd pt))))
        by now destruct (snd pt).
      rewrite for_of_keys, queued_kids by assumption.
      rewrite <- List.map_app, IH.
      * cbn [queue_nodes app List.map flat_map]. f_equal. f_equal.
        unfold visit_events at 2, visit_of at 2. rewrite Hpath.
        rewrite <- !app_assoc. reflexivity.
      * apply List.Forall_app. split; [assumption|now apply stored_kids].
      * apply List.Forall_app. split; [assumption|now apply kids_deeper].
      * rewrite forest_size_app. cbn in Hsize.
        pose proof (forest_size_kids pt). fold (forest_size f) in Hsize. lia.
Qed.

(** X18: in a world where the store raises nothing, a breadth-first
    traversal of a stored tree with a visitor that never answers [false]
    calls it on the start node and then on its descendants level by
    level, from left to right in each level (the order of [descendants]),
    each with its depth. *)
Theorem traverse_breadth_first_order (fuel : nat) (p : list jsstring)
    (t : tree) (includeInternal : bool)
    (entries : gmap jsstring jsstring) (events : list event) :
  stored_ entries p t -> (tree_size t <= fuel)%nat ->
  traverse sha256 JSON_parse this fuel p callback BreadthFirst None
    includeInternal (quiet entries events)
  = (Ret tt,
     quiet entries
       (events ++ [KvGet (key p (str "value"))] ++
        flat_map visit_events_
          (List.map (visit_of callback (length p))
             ((p, t) :: level_nodes (tree_height t) [(p, t)])))) /\
  List.map fst (level_nodes (tree_height t) [(p, t)]) = descendants p t.
Proof.
  intros Hstored Hsize. split; [|apply level_nodes_paths].
  unfold traverse, bind.
  rewrite nodeExists_quiet.
  rewrite (stored_exists sha256 JSON_parse this entries p t Hstored).
  cbn [negb]. unfold breadthFirstTraverse.
  replace [(p, 0%nat)]
    with (List.map (fun pt : list jsstring * tree =>
                      (fst pt, (length (fst pt) - length p)%nat)) [(p, t)])
    by (cbn; now rewrite Nat.sub_diag).
  rewrite breadth_loop_stored;
    [|now repeat constructor|repeat constructor; cbn; lia|cbn; lia].
  rewrite (queue_nodes_levels (tree_height t)); [|cbn; lia|cbn; lia].
  now rewrite <- app_assoc.
Qed.

End Breadth.


(** **** The errors of a deletion and of a move *)

Section Errors.

Variable sha256 : jsstring -> list Byte.byte.
Variable JSON_stringify : jsval -> jsstring.
Variable JSON_parse : jsstring -> parsed.
Variable this : KVTreeStorage.

Lemma nodeExists_unthrown p w : unthrown (fst (nodeExists sha256 this p w)).
Proof.
  unfold nodeExists, try_catch, bind.
  destruct (kv_get _ w) as [[value|e| |] w']; exact I.
Qed.



End Errors.

(** **** Paths below paths *)

Lemma prefix_snoc_inv {X} (l m : list X) (x : X) :
  l `prefix_of` m ++ [x] -> l `prefix_of` m \/ l = m ++ [x].
Proof.
  intros [r E]. revert E. induction r as [|y r' _] using rev_ind; intros E.
  - right. now rewrite app_nil_r in E.
  - left. rewrite app_assoc in E. apply app_inj_tail in E.
    destruct E as [-> _]. now exists r'.
Qed.

Lemma apart_below (s np q : list jsstring) :
  ~ s `prefix_of` np -> ~ np `prefix_of` s ->
  s `prefix_of` q -> ~ np `prefix_of` q.
Proof.
  intros Hs Hnp Hsq Hnq.
  destruct (prefix_weak_total _ _ _ Hsq Hnq); auto.
Qed.

Lemma siblings_apart (p q : list jsstring) (c c' : jsstring) :
  c <> c' -> (p ++ [c]) `prefix_of` q -> ~ (p ++ [c']) `prefix_of` q.
Proof.
  intros Hc H H'.
  assert (E : p ++ [c] = p ++ [c']).
  { destruct (prefix_weak_total _ _ _ H H') as [Hp|Hp];
      [|symmetry]; apply prefix_length_eq in Hp; auto;
      rewrite !length_app; cbn; lia. }
  apply app_inj_tail in E. now destruct E.
Qed.

Lemma simple_path_snoc (p : list jsstring) (c : jsstring) :
  simple_path p -> simple_path [c] -> simple_path (p ++ [c]).
Proof. intros Hp Hc. apply List.Forall_app. now split. Qed.

Section Frames.

Variable sha256 : jsstring -> list Byte.byte.
Variable JSON_stringify : jsval -> jsstring.
Variable JSON_parse : jsstring -> parsed.
Variable this : KVTreeStorage.

Abbreviation key := (createStorageKey sha256 this).
Abbreviation stored_ := (stored sha256 JSON_parse this).

Lemma well_keyed_subtrees v subtrees :
  well_keyed (Node v subtrees) ->
  List.Forall (fun kc => simple_path [fst kc] /\ well_keyed (snd kc)) subtrees.
Proof.
  cbn [well_keyed]. intros [_ H].
  induction subtrees as [|kc subtrees IH]; [constructor|].
  cbn in H. destruct H as [Hkc H]. constructor; [exact Hkc|now apply IH].
Qed.

Lemma round_trips_subtrees v subtrees :
  round_trips JSON_stringify JSON_parse (Node v subtrees) ->
  List.Forall (fun kc => round_trips JSON_stringify JSON_parse (snd kc))
    subtrees.
Proof.
  cbn [round_trips]. intros (_ & _ & H).
  induction subtrees as [|kc subtrees IH]; [constructor|].
  cbn in H. destruct H as [Hkc H]. constructor; [exact Hkc|now apply IH].
Qed.

Lemma well_keyed_node v subtrees :
  List.NoDup (List.map fst subtrees) ->
  List.Forall (fun kc => simple_path [fst kc] /\ well_keyed (snd kc))
    subtrees ->
  well_keyed (Node v subtrees).
Proof.
  intros Hnd H. cbn [well_keyed]. split; [exact Hnd|]. clear Hnd.
  induction H as [|kc subtrees Hkc _ IH]; [exact I|now split].
Qed.

(** A stored tree is stored in every store with the same records below
    its path. *)
Lemma stored_frame (entries entries' : gmap jsstring jsstring) (t : tree) :
  forall p,
  simple_path p -> well_keyed t ->
  (forall q suffix,
     simple_path q -> p `prefix_of` q ->
     entries' !! key q suffix = entries !! key q suffix) ->
  stored_ entries p t -> stored_ entries' p t.
Proof.
  induction t as [v subtrees IH] using tree_induction.
  intros p Hp Hkeys Hsame Hstored.
  pose proof (well_keyed_subtrees _ _ Hkeys) as Hsub.
  pose proof (stored_subtrees sha256 JSON_parse this _ _ _ _ Hstored) as Hst.
  cbn [stored] in *. destruct Hstored as (Hv & Hc & _).
  rewrite !Hsame by (assumption || reflexivity).
  split; [exact Hv|]. split; [exact Hc|].
  clear Hv Hc Hkeys.
  induction subtrees as [|kc subtrees IHs]; [exact I|].
  inversion_clear IH as [|? ? IHkc IH'].
  inversion_clear Hsub as [|? ? [Hk Hw] Hsub'].
  inversion_clear Hst as [|? ? Hskc Hst'].
  cbn [fold_right]. split; [|now apply IHs].
  apply IHkc; try assumption.
  - now apply simple_path_snoc.
  - intros q suffix Hq Hpq. apply Hsame; [assumption|].
    now apply prefix_app_l in Hpq.
Qed.

End Frames.

Section Copies.

Variable sha256 : jsstring -> list Byte.byte.
Variable JSON_stringify : jsval -> jsstring.
Variable JSON_parse : jsstring -> parsed.
Variable this : KVTreeStorage.
Hypothesis retries_positive : (1 <= maxRetries this)%Z.
Hypothesis digest_injective :
  forall x y, wf_string x -> wf_string y -> sha256 x = sha256 y -> x = y.

Abbreviation key := (createStorageKey sha256 this).
Abbreviation serialize := (serializeValue JSON_stringify).
Abbreviation stored_ := (stored sha256 JSON_parse this).
Abbreviation stored_children_ := (stored_children JSON_parse).
Abbreviation copy_ := (copySubtree sha256 JSON_stringify JSON_parse this).
Abbreviation round_trips_ := (round_trips JSON_stringify JSON_parse).
Abbreviation built_children_ :=
  (built_children sha256 JSON_stringify JSON_parse this).
Abbreviation copies_ := (copies sha256 JSON_stringify JSON_parse this).

(** What [createNode] leaves of a new child in a quiet world. *)
Lemma createNode_child_effect (parentPath : list jsstring)
    (childKey : jsstring) (v : jsval) (items : list jsval)
    (parentValue : jsstring) entries events :
  let pathArray := parentPath ++ [childKey] in
  simple_path pathArray ->
  entries !! key parentPath (str "value") = Some parentValue ->
  stored_children_ entries (key parentPath (str "children")) = Some items ->
  existsb (is_key childKey) items = false ->
  exists entries' events',
    createNode sha256 JSON_stringify JSON_parse this pathArray v
      (quiet entries events)
    = (Ret tt, quiet entries' events') /\
    entries' !! key pathArray (str "value")
    = Some (default (str "null") (serialize v)) /\
    entries' !! key pathArray (str "children")
    = Some (JSON_stringify (JArr [])) /\
    entries' !! key parentPath (str "children")
    = Some (JSON_stringify (JArr (items ++ [JStr childKey]))) /\
    (forall q suffix,
       simple_path q -> q <> pathArray ->
       q <> parentPath \/ suffix <> str "children" ->
       entries' !! key q suffix = entries !! key q suffix).
Proof.
  cbv zeta. intros Hsimple Hparent Hitems Hnew.
  assert (Hsp : simple_path parentPath)
    by (apply List.Forall_app in Hsimple; tauto).
  assert (Hne : parentPath ++ [childKey] <> parentPath).
  { intros E. apply (f_equal (@length _)) in E. rewrite length_app in E.
    cbn in E. lia. }
  assert (Hpc : forall suffix,
            key parentPath (str "children")
            <> key (parentPath ++ [childKey]) suffix).
  { intros suffix. apply (key_other sha256 this digest_injective); auto. }
  pose proof (createNode_child_quiet sha256 JSON_stringify JSON_parse this
                retries_positive parentPath childKey v entries events items
                parentValue) as Hrun.
  cbv zeta in Hrun. rewrite Hnew in Hrun.
  eexists. eexists. split; [apply Hrun; [assumption|]|].
  { rewrite <- Hitems. unfold stored_children.
    now rewrite !lookup_insert_ne by (apply not_eq_sym, Hpc). }
  set (p := parentPath ++ [childKey]) in *.
  assert (Hsuffix : forall s s', s <> s' -> key p s <> key p s')
    by (intros s s' Hs; now apply key_suffix).
  repeat apply conj.
  - rewrite lookup_insert_ne by apply Hpc.
    rewrite !lookup_insert_ne by (apply Hsuffix; discriminate).
    apply lookup_insert_eq.
  - rewrite lookup_insert_ne by apply Hpc. apply lookup_insert_eq.
  - apply lookup_insert_eq.
  - intros q suffix Hq Hqp Hother.
    rewrite lookup_insert_ne.
    + now rewrite !lookup_insert_ne
        by (apply (key_other sha256 this digest_injective); auto).
    + intros E. apply (key_inj sha256 this digest_injective) in E; auto.
      destruct E as [<- <-]. now destruct Hother.
Qed.

Lemma is_key_absent (c : jsstring) (keys : list jsstring) :
  ~ List.In c keys -> existsb (is_key c) (List.map JStr keys) = false.
Proof.
  intros Hc. induction keys as [|k keys IH]; [reflexivity|].
  cbn [List.map existsb is_key].
  destruct (str_eqb k c) eqn:E.
  - apply str_eqb_eq in E. exfalso. apply Hc. now left.
  - apply IH. intros Hin. apply Hc. now right.
Qed.

Lemma stored_children_text entries k text items :
  entries !! k = Some text -> JSON_parse text = Parsed (JArr items) ->
  stored_children_ entries k = Some items.
Proof. unfold stored_children. now intros -> ->. Qed.

Lemma stored_node entries p v subtrees :
  (exists text,
     entries !! key p (str "value") = Some text /\
     JSON_parse text = Parsed v) ->
  (exists text,
     entries !! key p (str "children") = Some text /\
     JSON_parse text = Parsed (JArr (List.map JStr (List.map fst subtrees)))) ->
  List.Forall (fun kc => stored_ entries (p ++ [fst kc]) (snd kc)) subtrees ->
  stored_ entries p (Node v subtrees).
Proof.
  intros Hv Hc Hsub. cbn [stored]. split; [exact Hv|]. split.
  - now rewrite <- (List.map_map fst JStr).
  - clear Hv Hc. induction Hsub as [|kc subtrees Hkc _ IH]; [exact I|].
    now split.
Qed.

Lemma take_next {X} (done todo : list X) (x : X) :
  take (S (length done)) (done ++ x :: todo) = done ++ [x].
Proof.
  induction done as [|y done IH]; [now destruct todo|].
  cbn [length app take]. cbn in IH. now rewrite IH.
Qed.

Section Children.

(** The node that is copied, to [np], and where the copy of its children
    starts: the store [entries0], after the node itself is created. *)
Variables (fuel : nat) (s np : list jsstring) (v : jsval).
Variable subtrees : list (jsstring * tree).
Variable entries0 : gmap jsstring jsstring.

Hypothesis children_copied : copies_ fuel.
Hypothesis sources0 :
  List.Forall (fun kc => stored_ entries0 (s ++ [fst kc]) (snd kc)) subtrees.
Hypothesis keyed : well_keyed (Node v subtrees).
Hypothesis laws : round_trips_ (Node v subtrees).
Hypothesis low :
  List.Forall (fun kc => (tree_height (snd kc) <= fuel)%nat) subtrees.
Hypothesis simple_s : simple_path s.
Hypothesis simple_np : simple_path np.
Hypothesis apart :
  forall kc q,
  List.In kc subtrees -> (s ++ [fst kc]) `prefix_of` q -> ~ np `prefix_of` q.

Lemma copy_children (todo : list (jsstring * tree)) :
  forall done entries events,
  subtrees = done ++ todo ->
  built_children_ np v entries0 entries done ->
  exists entries' events',
    for_each (List.map fst todo)
      (fun childKey => copy_ fuel (s ++ [childKey]) np childKey)
      (quiet entries events)
    = (Ret tt, quiet entries' events') /\
    built_children_ np v entries0 entries' subtrees.
Proof.
  induction todo as [|kc todo IH]; intros done entries events Hsplit Hinv.
  - rewrite app_nil_r in Hsplit. subst done. now exists entries, events.
  - destruct Hinv as (Hvalue & (ctext & Hctext & Hcparse) & Hdone & Hframe).
    assert (Hin : List.In kc subtrees)
      by (rewrite Hsplit; apply List.in_elt).
    pose proof (well_keyed_subtrees _ _ keyed) as Hkeyed.
    pose proof (round_trips_subtrees _ _ _ _ laws) as Hlaws.
    rewrite List.Forall_forall in Hkeyed, Hlaws, sources0, low.
    destruct (Hkeyed kc Hin) as [Hkc Hwk].
    assert (Hstored : stored_ entries (s ++ [fst kc]) (snd kc)).
    { apply (stored_frame sha256 JSON_parse this entries0); auto.
      - now apply simple_path_snoc.
      - intros q suffix Hq Hsq. apply Hframe; [exact Hq|].
        now apply (apart kc). }
    assert (Hnodup : List.NoDup (List.map fst subtrees)) by apply keyed.
    rewrite Hsplit, List.map_app in Hnodup. cbn [List.map] in Hnodup.
    assert (Hfresh : ~ List.In (fst kc) (List.map fst done)).
    { apply List.NoDup_remove_2 in Hnodup. intros Hd. apply Hnodup.
      apply List.in_app_iff. now left. }
    assert (Ha1 : ~ (s ++ [fst kc]) `prefix_of` (np ++ [fst kc])).
    { intros H. apply (apart kc _ Hin H). now apply prefix_app_r. }
    assert (Ha2 : ~ (np ++ [fst kc]) `prefix_of` (s ++ [fst kc])).
    { intros H. apply (apart kc (s ++ [fst kc]) Hin); [reflexivity|].
      now apply prefix_app_l in H. }
    assert (Hlaw :
      JSON_parse
        (JSON_stringify
           (JArr (List.map JStr (List.map fst done) ++ [JStr (fst kc)])))
      = Parsed (JArr (List.map JStr (List.map fst done) ++ [JStr (fst kc)]))).
    { destruct laws as (_ & Hn & _).
      specialize (Hn (S (length (List.map fst done)))). cbv zeta in Hn.
      rewrite Hsplit, List.map_app in Hn. cbn [List.map] in Hn.
      rewrite take_next, List.map_app in Hn. exact Hn. }
    destruct (children_copied (snd kc) (s ++ [fst kc]) np (fst kc)
                (List.map JStr (List.map fst done))
                (default (str "null") (serialize v)) entries events)
      as (entries1 & events1 & Hrun & Hnew & (ctext1 & Hctext1 & Hcparse1)
          & Hframe1); auto.
    { now apply simple_path_snoc. }
    { now apply simple_path_snoc. }
    { now apply stored_children_text with ctext. }
    { now apply is_key_absent. }
    destruct (IH (done ++ [kc]) entries1 events1) as (entries' & events' & Hloop
                                                      & Hinv').
    { now rewrite <- app_assoc. }
    { split; [|split; [|split]].
      - rewrite Hframe1; auto; try apply prefix_snoc_not.
      - exists ctext1. split; [exact Hctext1|].
        now rewrite !List.map_app.
      - apply List.Forall_app. split; [|now repeat constructor].
        rewrite List.Forall_forall in Hdone |- *. intros kc' Hkc'.
        assert (Hin' : List.In kc' subtrees)
          by (rewrite Hsplit; apply List.in_app_iff; now left).
        destruct (Hkeyed kc' Hin') as [Hk' Hw'].
        apply (stored_frame sha256 JSON_parse this entries); auto.
        * now apply simple_path_snoc.
        * intros q suffix Hq Hsq.
          assert (Hc : fst kc' <> fst kc).
          { intros E. apply Hfresh. rewrite <- E.
            now apply List.in_map. }
          apply Hframe1; auto.
          -- now apply siblings_apart with (fst kc').
          -- left. intros ->. now apply prefix_snoc_not in Hsq.
      - intros q suffix Hq Hnq. rewrite Hframe1; auto.
        + intros Hq'. apply Hnq. now apply prefix_app_l in Hq'.
        + left. intros ->. now apply Hnq. }
    exists entries', events'. split; [|exact Hinv'].
    cbn [List.map for_each]. unfold bind. now rewrite Hrun.
Qed.

End Children.

(** A copy of a stored tree, next to it. *)
Lemma copySubtree_copies (fuel : nat) : copies_ fuel.
Proof.
  induction fuel as [|fuel IH];
    intros t s tp k items pv entries events Hh Hst Hwk Hrt Hs Hnp Ha1 Ha2
      Hpv Hitems Hnew Hlaw.
  - destruct t. cbn in Hh. lia.
  - destruct t as [v subtrees]. cbn [copySubtree]. unfold bind at 1.
    rewrite (getNode_stored sha256 JSON_parse this retries_positive entries
               events s (Node v subtrees) Hst).
    cbn [value children node_of]. unfold bind at 1.
    destruct (createNode_child_effect tp k v items pv entries
                (events ++ [KvGet (key s (str "value"));
                            KvGet (key s (str "children"))])
                Hnp Hpv Hitems Hnew)
      as (entries0 & events0 & Hcreate & Hv0 & Hc0 & Hp0 & Hframe0).
    rewrite Hcreate, for_of_keys.
    assert (Hsp : simple_path tp)
      by (apply List.Forall_app in Hnp; tauto).
    assert (Hsource : stored_ entries0 s (Node v subtrees)).
    { apply (stored_frame sha256 JSON_parse this entries); auto.
      intros q suffix Hq Hsq. apply Hframe0; auto.
      + intros ->. contradiction.
      + left. intros ->. apply Ha1. now apply prefix_app_r. }
    assert (Hapart : forall kc q,
              List.In kc subtrees -> (s ++ [fst kc]) `prefix_of` q ->
              ~ (tp ++ [k]) `prefix_of` q).
    { intros kc q _ Hq. apply (apart_below s); auto.
      now apply prefix_app_l in Hq. }
    destruct (copy_children fuel s (tp ++ [k]) v subtrees entries0 IH
                (stored_subtrees sha256 JSON_parse this _ _ _ _ Hsource)
                Hwk Hrt (height_subtrees _ _ _ Hh) Hs Hnp Hapart subtrees []
                entries0 events0 eq_refl)
      as (entries' & events' & Hloop & Hinv).
    { split; [|split; [|split]].
      - exact Hv0.
      - exists (JSON_stringify (JArr [])). split; [exact Hc0|].
        destruct Hrt as (_ & Hn & _). apply (Hn 0%nat).
      - constructor.
      - reflexivity. }
    exists entries', events'. split; [exact Hloop|].
    destruct Hinv as (Hv' & Hc' & Hsub' & Hframe').
    split; [|split].
    + apply stored_node; [|exact Hc'|exact Hsub'].
      exists (default (str "null") (serialize v)). split; [exact Hv'|].
      apply Hrt.
    + exists (JSON_stringify (JArr (items ++ [JStr k]))).
      split; [|exact Hlaw]. rewrite Hframe'; auto. apply prefix_snoc_not.
    + intros q suffix Hq Hnq Hother. rewrite Hframe' by assumption.
      apply Hframe0; auto. intros ->. now apply Hnq.
Qed.

(** A copy of a stored tree under a new key of its own root: the
    children are read before the new child is listed, so the copy ends,
    and the tree has a copy of what it was as its last subtree. *)
Lemma copySubtree_below_itself (fuel : nat) (t : tree) (s : list jsstring)
    (k : jsstring) entries events :
  let keys := List.map JStr (List.map fst (subtrees_of t)) in
  (tree_height t <= fuel)%nat ->
  stored_ entries s t -> well_keyed t -> round_trips_ t ->
  simple_path (s ++ [k]) ->
  entries !! key (s ++ [k]) (str "value") = None ->
  JSON_parse (JSON_stringify (JArr (keys ++ [JStr k])))
  = Parsed (JArr (keys ++ [JStr k])) ->
  exists entries' events',
    copy_ fuel s s k (quiet entries events) = (Ret tt, quiet entries' events')
    /\ stored_ entries' s (with_copy t k)
    /\ ~ List.In k (List.map fst (subtrees_of t))
    /\ (forall q suffix,
          simple_path q -> ~ (s ++ [k]) `prefix_of` q ->
          q <> s \/ suffix <> str "children" ->
          entries' !! key q suffix = entries !! key q suffix).
Proof.
  cbv zeta. intros Hh Hst Hwk Hrt Hnp Hfree Hlaw.
  destruct fuel as [|fuel]; [destruct t; cbn in Hh; lia|].
  destruct t as [v subtrees]. cbn [subtrees_of with_copy] in *.
  assert (Hs : simple_path s) by (apply List.Forall_app in Hnp; tauto).
  assert (Hk : simple_path [k]) by (apply List.Forall_app in Hnp; tauto).
  pose proof (stored_subtrees sha256 JSON_parse this _ _ _ _ Hst) as Hsub.
  pose proof (well_keyed_subtrees _ _ Hwk) as Hkeyed.
  assert (Hfresh : ~ List.In k (List.map fst subtrees)).
  { intros Hin. apply List.in_map_iff in Hin. destruct Hin as (kc & <- & Hin).
    rewrite List.Forall_forall in Hsub. specialize (Hsub kc Hin).
    destruct (snd kc) as [v' subtrees']. cbn [stored] in Hsub.
    destruct Hsub as ((text & Hv & _) & _). congruence. }
  assert (Hother : forall kc, List.In kc subtrees -> fst kc <> k).
  { intros kc Hin <-. apply Hfresh. now apply List.in_map. }
  pose proof Hst as Hnode. cbn [stored] in Hnode.
  destruct Hnode as ((vtext & Hvtext & Hvparse) & (ctext & Hctext & Hcparse)
                     & _).
  rewrite <- (List.map_map fst JStr) in Hcparse.
  cbn [copySubtree]. unfold bind at 1.
  rewrite (getNode_stored sha256 JSON_parse this retries_positive entries
             events s (Node v subtrees) Hst).
  cbn [value children node_of]. unfold bind at 1.
  destruct (createNode_child_effect s k v
              (List.map JStr (List.map fst subtrees)) vtext entries
              (events ++ [KvGet (key s (str "value"));
                          KvGet (key s (str "children"))])
              Hnp Hvtext (stored_children_text _ _ _ _ Hctext Hcparse)
              (is_key_absent _ _ Hfresh))
    as (entries0 & events0 & Hcreate & Hv0 & Hc0 & Hp0 & Hframe0).
  rewrite Hcreate, for_of_keys.
  assert (Hapart : forall kc q,
            List.In kc subtrees -> (s ++ [fst kc]) `prefix_of` q ->
            ~ (s ++ [k]) `prefix_of` q).
  { intros kc q Hin Hq. apply siblings_apart with (fst kc); auto. }
  assert (Hsources : List.Forall
            (fun kc => stored_ entries0 (s ++ [fst kc]) (snd kc)) subtrees).
  { rewrite List.Forall_forall in Hsub, Hkeyed |- *. intros kc Hin.
    destruct (Hkeyed kc Hin) as [Hkc Hw].
    apply (stored_frame sha256 JSON_parse this entries); auto.
    - now apply simple_path_snoc.
    - intros q suffix Hq Hsq. apply Hframe0; [exact Hq| |].
      + intros ->. apply (Hapart kc _ Hin Hsq). reflexivity.
      + left. intros ->. now apply prefix_snoc_not in Hsq. }
  destruct (copy_children fuel s (s ++ [k]) v subtrees entries0
              (copySubtree_copies fuel) Hsources Hwk Hrt
              (height_subtrees _ _ _ Hh) Hs Hnp Hapart subtrees []
              entries0 events0 eq_refl)
    as (entries' & events' & Hloop & Hinv).
  { split; [|split; [|split]].
    - exact Hv0.
    - exists (JSON_stringify (JArr [])). split; [exact Hc0|].
      destruct Hrt as (_ & Hn & _). apply (Hn 0%nat).
    - constructor.
    - reflexivity. }
  destruct Hinv as (Hv' & Hc' & Hsub' & Hframe').
  assert (Hout : ~ (s ++ [k]) `prefix_of` s) by apply prefix_snoc_not.
  exists entries', events'.
  split; [exact Hloop|]. split; [|split; [exact Hfresh|]].
  - apply stored_node.
    + exists vtext. split; [|exact Hvparse].
      rewrite Hframe' by assumption.
      rewrite Hframe0; [exact Hvtext|exact Hs| |right; discriminate].
      intros E. apply Hout. now rewrite <- E.
    + exists (JSON_stringify
                (JArr (List.map JStr (List.map fst subtrees) ++ [JStr k]))).
      split; [now rewrite Hframe'|].
      now rewrite !List.map_app.
    + apply List.Forall_app. split.
      * rewrite List.Forall_forall in Hsources, Hkeyed |- *. intros kc Hin.
        destruct (Hkeyed kc Hin) as [Hkc Hw].
        apply (stored_frame sha256 JSON_parse this entries0); auto.
        -- now apply simple_path_snoc.
        -- intros q suffix Hq Hsq. apply Hframe'; [exact Hq|].
           now apply (Hapart kc).
      * constructor; [|constructor]. cbn [fst snd].
        apply stored_node; [|exact Hc'|exact Hsub'].
        exists (default (str "null") (serialize v)). split; [exact Hv'|].
        apply Hrt.
  - intros q suffix Hq Hnq Hdiff. rewrite Hframe' by assumption.
    apply Hframe0; auto. intros ->. now apply Hnq.
Qed.

End Copies.

(** **** Moves *)

Lemma tree_height_size (t : tree) : (tree_height t <= tree_size t)%nat.
Proof.
  induction t as [v subtrees IH] using tree_induction. cbn.
  apply le_n_S. induction IH as [|kc subtrees Hkc _ IHs]; [reflexivity|].
  cbn. lia.
Qed.

Section Moves.

Variable sha256 : jsstring -> list Byte.byte.
Variable JSON_stringify : jsval -> jsstring.
Variable JSON_parse : jsstring -> parsed.
Variable this : KVTreeStorage.
Hypothesis retries_positive : (1 <= maxRetries this)%Z.
Hypothesis digest_injective :
  forall x y, wf_string x -> wf_string y -> sha256 x = sha256 y -> x = y.

Abbreviation key := (createStorageKey sha256 this).
Abbreviation serialize := (serializeValue JSON_stringify).
Abbreviation stored_ := (stored sha256 JSON_parse this).
Abbreviation linked_ := (linked sha256 JSON_parse this).
Abbreviation stored_children_ := (stored_children JSON_parse).
Abbreviation copy_ := (copySubtree sha256 JSON_stringify JSON_parse this).
Abbreviation round_trips_ := (round_trips JSON_stringify JSON_parse).
Abbreviation erase_ := (erase sha256 this).
Abbreviation node_keys_ := (node_keys sha256 this).

Lemma stored_linked entries (t : tree) : forall p,
  stored_ entries p t -> linked_ entries p t.
Proof.
  induction t as [v subtrees IH] using tree_induction. intros p Hst.
  pose proof (stored_subtrees sha256 JSON_parse this _ _ _ _ Hst) as Hsub.
  cbn [stored linked] in *. destruct Hst as (_ & Hc & _).
  split; [exact Hc|]. clear Hc.
  induction IH as [|kc subtrees Hkc _ IHs]; [exact I|].
  inversion_clear Hsub as [|? ? Hs Hsub']. cbn [fold_right]. split; auto.
Qed.

(** The paths of the nodes below a simple path, in a tree with good
    keys, are simple paths below it. *)
Lemma levels_below (s : list jsstring) (depth : nat) : forall (f : forest),
  List.Forall
    (fun pt => s `prefix_of` fst pt /\ simple_path (fst pt) /\
               well_keyed (snd pt)) f ->
  List.Forall (fun q => s `prefix_of` q /\ simple_path q) (levels depth f).
Proof.
  induction depth as [|depth IH]; intros f Hf; [constructor|].
  cbn [levels].
  assert (Hkids : List.Forall
            (fun pt => s `prefix_of` fst pt /\ simple_path (fst pt) /\
                       well_keyed (snd pt)) (flat_map kids f)).
  { apply List.Forall_forall. intros pt Hin.
    apply List.in_flat_map in Hin. destruct Hin as (pt' & Hpt' & Hin).
    rewrite List.Forall_forall in Hf. destruct (Hf pt' Hpt') as (Hs & Hp & Hw).
    destruct pt' as [p' [v subtrees]]. unfold kids in Hin.
    cbn [fst snd subtrees_of] in *.
    apply List.in_map_iff in Hin. destruct Hin as (kc & <- & Hkc).
    pose proof (well_keyed_subtrees _ _ Hw) as Hsub.
    rewrite List.Forall_forall in Hsub. destruct (Hsub kc Hkc) as [Hk Hwk].
    cbn [fst snd]. split; [now apply prefix_app_r|].
    split; [now apply simple_path_snoc|exact Hwk]. }
  apply List.Forall_app. split; [|now apply IH].
  apply List.Forall_map. eapply List.Forall_impl; [|exact Hkids].
  now intros pt (Hs & Hp & _).
Qed.

Lemma subtree_paths (s : list jsstring) (t : tree) :
  simple_path s -> well_keyed t ->
  List.Forall (fun q => s `prefix_of` q /\ simple_path q)
    (s :: descendants s t).
Proof.
  intros Hs Hw. constructor; [now split|].
  apply levels_below. now repeat constructor.
Qed.

(** Erasing nodes leaves the records of every other simple path. *)
Lemma erase_other entries (paths : list (list jsstring)) q suffix :
  simple_path q -> List.Forall simple_path paths -> ~ List.In q paths ->
  erase_ entries paths !! key q suffix = entries !! key q suffix.
Proof.
  intros Hq Hpaths Hout. rewrite erase_lookup.
  rewrite bool_decide_eq_false_2; [reflexivity|].
  intros Hin. apply list_elem_of_In, List.in_flat_map in Hin.
  destruct Hin as (p & Hp & Hk). rewrite List.Forall_forall in Hpaths.
  specialize (Hpaths p Hp). unfold node_keys in Hk. cbn [List.In] in Hk.
  destruct Hk as [E|[E|[E|[]]]];
    apply (key_inj sha256 this digest_injective) in E; auto;
    destruct E as [-> _]; contradiction.
Qed.

End Moves.

Lemma simple_parent (s : list jsstring) :
  simple_path s -> simple_path (parent_of s).
Proof.
  unfold parent_of. intros Hs. destruct s as [|c s] using rev_ind; [exact Hs|].
  rewrite removelast_last. apply List.Forall_app in Hs. tauto.
Qed.

Lemma parent_above (first : jsstring) (rest : list jsstring) :
  first :: rest
  = parent_of (first :: rest) ++ [List.last (first :: rest) first].
Proof. apply app_removelast_last. discriminate. Qed.

Lemma parent_shorter (first : jsstring) (rest : list jsstring) :
  ~ (first :: rest) `prefix_of` parent_of (first :: rest).
Proof.
  intros H. apply prefix_length in H.
  pose proof (f_equal (@length _) (parent_above first rest)) as E.
  rewrite length_app in E. cbn [length] in *. lia.
Qed.

Lemma tree_size_snoc (l : list (jsstring * tree)) (k : jsstring) (t : tree) :
  fold_right (fun kc n => (tree_size (snd kc) + n)%nat) 0%nat (l ++ [(k, t)])
  = (fold_right (fun kc n => (tree_size (snd kc) + n)%nat) 0%nat l
     + tree_size t)%nat.
Proof. induction l as [|kc l IH]; cbn; [lia|]. cbn in IH. rewrite IH. lia. Qed.

Lemma with_copy_size (t : tree) (k : jsstring) :
  tree_size (with_copy t k) = (2 * tree_size t)%nat.
Proof.
  destruct t as [v subtrees]. unfold with_copy.
  cbn [tree_size]. rewrite tree_size_snoc. cbn [tree_size]. lia.
Qed.

Lemma NoDup_snoc_fresh {X} (l : list X) (x : X) :
  List.NoDup l -> ~ List.In x l -> List.NoDup (l ++ [x]).
Proof.
  induction 1 as [|y l Hy Hl IH]; intros Hx; cbn.
  - constructor; [intros []|constructor].
  - constructor.
    + rewrite List.in_app_iff. intros [H|[<-|[]]]; [contradiction|].
      apply Hx. now left.
    + apply IH. intros H. apply Hx. now right.
Qed.

Lemma with_copy_keyed (t : tree) (k : jsstring) :
  well_keyed t -> simple_path [k] ->
  ~ List.In k (List.map fst (subtrees_of t)) ->
  well_keyed (with_copy t k).
Proof.
  intros Hwk Hk Hfresh. destruct t as [v subtrees].
  cbn [with_copy subtrees_of] in *. apply well_keyed_node.
  - rewrite List.map_app. apply NoDup_snoc_fresh; [apply Hwk|exact Hfresh].
  - apply List.Forall_app. split; [now apply well_keyed_subtrees with v|].
    constructor; [|constructor]. split; [exact Hk|exact Hwk].
Qed.

Section Moved.

Variable sha256 : jsstring -> list Byte.byte.
Variable JSON_stringify : jsval -> jsstring.
Variable JSON_parse : jsstring -> parsed.
Variable this : KVTreeStorage.
Hypothesis retries_positive : (1 <= maxRetries this)%Z.
Hypothesis digest_injective :
  forall x y, wf_string x -> wf_string y -> sha256 x = sha256 y -> x = y.

Abbreviation key := (createStorageKey sha256 this).
Abbreviation stored_ := (stored sha256 JSON_parse this).
Abbreviation stored_children_ := (stored_children JSON_parse).
Abbreviation copy_ := (copySubtree sha256 JSON_stringify JSON_parse this).
Abbreviation round_trips_ := (round_trips JSON_stringify JSON_parse).
Abbreviation erase_ := (erase sha256 this).




End Moved.

(** **** Imports *)

Lemma plainly_keyed_subtrees v subtrees :
  plainly_keyed (Node v subtrees) ->
  List.Forall (fun kc => ordinary_key (fst kc) /\ plainly_keyed (snd kc))
    subtrees.
Proof.
  cbn [plainly_keyed]. intros H.
  induction subtrees as [|kc subtrees IH]; [constructor|].
  cbn in H. destruct H as [Hkc H]. constructor; [exact Hkc|now apply IH].
Qed.

(** The children of an export are listed in the order of the tree when
    no key is moved or dropped by the object. *)
Lemma exported_children (subtrees : list (jsstring * tree)) :
  List.NoDup (List.map fst subtrees) ->
  List.Forall (fun kc => ordinary_key (fst kc) /\ plainly_keyed (snd kc))
    subtrees ->
  forall props,
  (forall k, List.In k (List.map fst subtrees) ->
             ~ List.In k (List.map fst props)) ->
  fold_left
    (fun result_children kc =>
       prop_set result_children (fst kc) (exported (snd kc)))
    subtrees props
  = props ++ List.map (fun kc => (fst kc, exported (snd kc))) subtrees.
Proof.
  induction subtrees as [|kc subtrees IH]; intros Hnd Hplain props Hnew.
  - cbn. now rewrite app_nil_r.
  - cbn [List.map] in Hnd. inversion_clear Hnd as [|? ? Hk Hnd'].
    inversion_clear Hplain as [|? ? [Hok _] Hplain'].
    cbn [fold_left List.map].
    rewrite prop_set_new; [|exact Hok|apply Hnew; now left].
    rewrite IH; [now rewrite <- app_assoc|exact Hnd'|exact Hplain'|].
    intros k Hin. rewrite List.map_app, List.in_app_iff. cbn [List.map List.In].
    intros [H|[<-|[]]]; [|contradiction].
    revert H. apply Hnew. now right.
Qed.

Section Imports.

Variable sha256 : jsstring -> list Byte.byte.
Variable JSON_stringify : jsval -> jsstring.
Variable JSON_parse : jsstring -> parsed.
Variable this : KVTreeStorage.
Hypothesis retries_positive : (1 <= maxRetries this)%Z.
Hypothesis digest_injective :
  forall x y, wf_string x -> wf_string y -> sha256 x = sha256 y -> x = y.

Abbreviation key := (createStorageKey sha256 this).
Abbreviation serialize := (serializeValue JSON_stringify).
Abbreviation stored_ := (stored sha256 JSON_parse this).
Abbreviation stored_children_ := (stored_children JSON_parse).
Abbreviation import_ := (importTree sha256 JSON_stringify JSON_parse this).
Abbreviation round_trips_ := (round_trips JSON_stringify JSON_parse).
Abbreviation built_children_ :=
  (built_children sha256 JSON_stringify JSON_parse this).
Abbreviation imports_ := (imports sha256 JSON_stringify JSON_parse this).

Section Children.

Variables (fuel : nat) (np : list jsstring) (v : jsval).
Variable subtrees : list (jsstring * tree).
Variable entries0 : gmap jsstring jsstring.

Hypothesis children_imported : imports_ fuel.
Hypothesis keyed : well_keyed (Node v subtrees).
Hypothesis plain : plainly_keyed (Node v subtrees).
Hypothesis laws : round_trips_ (Node v subtrees).
Hypothesis low :
  List.Forall (fun kc => (tree_height (snd kc) <= fuel)%nat) subtrees.
Hypothesis simple_np : simple_path np.

Lemma import_children (todo : list (jsstring * tree)) :
  forall done entries events,
  subtrees = done ++ todo ->
  built_children_ np v entries0 entries done ->
  exists entries' events',
    for_each (child_entries todo)
      (fun entry =>
         let '(childKey, childData) := entry in
         import_ fuel childData (np ++ [childKey]))
      (quiet entries events)
    = (Ret tt, quiet entries' events') /\
    built_children_ np v entries0 entries' subtrees.
Proof.
  induction todo as [|kc todo IH]; intros done entries events Hsplit Hinv.
  - rewrite app_nil_r in Hsplit. subst done. now exists entries, events.
  - destruct Hinv as (Hvalue & (ctext & Hctext & Hcparse) & Hdone & Hframe).
    assert (Hin : List.In kc subtrees)
      by (rewrite Hsplit; apply List.in_elt).
    pose proof (well_keyed_subtrees _ _ keyed) as Hkeyed.
    pose proof (plainly_keyed_subtrees _ _ plain) as Hplain.
    pose proof (round_trips_subtrees _ _ _ _ laws) as Hlaws.
    rewrite List.Forall_forall in Hkeyed, Hplain, Hlaws, low.
    destruct (Hkeyed kc Hin) as [Hkc Hwk].
    destruct (Hplain kc Hin) as [_ Hpk].
    assert (Hnodup : List.NoDup (List.map fst subtrees)) by apply keyed.
    rewrite Hsplit, List.map_app in Hnodup. cbn [List.map] in Hnodup.
    assert (Hfresh : ~ List.In (fst kc) (List.map fst done)).
    { apply List.NoDup_remove_2 in Hnodup. intros Hd. apply Hnodup.
      apply List.in_app_iff. now left. }
    assert (Hlaw :
      JSON_parse
        (JSON_stringify
           (JArr (List.map JStr (List.map fst done) ++ [JStr (fst kc)])))
      = Parsed (JArr (List.map JStr (List.map fst done) ++ [JStr (fst kc)]))).
    { destruct laws as (_ & Hn & _).
      specialize (Hn (S (length (List.map fst done)))). cbv zeta in Hn.
      rewrite Hsplit, List.map_app in Hn. cbn [List.map] in Hn.
      rewrite take_next, List.map_app in Hn. exact Hn. }
    destruct (children_imported (snd kc) np (fst kc)
                (List.map JStr (List.map fst done))
                (default (str "null") (serialize v)) entries events)
      as (entries1 & events1 & Hrun & Hnew & (ctext1 & Hctext1 & Hcparse1)
          & Hframe1); auto.
    { now apply simple_path_snoc. }
    { now apply stored_children_text with ctext. }
    { now apply is_key_absent. }
    destruct (IH (done ++ [kc]) entries1 events1) as (entries' & events' & Hloop
                                                      & Hinv').
    { now rewrite <- app_assoc. }
    { split; [|split; [|split]].
      - rewrite Hframe1; auto; try apply prefix_snoc_not.
      - exists ctext1. split; [exact Hctext1|].
        now rewrite !List.map_app.
      - apply List.Forall_app. split; [|now repeat constructor].
        rewrite List.Forall_forall in Hdone |- *. intros kc' Hkc'.
        assert (Hin' : List.In kc' subtrees)
          by (rewrite Hsplit; apply List.in_app_iff; now left).
        destruct (Hkeyed kc' Hin') as [Hk' Hw'].
        apply (stored_frame sha256 JSON_parse this entries); auto.
        * now apply simple_path_snoc.
        * intros q suffix Hq Hsq.
          assert (Hc : fst kc' <> fst kc).
          { intros E. apply Hfresh. rewrite <- E.
            now apply List.in_map. }
          apply Hframe1; auto.
          -- now apply siblings_apart with (fst kc').
          -- left. intros ->. now apply prefix_snoc_not in Hsq.
      - intros q suffix Hq Hnq. rewrite Hframe1; auto.
        + intros Hq'. apply Hnq. now apply prefix_app_l in Hq'.
        + left. intros ->. now apply Hnq. }
    exists entries', events'. split; [|exact Hinv'].
    unfold child_entries. cbn [List.map for_each fst snd]. unfold bind.
    now rewrite Hrun.
Qed.

End Children.

(** The export of a tree with plain keys. *)
Lemma exported_node v subtrees :
  well_keyed (Node v subtrees) -> plainly_keyed (Node v subtrees) ->
  exported (Node v subtrees)
  = JObj [(str "value", v); (str "children", JObj (child_entries subtrees))].
Proof.
  intros Hwk Hpk. cbn [exported].
  rewrite exported_children; [reflexivity|apply Hwk| |now intros k _ []].
  now apply plainly_keyed_subtrees with v.
Qed.

(** [importTree] on an export, below the root. *)
Lemma importTree_below (fuel : nat) v subtrees (np : list jsstring) :
  np <> [] ->
  import_ (S fuel)
    (JObj [(str "value", v); (str "children", JObj (child_entries subtrees))])
    np
  = (createNode sha256 JSON_stringify JSON_parse this np v ;;
     for_each (child_entries subtrees)
       (fun entry =>
          let '(childKey, childData) := entry in
          import_ fuel childData (np ++ [childKey]))).
Proof. destruct np as [|first rest]; [contradiction|reflexivity]. Qed.

(** An import of the export of a tree, under a new key. *)
Lemma importTree_imports (fuel : nat) : imports_ fuel.
Proof.
  induction fuel as [|fuel IH];
    intros t tp k items pv entries events Hh Hwk Hpk Hrt Hnp Hpv Hitems Hnew
      Hlaw.
  - destruct t. cbn in Hh. lia.
  - destruct t as [v subtrees]. rewrite (exported_node v subtrees Hwk Hpk).
    destruct (createNode_child_effect sha256 JSON_stringify JSON_parse this
                retries_positive digest_injective tp k v items pv entries
                events Hnp Hpv Hitems Hnew)
      as (entries0 & events0 & Hcreate & Hv0 & Hc0 & Hp0 & Hframe0).
    destruct (import_children fuel (tp ++ [k]) v subtrees entries0 IH Hwk Hpk
                Hrt (height_subtrees _ _ _ Hh) Hnp subtrees []
                entries0 events0 eq_refl)
      as (entries' & events' & Hloop & Hinv).
    { split; [|split; [|split]].
      - exact Hv0.
      - exists (JSON_stringify (JArr [])). split; [exact Hc0|].
        destruct Hrt as (_ & Hn & _). apply (Hn 0%nat).
      - constructor.
      - reflexivity. }
    exists entries', events'. split; [|split; [|split]].
    + rewrite importTree_below by now destruct tp.
      unfold bind at 1. now rewrite Hcreate.
    + destruct Hinv as (Hv' & Hc' & Hsub' & Hframe').
      apply stored_node; [|exact Hc'|exact Hsub'].
      exists (default (str "null") (serialize v)). split; [exact Hv'|].
      apply Hrt.
    + destruct Hinv as (_ & _ & _ & Hframe').
      exists (JSON_stringify (JArr (items ++ [JStr k]))).
      split; [|exact Hlaw]. rewrite Hframe'; auto.
      * apply List.Forall_app in Hnp. tauto.
      * apply prefix_snoc_not.
    + destruct Hinv as (_ & _ & _ & Hframe').
      intros q suffix Hq Hnq Hother. rewrite Hframe' by assumption.
      apply Hframe0; auto. intros ->. now apply Hnq.
Qed.

(** [importTree] on an export, at the root. *)
Lemma importTree_at_root (fuel : nat) v subtrees :
  import_ (S fuel)
    (JObj [(str "value", v); (str "children", JObj (child_entries subtrees))])
    []
  = ((initializeRoot sha256 JSON_stringify JSON_parse this ;;
      match v with
      | JUndefined => ret tt
      | _ => setValue sha256 JSON_stringify this [] v
      end) ;;
     for_each (child_entries subtrees)
       (fun entry =>
          let '(childKey, childData) := entry in
          import_ fuel childData ([] ++ [childKey]))).
Proof. reflexivity. Qed.

Lemma setValue_quiet (p : list jsstring) (v : jsval) (old : jsstring)
    entries events :
  entries !! key p (str "value") = Some old ->
  setValue sha256 JSON_stringify this p v (quiet entries events)
  = (Ret tt,
     quiet (<[key p (str "value") := default (str "null") (serialize v)]>
              entries)
       (events ++ [KvGet (key p (str "value"));
                   KvPut (key p (str "value")) (serialize v)])).
Proof.
  intros Hold. unfold setValue, bind. rewrite nodeExists_quiet, Hold.
  cbn [is_null negb]. rewrite (withRetry_put_quiet this retries_positive).
  now rewrite <- app_assoc.
Qed.

(** The root that [importTree] makes in a store without one. *)
Lemma import_root (v : jsval) entries events :
  entries !! key [] (str "value") = None ->
  exists entries0 events0,
    (initializeRoot sha256 JSON_stringify JSON_parse this ;;
     match v with
     | JUndefined => ret tt
     | _ => setValue sha256 JSON_stringify this [] v
     end) (quiet entries events)
    = (Ret tt, quiet entries0 events0) /\
    entries0 !! key [] (str "value")
    = Some (default (str "null") (serialize v)) /\
    entries0 !! key [] (str "children") = Some (JSON_stringify (JArr [])).
Proof.
  intros Hroot. unfold bind at 1.
  rewrite (initializeRoot_quiet sha256 JSON_stringify JSON_parse this
             retries_positive), Hroot.
  set (entries1 := <[key [] (str "children") := JSON_stringify (JArr [])]>
                     (<[key [] (str "value") := str "null"]> entries)).
  assert (Hc : key [] (str "value") <> key [] (str "children")).
  { intros E. apply key_parts in E. now destruct E. }
  assert (Hv1 : entries1 !! key [] (str "value") = Some (str "null")).
  { unfold entries1. rewrite lookup_insert_ne by auto.
    apply lookup_insert_eq. }
  assert (Hc1 : entries1 !! key [] (str "children")
                = Some (JSON_stringify (JArr []))).
  { unfold entries1. apply lookup_insert_eq. }
  assert (Hset : forall events1,
            exists entries0 events0,
              setValue sha256 JSON_stringify this [] v
                (quiet entries1 events1)
              = (Ret tt, quiet entries0 events0) /\
              entries0 !! key [] (str "value")
              = Some (default (str "null") (serialize v)) /\
              entries0 !! key [] (str "children")
              = Some (JSON_stringify (JArr []))).
  { intros events1. rewrite (setValue_quiet [] v (str "null")) by exact Hv1.
    eexists. eexists. split; [reflexivity|]. split.
    - apply lookup_insert_eq.
    - rewrite lookup_insert_ne by auto. exact Hc1. }
  destruct v; try apply Hset.
  eexists. eexists. split; [reflexivity|]. now split.
Qed.



End Imports.

(** *** The properties at work *)

(** C2: with three attempts allowed and a store that answers every call
    with a rate-limit error, the wrapper runs the operation three times,
    pausing twice, and then throws the error of the last run as it is; the
    wrapped error that names the context is never built. *)
Theorem withRetry_exhausted_rethrows :
  withRetry three_attempts (kv_get (str "k")) (str "get k")
    {| kv := ∅;
       faults := [Some rate_limited; Some rate_limited; Some rate_limited];
       trace := [] |}
  = (Throw rate_limited,
     quiet ∅
       [KvGet (str "k"); Sleep 0; KvGet (str "k"); Sleep 1;
        KvGet (str "k")]) /\
  isRetryableError rate_limited = true /\
  rate_limited
  <> Error (str "get k failed after 3 attempts: Too many requests").
Proof. repeat split. discriminate. Qed.

(** Two failures and a success, on the same store. *)
Example withRetry_third_attempt_example :
  withRetry demo_this (kv_get (str "k")) (str "get k")
    {| kv := {[ str "k" := str "1" ]};
       faults := [Some rate_limited; Some rate_limited];
       trace := [] |}
  = (Ret (Some (str "1")),
     quiet {[ str "k" := str "1" ]}
       [KvGet (str "k"); Sleep 0; KvGet (str "k"); Sleep 1;
        KvGet (str "k")]).
Proof. reflexivity. Qed.

Lemma to_byte_inj (n m : N) :
  n < 256 -> m < 256 -> to_byte n = to_byte m -> n = m.
Proof.
  unfold to_byte. intros Hn Hm E.
  destruct (Byte.of_N n) as [b|] eqn:En;
    [|apply Byte.of_N_None_iff in En; lia].
  destruct (Byte.of_N m) as [c|] eqn:Em;
    [|apply Byte.of_N_None_iff in Em; lia].
  cbn in E. subst c. apply Byte.to_of_N in En, Em. congruence.
Qed.

Lemma demo_digest_inj (x y : jsstring) :
  wf_string x -> wf_string y -> demo_digest x = demo_digest y -> x = y.
Proof.
  unfold wf_string, code_unit. intros Hx. revert y.
  induction Hx as [|c x Hc _ IH]; intros y Hy E; destruct Hy as [|d y Hd Hy];
    try discriminate; [reflexivity|].
  cbn in E. injection E as E1 E2 E.
  apply to_byte_inj in E1, E2;
    try (apply N.Div0.div_lt_upper_bound; lia); try (apply N.mod_lt; lia).
  f_equal; [|now apply IH].
  rewrite (N.div_mod' c 256), (N.div_mod' d 256). congruence.
Qed.




(** What the canonical text of the two objects is: the array index
    first, then the other keys in the order of the sort. *)
Example serializeValue_object_example :
  serializeValue print_json (JObj object_ba)
  = Some ([123; 34] ++ str "10" ++ [34] ++ str ":null," ++ [34] ++ str "a" ++
          [34; 58; 34] ++ str "x" ++ [34; 44; 34] ++ str "b" ++ [34] ++
          str ":1}").
Proof. vm_compute. reflexivity. Qed.

Lemma demo_retries : (1 <= maxRetries demo_this)%Z.
Proof. cbn. lia. Qed.

Lemma createNode_spec_witness :
  fst (createNode demo_digest print_json demo_parse demo_this [str "a"]
         (JStr (str "v")) (quiet root_entries []))
  = Ret tt /\
  List.map
    (fun ev => match ev with KvPut k _ => k | _ => [] end)
    (trace (snd (createNode demo_digest print_json demo_parse demo_this
                   [str "a"] (JStr (str "v")) (quiet root_entries []))))
  = [[];
     createStorageKey demo_digest demo_this [str "a"] (str "value");
     createStorageKey demo_digest demo_this [str "a"] (str "parent");
     createStorageKey demo_digest demo_this [str "a"] (str "children");
     [];
     createStorageKey demo_digest demo_this [] (str "children")].
Proof.
  pose proof (createNode_spec demo_digest print_json demo_parse demo_this
                demo_retries [str "a"] (JStr (str "v")) root_entries []) as H.
  cbv zeta iota in H.
  remember (root_entries !! _) as parentValue eqn:E in H.
  vm_compute in E. subst parentValue.
  specialize (H [] ltac:(vm_compute; reflexivity)).
  rewrite H. split; vm_compute; reflexivity.
Defined.

Lemma getNode_spec_witness :
  fst (getNode demo_digest demo_parse demo_this [str "a"]
         (quiet demo_entries []))
  = Ret {| path := [str "a"]; value := JStr (str "v");
           children := JArr [JStr (str "b")]; hasChildren := true |} /\
  fst (getNode demo_digest demo_parse demo_this [str "c"]
         (quiet demo_entries []))
  = Throw (not_found [str "c"]).
Proof.
  destruct (getNode_spec demo_digest demo_parse demo_this demo_retries
              [str "a"] demo_entries []) as (_ & _ & Hfound).
  destruct (getNode_spec demo_digest demo_parse demo_this demo_retries
              [str "c"] demo_entries []) as (Habsent & _ & _).
  split.
  - apply (Hfound ([34] ++ str "v" ++ [34])
             (str "[" ++ [34] ++ str "b" ++ [34] ++ str "]"));
      vm_compute; reflexivity.
  - apply Habsent. vm_compute. reflexivity.
Defined.

Lemma demo_tree_linked :
  linked demo_digest demo_parse demo_this demo_entries [str "a"] demo_tree.
Proof.
  cbn [linked demo_tree fold_right fst snd List.map]. repeat split.
  - eexists. split; vm_compute; reflexivity.
  - eexists. split; vm_compute; reflexivity.
Qed.

Lemma deleteNode_spec_witness :
  fst (deleteNode demo_digest print_json demo_parse demo_this 2 [str "a"]
         (quiet demo_entries []))
  = Ret tt /\
  flat_map
    (fun ev => match ev with KvDelete k => [k] | _ => [] end)
    (trace (snd (deleteNode demo_digest print_json demo_parse demo_this 2
                   [str "a"] (quiet demo_entries []))))
  = node_keys demo_digest demo_this [str "a"; str "b"] ++
    node_keys demo_digest demo_this [str "a"] /\
  kv (snd (deleteNode demo_digest print_json demo_parse demo_this 2
             [str "a"] (quiet demo_entries [])))
  = root_entries.
Proof.
  pose proof (deleteNode_spec demo_digest print_json demo_parse demo_this
                demo_retries 2 [str "a"] demo_entries []) as H.
  cbv zeta iota in H.
  remember (demo_entries !! _) as nodeValue eqn:E in H.
  vm_compute in E. subst nodeValue.
  specialize (H demo_tree [JStr (str "a")] demo_tree_linked
                ltac:(cbn; lia) ltac:(vm_compute; reflexivity)).
  rewrite H. repeat split; vm_compute; reflexivity.
Defined.


Lemma stop_at_a_false node depth :
  path node = [str "a"] -> stop_at_a node depth = JBool false.
Proof. unfold stop_at_a. now intros ->. Qed.



Lemma demo_root_stored :
  stored demo_digest demo_parse demo_this demo_entries [] demo_root.
Proof.
  cbn [stored demo_root demo_tree fold_right fst snd List.map app].
  repeat split; eexists; split; vm_compute; reflexivity.
Qed.

Lemma demo_tree_stored :
  stored demo_digest demo_parse demo_this demo_entries [str "a"] demo_tree.
Proof.
  cbn [stored demo_tree fold_right fst snd List.map app].
  repeat split; eexists; split; vm_compute; reflexivity.
Qed.


Lemma withRetry_recovers_witness :
  withRetry three_attempts (kv_get (str "k")) (str "get k")
    {| kv := {[ str "k" := str "v" ]};
       faults := [Some rate_limited; Some rate_limited; None];
       trace := [] |}
  = (Ret (Some (str "v")),
     {| kv := {[ str "k" := str "v" ]}; faults := [];
        trace := [KvGet (str "k"); Sleep 0; KvGet (str "k"); Sleep 1;
                  KvGet (str "k")] |}).
Proof.
  pose proof (withRetry_recovers three_attempts (str "k") (str "get k")
                {[ str "k" := str "v" ]} [] [rate_limited; rate_limited] [])
    as H.
  cbn [List.map app] in H.
  rewrite H; [reflexivity|repeat constructor|reflexivity].
Defined.

Lemma withRetry_gives_up_witness :
  fst (withRetry three_attempts (kv_get (str "k")) (str "get k")
         {| kv := ∅; faults := [Some rate_limited; Some forbidden];
            trace := [] |})
  = Throw forbidden /\
  fst (withRetry three_attempts (kv_get (str "k")) (str "get k")
         {| kv := ∅;
            faults := [Some rate_limited; Some rate_limited;
                       Some rate_limited];
            trace := [] |})
  = Throw rate_limited.
Proof.
  pose proof (withRetry_gives_up three_attempts (str "k") (str "get k") ∅ []
                [rate_limited] forbidden []) as H1.
  pose proof (withRetry_gives_up three_attempts (str "k") (str "get k") ∅ []
                [rate_limited; rate_limited] rate_limited []) as H2.
  cbn [List.map app] in H1, H2. split.
  - rewrite H1; [reflexivity|repeat constructor|reflexivity|now left].
  - rewrite H2; [reflexivity|repeat constructor|reflexivity|now right].
Defined.

Lemma withRetry_without_attempts_witness :
  fst (withRetry no_attempts (kv_get (str "k")) (str "get k") empty_world)
  = Throw (TypeError
             (str "Cannot read properties of undefined (reading 'message')")) /\
  trace (snd (withRetry no_attempts (kv_get (str "k")) (str "get k")
                 empty_world))
  = [].
Proof.
  rewrite (withRetry_without_attempts no_attempts (str "get k")
             (kv_get (str "k")) empty_world); [now split|reflexivity].
Defined.

Lemma setValue_getValue_witness :
  fst (setValue demo_digest print_json demo_this [str "a"] (JStr (str "w"))
         (quiet demo_entries []))
  = Ret tt /\
  fst (getValue demo_digest demo_parse demo_this [str "a"]
         (snd (setValue demo_digest print_json demo_this [str "a"]
                 (JStr (str "w")) (quiet demo_entries []))))
  = Ret (JStr (str "w")) /\
  fst (setValue demo_digest print_json demo_this [str "c"] (JStr (str "w"))
         (quiet demo_entries []))
  = Throw (not_found [str "c"]).
Proof.
  pose proof (setValue_getValue demo_digest print_json demo_parse demo_this
                demo_retries [str "a"] (JStr (str "w")) demo_entries []) as Ha.
  pose proof (setValue_getValue demo_digest print_json demo_parse demo_this
                demo_retries [str "c"] (JStr (str "w")) demo_entries []) as Hc.
  cbv zeta in Ha, Hc.
  remember (demo_entries !! _) as present eqn:Ea in Ha.
  vm_compute in Ea. subst present.
  remember (demo_entries !! _) as absent eqn:Ec in Hc.
  vm_compute in Ec. subst absent.
  destruct Ha as [Hset Hget]. rewrite Hset, Hc. cbn [fst snd].
  rewrite Hget. repeat split.
Defined.

Lemma initializeRoot_idempotent_witness :
  fst (initializeRoot demo_digest print_json demo_parse demo_this empty_world)
  = Ret tt /\
  kv (snd (initializeRoot demo_digest print_json demo_parse demo_this
             empty_world))
  = root_entries /\
  fst (nodeExists demo_digest demo_this []
         (snd (initializeRoot demo_digest print_json demo_parse demo_this
                 empty_world)))
  = Ret true /\
  kv (snd (initializeRoot demo_digest print_json demo_parse demo_this
             (snd (initializeRoot demo_digest print_json demo_parse
                     demo_this empty_world))))
  = root_entries.
Proof.
  destruct (initializeRoot_idempotent demo_digest print_json demo_parse
              demo_this demo_retries ∅ [])
    as (Hok & Hstore & Hexists & _ & Hagain).
  split; [exact Hok|]. split; [reflexivity|]. split; [exact Hexists|].
  exact Hagain.
Defined.

Lemma simple_a : simple_path ([] ++ [str "a"]).
Proof.
  repeat constructor; try reflexivity; try discriminate.
  unfold colon_free. cbn. lia.
Qed.


Lemma deleteNode_removes_witness :
  fst (nodeExists demo_digest demo_this [str "a"]
         (snd (deleteNode demo_digest print_json demo_parse demo_this 2
                 [str "a"] (quiet demo_entries []))))
  = Ret false /\
  fst (nodeExists demo_digest demo_this [str "a"; str "b"]
         (snd (deleteNode demo_digest print_json demo_parse demo_this 2
                 [str "a"] (quiet demo_entries []))))
  = Ret false /\
  fst (getChildren demo_digest demo_parse demo_this []
         (snd (deleteNode demo_digest print_json demo_parse demo_this 2
                 [str "a"] (quiet demo_entries []))))
  = Ret (JArr []).
Proof.
  destruct (deleteNode_removes demo_digest print_json demo_parse demo_this
              demo_retries 2 (str "a") [] demo_tree [JStr (str "a")]
              demo_entries [])
    as (Hgone & Hparent & _).
  - vm_compute. discriminate.
  - exact demo_tree_linked.
  - cbn. lia.
  - vm_compute. reflexivity.
  - split; [apply Hgone; now left|].
    split; [apply Hgone; right; now left|].
    apply Hparent. vm_compute. reflexivity.
Defined.

Lemma serializeValue_sorted_witness :
  serializeValue print_json (JObj object_zy)
  = Some (str "{" ++ quoted (str "alpha") ++ str ":" ++ quoted (str "x") ++
          str "," ++ quoted (str "zeta") ++ str ":1}").
Proof.
  destruct (serializeValue_sorted print_json object_zy) as (Htext & _ & _).
  - repeat constructor; cbn; intuition discriminate.
  - repeat constructor; try discriminate; vm_compute; reflexivity.
  - rewrite Htext. vm_compute. reflexivity.
Defined.

Lemma traverse_depth_first_order_witness :
  visited_paths
    (trace (snd (traverse demo_digest demo_parse demo_this 3 [] silent
                   DepthFirst None true (quiet demo_entries []))))
  = [[]; [str "a"]; [str "a"; str "b"]] /\
  visited_paths
    (trace (snd (traverse demo_digest demo_parse demo_this 3 [] stop_at_a
                   DepthFirst None true (quiet demo_entries []))))
  = [[]; [str "a"]].
Proof.
  split.
  - rewrite (traverse_depth_first_order demo_digest demo_parse demo_this
               demo_retries 3 [] demo_root silent None true demo_entries []
               demo_root_stored); [|cbn; lia].
    vm_compute. reflexivity.
  - rewrite (traverse_depth_first_order demo_digest demo_parse demo_this
               demo_retries 3 [] demo_root stop_at_a None true demo_entries []
               demo_root_stored); [|cbn; lia].
    vm_compute. reflexivity.
Defined.

Lemma traverse_breadth_first_order_witness :
  visited_paths
    (trace (snd (traverse demo_digest demo_parse demo_this 3 [] silent
                   BreadthFirst None true (quiet demo_entries []))))
  = [[]; [str "a"]; [str "a"; str "b"]].
Proof.
  destruct (traverse_breadth_first_order demo_digest demo_parse demo_this
              demo_retries silent (fun _ _ => eq_refl) 3 [] demo_root true
              demo_entries [] demo_root_stored) as [Hrun _]; [cbn; lia|].
  rewrite Hrun. vm_compute. reflexivity.
Defined.

Lemma findNodes_stored_witness :
  List.map path
    (match fst (findNodes demo_digest demo_parse demo_this 3 is_internal []
                  (quiet demo_entries [])) with
     | Ret found => found
     | _ => []
     end)
  = [[]; [str "a"]].
Proof.
  rewrite (findNodes_stored demo_digest demo_parse demo_this demo_retries 3
             [] demo_root is_internal demo_entries [] demo_root_stored);
    [|cbn; lia].
  vm_compute. reflexivity.
Defined.

Lemma getStats_stored_witness :
  fst (getStats demo_digest print_json demo_parse demo_this 3 []
         (quiet demo_entries []))
  = Ret {| nodeCount := 3; leafCount := 1; internalNodeCount := 2;
           maxDepth := 2; estimatedSize := 6 |}.
Proof.
  rewrite (getStats_stored demo_digest print_json demo_parse demo_this
             demo_retries 3 [] demo_root demo_entries [] demo_root_stored);
    [|cbn; lia].
  vm_compute. reflexivity.
Defined.

Lemma exportTree_stored_witness :
  fst (exportTree demo_digest demo_parse demo_this 3 [] (quiet demo_entries []))
  = Ret (JObj
           [(str "value", JNull);
            (str "children",
             JObj
               [(str "a",
                 JObj
                   [(str "value", JStr (str "v"));
                    (str "children",
                     JObj
                       [(str "b",
                         JObj [(str "value", JStr (str "w"));
                               (str "children", JObj [])])])])])]).
Proof.
  rewrite (exportTree_stored demo_digest demo_parse demo_this demo_retries
             demo_entries 3 [] demo_root [] demo_root_stored); [|cbn; lia].
  vm_compute. reflexivity.
Defined.

Lemma demo_tree_keyed : well_keyed demo_tree.
Proof.
  cbn [well_keyed demo_tree fold_right fst snd List.map].
  split; [repeat constructor; intros H; inversion H|].
  split; [|exact I]. split; [|split; [constructor|exact I]].
  repeat constructor; try reflexivity; try discriminate.
  unfold colon_free. cbn. lia.
Qed.

Lemma demo_tree_round_trips : round_trips print_json demo_parse demo_tree.
Proof.
  cbn [round_trips demo_tree fold_right fst snd List.map].
  split; [reflexivity|]. split; [intros [|[|n]]; reflexivity|].
  split; [|exact I]. split; [reflexivity|]. split; [|exact I].
  intros [|n]; reflexivity.
Qed.

Lemma simple_z : simple_path ([] ++ [str "z"]).
Proof.
  repeat constructor; try reflexivity; try discriminate.
  unfold colon_free. cbn. lia.
Qed.

Lemma a_z_apart :
  ~ [str "a"] `prefix_of` [] ++ [str "z"] /\
  ~ ([] ++ [str "z"]) `prefix_of` [str "a"].
Proof. split; intros [r E]; discriminate E. Qed.



Lemma demo_root_keyed : well_keyed demo_root.
Proof.
  cbn [well_keyed demo_root fold_right fst snd List.map].
  split; [repeat constructor; intros H; inversion H|].
  split; [|exact I]. split; [|exact demo_tree_keyed].
  repeat constructor; try reflexivity; try discriminate.
  unfold colon_free. cbn. lia.
Qed.

Lemma demo_tree_plain : plainly_keyed demo_tree.
Proof.
  cbn [plainly_keyed demo_tree fold_right fst snd].
  repeat split; discriminate.
Qed.

Lemma demo_root_plain : plainly_keyed demo_root.
Proof.
  cbn [plainly_keyed demo_root fold_right fst snd].
  split; [|exact I]. split; [split; [reflexivity|discriminate]|].
  exact demo_tree_plain.
Qed.

Lemma demo_root_round_trips : round_trips print_json demo_parse demo_root.
Proof.
  cbn [round_trips demo_root fold_right fst snd List.map].
  split; [reflexivity|]. split; [intros [|[|n]]; reflexivity|].
  split; [exact demo_tree_round_trips|exact I].
Qed.



Lemma simple_a_b_z : simple_path ([str "a"; str "b"] ++ [str "z"]).
Proof.
  repeat constructor; try reflexivity; try discriminate.
  all: unfold colon_free; cbn; lia.
Qed.

Lemma demo_leaf_stored :
  stored demo_digest demo_parse demo_this demo_entries [str "a"; str "b"]
    (Node (JStr (str "w")) []).
Proof.
  cbn [stored fold_right fst snd List.map app].
  repeat split; eexists; split; vm_compute; reflexivity.
Qed.

Lemma demo_leaf_keyed : well_keyed (Node (JStr (str "w")) []).
Proof. split; [constructor|exact I]. Qed.

Lemma demo_leaf_round_trips :
  round_trips print_json demo_parse (Node (JStr (str "w")) []).
Proof.
  split; [reflexivity|]. split; [intros [|n]; reflexivity|exact I].
Qed.


End KVTree.
